(** * wasm-go: a shallow embedding of the decoder and the interpreter

    The Go sources are embedded function by function.  Fixed-width integers
    are [Z] with the wrap-around written out, byte slices are lists of
    [Byte.byte], Go's [(value, error)] results and run-time panics are the
    constructors of [result], and code that threads a cursor or the machine
    state through its calls lives in the state-and-result monad [SE]. *)

From Stdlib Require Import ZArith Lia List Strings.String Strings.Byte.
From stdpp Require Import base list strings pretty.
Import ListNotations.
Open Scope Z_scope.

(* ================================================================== *)
(** ** Fixed-width integers *)

Definition wrapu (w z : Z) : Z := z mod 2 ^ w.
Definition wraps (w z : Z) : Z := (z + 2 ^ (w - 1)) mod 2 ^ w - 2 ^ (w - 1).

Definition uint8 (z : Z) : Z := wrapu 8 z.
Definition uint16 (z : Z) : Z := wrapu 16 z.
Definition uint32 (z : Z) : Z := wrapu 32 z.
Definition uint64 (z : Z) : Z := wrapu 64 z.
Definition int32 (z : Z) : Z := wraps 32 z.
Definition int64 (z : Z) : Z := wraps 64 z.
(** Go's [int] and [uint] on the 64-bit targets the module builds for. *)
Definition int (z : Z) : Z := wraps 64 z.
Definition uint (z : Z) : Z := wrapu 64 z.

Definition MinInt32 : Z := - 2 ^ 31.
Definition MinInt64 : Z := - 2 ^ 63.

(** [x << s] and [x >> s] on a signed operand, [s] already non-negative:
    the left shift wraps, the right shift is arithmetic. *)
Definition shl32 (x s : Z) : Z := int32 (Z.shiftl x s).
Definition shl64 (x s : Z) : Z := int64 (Z.shiftl x s).
Definition shlu32 (x s : Z) : Z := uint32 (Z.shiftl x s).
Definition shlu64 (x s : Z) : Z := uint64 (Z.shiftl x s).

(* ================================================================== *)
(** ** Bytes and little-endian encoding (encoding/binary) *)

Definition byte_to_Z (b : byte) : Z := Z.of_N (Byte.to_N b).
Definition byte_of_Z (z : Z) : byte :=
  match Byte.of_N (Z.to_N (z mod 256)) with
  | Some b => b
  | None => x00
  end.

(** [binary.LittleEndian.PutUintN]: the [n] low bytes of [z], lowest first. *)
Fixpoint le_encode (n : nat) (z : Z) : list byte :=
  match n with
  | O => []
  | S n' => byte_of_Z z :: le_encode n' (z / 256)
  end.

(** [binary.LittleEndian.UintN]. *)
Fixpoint le_decode (bs : list byte) : Z :=
  match bs with
  | [] => 0
  | b :: tl => byte_to_Z b + 256 * le_decode tl
  end.

(* ================================================================== *)
(** ** Errors, panics and results *)

Inductive error : Type :=
  | errOutOfBounds
  | errIntegerDivideByZero
  | errIntegerOverflow
  | errInvalidWASMBinary
  | EOF
  | ErrUnexpectedEOF
  | Errorf (msg : string).

(** The [Error()] method: the text a trap surfaces with. *)
Definition Error (e : error) : string :=
  match e with
  | errOutOfBounds => "out of bounds memory access"
  | errIntegerDivideByZero => "integer divide by zero"
  | errIntegerOverflow => "integer overflow"
  | errInvalidWASMBinary => "invalid wasm binary magic"
  | EOF => "EOF"
  | ErrUnexpectedEOF => "unexpected EOF"
  | Errorf msg => msg
  end.

(** What the Go run time aborts with. *)
Inductive panic : Type :=
  | IndexOutOfRange
  | SliceBoundsOutOfRange
  | NilDereference
  | MakeLenOutOfRange
  | PanicMsg (msg : string).

Inductive result (A : Type) : Type :=
  | Ok (a : A)
  | Err (e : error)
  | Panic (p : panic)
  | OutOfFuel.
Arguments Ok {A} a.
Arguments Err {A} e.
Arguments Panic {A} p.
Arguments OutOfFuel {A}.

Definition rbind {A B} (r : result A) (k : A -> result B) : result B :=
  match r with
  | Ok a => k a
  | Err e => Err e
  | Panic p => Panic p
  | OutOfFuel => OutOfFuel
  end.

(** State threaded through fallible code: the state is returned on every
    path, since callers keep running on it after an error. *)
Definition SE (S A : Type) : Type := S -> result A * S.

Definition ret {S A} (a : A) : SE S A := fun s => (Ok a, s).
Definition fail {S A} (e : error) : SE S A := fun s => (Err e, s).
Definition crash {S A} (p : panic) : SE S A := fun s => (Panic p, s).
Definition bind {S A B} (m : SE S A) (k : A -> SE S B) : SE S B :=
  fun s =>
    match m s with
    | (Ok a, s') => k a s'
    | (Err e, s') => (Err e, s')
    | (Panic p, s') => (Panic p, s')
    | (OutOfFuel, s') => (OutOfFuel, s')
    end.
Definition lift {S A} (r : result A) : SE S A := fun s => (r, s).
Definition get {S} : SE S S := fun s => (Ok s, s).
Definition put {S} (s : S) : SE S unit := fun _ => (Ok tt, s).
(** Runs [m] and hands its outcome, error or not, to the caller. *)
Definition try {S A} (m : SE S A) : SE S (result A) :=
  fun s => let '(r, s') := m s in (Ok r, s').
(** Runs [m] for a caller that looks at no more than whether it failed. *)
Definition attempt {S A} (m : SE S A) : SE S (option A) :=
  fun s =>
    match m s with
    | (Ok a, s') => (Ok (Some a), s')
    | (Err _, s') => (Ok None, s')
    | (Panic p, s') => (Panic p, s')
    | (OutOfFuel, s') => (OutOfFuel, s')
    end.

Declare Scope se_scope.
Delimit Scope se_scope with se.
Notation "'let*' x ':=' m 'in' k" := (bind m (fun x => k))
  (at level 10, x name, m at level 100, k at level 200) : se_scope.
Notation "'let*' ' pat ':=' m 'in' k" := (bind m (fun x => match x with pat => k end))
  (at level 10, pat pattern, m at level 100, k at level 200) : se_scope.
Notation "'do' m 'then' k" := (bind m (fun _ => k))
  (at level 10, m at level 100, k at level 200) : se_scope.
Open Scope se_scope.

(** [s[i]] on a slice. *)
Definition index {A} (l : list A) (i : Z) : result A :=
  if (i <? 0) || (Z.of_nat (length l) <=? i) then Panic IndexOutOfRange
  else match l !! Z.to_nat i with
       | Some a => Ok a
       | None => Panic IndexOutOfRange
       end.

(** [s[i] = v] on a slice. *)
Definition set_index {A} (l : list A) (i : Z) (v : A) : result (list A) :=
  if (i <? 0) || (Z.of_nat (length l) <=? i) then Panic IndexOutOfRange
  else Ok (<[Z.to_nat i := v]> l).

(** [s[lo:]] on a slice. *)
Definition slice_from {A} (l : list A) (lo : Z) : result (list A) :=
  if (lo <? 0) || (Z.of_nat (length l) <? lo) then Panic SliceBoundsOutOfRange
  else Ok (drop (Z.to_nat lo) l).

(** [s[lo:hi]] on a slice whose capacity is its length. *)
Definition slice_range {A} (l : list A) (lo hi : Z) : result (list A) :=
  if (hi <? 0) || (Z.of_nat (length l) <? hi) || (lo <? 0) || (hi <? lo)
  then Panic SliceBoundsOutOfRange
  else Ok (take (Z.to_nat (hi - lo)) (drop (Z.to_nat lo) l)).

(** [len(s)]. *)
Definition len {A} (l : list A) : Z := Z.of_nat (length l).

(* ================================================================== *)
(** ** types.go *)

Definition type_ : Type := byte.
Definition I32 : type_ := x70.
Definition I64 : type_ := x6f.
Definition F32 : type_ := x7d.
Definition F64 : type_ := x7c.
Definition V128 : type_ := x7b.
Definition FuncRef : type_ := x70.
Definition ExternRef : type_ := x6f.

Record funcType : Type := { params : list type_; results : list type_ }.

Record locals : Type := { count : Z; valType : type_ }.

Record limits : Type := {
  Min : Z;
  (** -1 means there is no maximum value *)
  Max : Z
}.

Record tableType : Type := { tt_limits : limits; elemType : type_ }.
Record memType : Type := { mt_limits : limits }.

Definition mutability : Type := byte.
Definition const_ : mutability := x00.
Definition var_ : mutability := x01.

Record globalType : Type := { valueType : type_; mut : mutability }.

Definition blockType : Type := Z.
Definition blockTypeEmpty : blockType := 0.
Definition blockTypeValue : blockType := 1.

Record block : Type := { blockType_ : blockType; b_valType : list type_ }.

Definition exportImportKind : Type := byte.
Definition exportImportKindFunc : exportImportKind := x00.
Definition exportImportKindTable : exportImportKind := x01.
Definition exportImportKindMem : exportImportKind := x02.
Definition exportImportKindGlobal : exportImportKind := x03.

(* ================================================================== *)
(** ** instance.go: values *)

Record Value : Type := { ValType : type_; data : list byte }.

(** [Value{}] *)
Definition zeroValue : Value := {| ValType := x00; data := [] |}.

(** The dynamic type of the [any] handed to [ValueFrom].  Floats are carried
    as their IEEE-754 bit patterns. *)
Inductive any : Type :=
  | any_int32 (v : Z)
  | any_int64 (v : Z)
  | any_uint32 (v : Z)
  | any_uint64 (v : Z)
  | any_float32 (bits : Z)
  | any_float64 (bits : Z)
  | any_int (v : Z).

(** [binary.Write(buffer, binary.LittleEndian, v)] on a fresh buffer: the
    bytes the buffer holds afterwards.  A platform-sized [int] is not a
    fixed-size value: Write returns an error and leaves the buffer empty. *)
Definition binary_Write (v : any) : result (list byte) :=
  match v with
  | any_int32 z | any_uint32 z | any_float32 z => Ok (le_encode 4 z)
  | any_int64 z | any_uint64 z | any_float64 z => Ok (le_encode 8 z)
  | any_int _ => Err (Errorf "binary.Write: some values are not fixed-sized in type int")
  end.

(** [buffer.Bytes()] after a Write whose error is dropped. *)
Definition written (v : any) : list byte :=
  match binary_Write v with
  | Ok bs => bs
  | _ => []
  end.

Definition ValueFrom (v : any) (t : type_) : Value :=
  {| ValType := t; data := written v |}.
Definition ValueFromI32 (v : Z) : Value :=
  {| ValType := I32; data := written (any_int32 v) |}.
Definition ValueFromI64 (v : Z) : Value :=
  {| ValType := I64; data := written (any_int64 v) |}.
Definition ValueFromF32 (bits : Z) : Value :=
  {| ValType := F32; data := written (any_float32 bits) |}.
Definition ValueFromF64 (bits : Z) : Value :=
  {| ValType := F64; data := written (any_float64 bits) |}.

(** [binary.Read(r, binary.LittleEndian, &x)] for an [n]-byte [x]: the raw
    unsigned word, or the error of [io.ReadFull] on a short reader. *)
Definition binary_Read (n : nat) (bs : list byte) : result Z :=
  if (length bs <? n)%nat
  then Err (match bs with [] => EOF | _ => ErrUnexpectedEOF end)
  else Ok (le_decode (take n bs)).

(** The accessors drop the error of [binary.Read]: the receiving variable
    keeps its zero value. *)
Definition read_or_zero (n : nat) (bs : list byte) : Z :=
  match binary_Read n bs with
  | Ok z => z
  | _ => 0
  end.

Definition V_I32 (v : Value) : Z := int32 (read_or_zero 4 (data v)).
Definition V_I64 (v : Value) : Z := int64 (read_or_zero 8 (data v)).
(** Bit patterns of the [float32] and [float64] read. *)
Definition V_F32 (v : Value) : Z := read_or_zero 4 (data v).
Definition V_F64 (v : Value) : Z := read_or_zero 8 (data v).

Definition type_eqb (a b : byte) : bool := Byte.eqb a b.

Definition V_Bool (v : Value) : result bool :=
  if type_eqb (ValType v) I32 then Ok (negb (0 =? V_I32 v))
  else if type_eqb (ValType v) I64 then Ok (negb (0 =? V_I64 v))
  else Panic (PanicMsg "value must be int type").

(* ================================================================== *)
(** ** stack.go

    A stack is its [inner] slice: the top is the last element. *)

Definition stack (T : Type) : Type := list T.

Definition stack_Len {T} (s : stack T) : Z := len s.
Definition stack_isEmpty {T} (s : stack T) : bool := stack_Len s =? 0.
Definition stack_Push {T} (s : stack T) (v : T) : stack T := s ++ [v].

(** [Peek] hands out a pointer: to a fresh zero value and [false] on an
    empty stack, to the slot [len-1-depth] otherwise. *)
Definition stack_Peek {T} (zero : T) (s : stack T) (depth : Z) : result (T * bool) :=
  if stack_isEmpty s then Ok (zero, false)
  else rbind (index s (len s - 1 - depth)) (fun v => Ok (v, true)).

Definition stack_Top {T} (zero : T) (s : stack T) : result (T * bool) :=
  stack_Peek zero s 0.

Definition stack_Set {T} (s : stack T) (sp idx : Z) (v : T) : result (stack T) :=
  set_index s (sp + idx) v.

(** [Get] returns a nil pointer and [false] past the top. *)
Definition stack_Get {T} (s : stack T) (sp idx : Z) : result (option T) :=
  if stack_Len s <=? sp + idx then Ok None
  else rbind (index s (sp + idx)) (fun v => Ok (Some v)).

Definition stack_Pop {T} (zero : T) (s : stack T) : T * bool * stack T :=
  if stack_isEmpty s then (zero, false, s)
  else
    let idx := stack_Len s - 1 in
    (nth (Z.to_nat idx) s zero, true, take (Z.to_nat idx) s).

(* ================================================================== *)
(** ** instance.go: memory instances *)

Definition PAGE_SIZE : Z := 65536.
Definition DEFAULT_MEM_ADDR_IDX : Z := 0.

Record memInst : Type := { m_memType : memType; m_data : list byte }.

Definition memInst_size (m : memInst) : Z := len (m_data m).
Definition memInst_pages (m : memInst) : Z := int (Z.quot (memInst_size m) PAGE_SIZE).

(** [make([]byte, n)]: zeroed, capacity equal to the length. *)
Definition make_bytes (n : Z) : result (list byte) :=
  if n <? 0 then Panic MakeLenOutOfRange else Ok (replicate (Z.to_nat n) x00).

(** [copy(dst, src)]: what [dst] holds afterwards. *)
Definition copy_slice {A} (dst src : list A) : list A :=
  take (length dst) src ++ drop (length src) dst.

(** [grow] assigns the receiver's [data] field: it returns the receiver as
    the call leaves it. *)
Definition memInst_grow (m : memInst) (n : Z) : result memInst :=
  let toPages := memInst_pages m + n in
  if (0 <=? Max (mt_limits (m_memType m))) && (int (Max (mt_limits (m_memType m))) <? toPages)
  then Err (Errorf ("memory page is overflow. max is " +:+ pretty toPages +:+
                    ", grow size is " +:+ pretty (Max (mt_limits (m_memType m)))))
  else
    rbind (make_bytes (toPages * PAGE_SIZE)) (fun data =>
    Ok {| m_memType := m_memType m; m_data := copy_slice data (m_data m) |}).

(** The bounds test shared by the accessors, in [int32] arithmetic. *)
Definition mem_oob (m : memInst) (addr width : Z) : bool :=
  (addr <? 0) || (int32 (len (m_data m)) <? int32 (addr + width)).

Definition mem_load (n : nat) (m : memInst) (addr : Z) : result Z :=
  if mem_oob m addr (Z.of_nat n) then Err errOutOfBounds
  else rbind (slice_from (m_data m) addr) (fun s => binary_Read n s).

Definition load8 (m : memInst) (addr align : Z) : result Z := mem_load 1 m addr.
Definition load16 (m : memInst) (addr align : Z) : result Z := mem_load 2 m addr.
Definition load32 (m : memInst) (addr align : Z) : result Z := mem_load 4 m addr.
Definition load64 (m : memInst) (addr align : Z) : result Z := mem_load 8 m addr.

(** [binary.Write(bytes.NewBuffer(s), binary.LittleEndian, v)], [p] being the
    encoding of [v]: the buffer starts out holding [s] and Write appends
    after the bytes it holds.  [s] is a tail of a slice that [make] built,
    so its capacity is its length: the buffer finds no room behind [s] and
    moves to an array of its own.  The result is what the buffer holds
    afterwards; the array behind [s] is not written. *)
Definition Buffer_Write (s p : list byte) : list byte := s ++ p.

(** The store accessors return the error of the write, [nil] as [Ok tt];
    the receiver's [data] is not assigned. *)
Definition mem_store (n : nat) (m : memInst) (addr : Z) (v : Z) : result unit :=
  if mem_oob m addr (Z.of_nat n) then Err errOutOfBounds
  else rbind (slice_from (m_data m) addr) (fun s =>
       let _buf := Buffer_Write s (le_encode n v) in Ok tt).

Definition store8 (m : memInst) (addr align : Z) (v : Z) : result unit := mem_store 1 m addr v.
Definition store16 (m : memInst) (addr align : Z) (v : Z) : result unit := mem_store 2 m addr v.
Definition store32 (m : memInst) (addr align : Z) (v : Z) : result unit := mem_store 4 m addr v.
Definition store64 (m : memInst) (addr align : Z) (v : Z) : result unit := mem_store 8 m addr v.

(* ================================================================== *)
(** ** instr_numeric.go: integer operations *)

(** math/bits *)
Definition bits_Len (x : Z) : Z := if x =? 0 then 0 else Z.log2 x + 1.
Definition LeadingZeros32 (x : Z) : Z := 32 - bits_Len x.
Definition LeadingZeros64 (x : Z) : Z := 64 - bits_Len x.

Fixpoint ntz (w : nat) (x : Z) : Z :=
  match w with
  | O => 0
  | S w' => if Z.odd x then 0 else 1 + ntz w' (x / 2)
  end.
Definition TrailingZeros32 (x : Z) : Z := ntz 32 x.
Definition TrailingZeros64 (x : Z) : Z := ntz 64 x.

Fixpoint ones (w : nat) (x : Z) : Z :=
  match w with
  | O => 0
  | S w' => (if Z.odd x then 1 else 0) + ones w' (x / 2)
  end.
Definition OnesCount32 (x : Z) : Z := ones 32 x.
Definition OnesCount64 (x : Z) : Z := ones 64 x.

Definition RotateLeft32 (x k : Z) : Z :=
  let s := Z.land (uint k) 31 in Z.lor (shlu32 x s) (Z.shiftr x (32 - s)).
Definition RotateLeft64 (x k : Z) : Z :=
  let s := Z.land (uint k) 63 in Z.lor (shlu64 x s) (Z.shiftr x (64 - s)).

Definition rotateRight32 (x k : Z) : Z :=
  let s := Z.land (uint k) 31 in Z.lor (Z.shiftr x s) (shlu32 x (32 - s)).
Definition rotateRight64 (x k : Z) : Z :=
  let s := Z.land (uint k) 63 in Z.lor (Z.shiftr x s) (shlu64 x (64 - s)).

(** instr_memory.go: sign extension by a shift pair *)
Definition extendS8_32 (v : Z) : Z := Z.shiftr (shl32 v 24) 24.
Definition extendS8_64 (v : Z) : Z := Z.shiftr (shl64 v 56) 56.
Definition extendS16_32 (v : Z) : Z := Z.shiftr (shl32 v 16) 16.
Definition extendS16_64 (v : Z) : Z := Z.shiftr (shl64 v 48) 48.
Definition extendS32_64 (v : Z) : Z := Z.shiftr (shl64 v 32) 32.

Definition i32Clz (v : Value) : Value :=
  ValueFrom (any_int32 (int32 (LeadingZeros32 (uint32 (V_I32 v))))) I32.
Definition i64Clz (v : Value) : Value :=
  ValueFrom (any_int64 (int64 (LeadingZeros64 (uint64 (V_I64 v))))) I64.
Definition i32Ctz (v : Value) : Value :=
  ValueFrom (any_int32 (int32 (TrailingZeros32 (uint32 (V_I32 v))))) I32.
Definition i64Ctz (v : Value) : Value :=
  ValueFrom (any_int64 (int64 (TrailingZeros64 (uint64 (V_I64 v))))) I64.
Definition i32Popcnt (v : Value) : Value :=
  ValueFrom (any_int32 (int32 (OnesCount32 (uint32 (V_I32 v))))) I32.
Definition i64Popcnt (v : Value) : Value :=
  ValueFrom (any_int64 (int64 (OnesCount64 (uint64 (V_I64 v))))) I64.

Definition i32Extend8S (v : Value) : Value := ValueFrom (any_int32 (extendS8_32 (V_I32 v))) I32.
Definition i32Extend16S (v : Value) : Value := ValueFrom (any_int32 (extendS16_32 (V_I32 v))) I32.
Definition i64Extend8S (v : Value) : Value := ValueFrom (any_int64 (extendS8_64 (V_I64 v))) I64.
Definition i64Extend16S (v : Value) : Value := ValueFrom (any_int64 (extendS16_64 (V_I64 v))) I64.
Definition i64Extend32S (v : Value) : Value := ValueFrom (any_int64 (extendS32_64 (V_I64 v))) I64.

Definition i32Add (a b : Value) : result Value :=
  Ok (ValueFrom (any_int32 (int32 (V_I32 a + V_I32 b))) I32).
Definition i64Add (a b : Value) : result Value :=
  Ok (ValueFromI64 (int64 (V_I64 a + V_I64 b))).
Definition i32Sub (a b : Value) : result Value :=
  Ok (ValueFrom (any_int32 (int32 (V_I32 a - V_I32 b))) I32).
Definition i64Sub (a b : Value) : result Value :=
  Ok (ValueFrom (any_int64 (int64 (V_I64 a - V_I64 b))) I64).
Definition i32Mul (a b : Value) : result Value :=
  Ok (ValueFrom (any_int32 (int32 (V_I32 a * V_I32 b))) I32).
Definition i64Mul (a b : Value) : result Value :=
  Ok (ValueFrom (any_int64 (int64 (V_I64 a * V_I64 b))) I64).

Definition i32DivU (a b : Value) : result Value :=
  let aI32 := V_I32 a in
  let bI32 := V_I32 b in
  if bI32 =? 0 then Err errIntegerDivideByZero
  else Ok (ValueFrom (any_uint32 (uint32 aI32 / uint32 bI32)) I32).

Definition i32DivS (a b : Value) : result Value :=
  let aI32 := V_I32 a in
  let bI32 := V_I32 b in
  if bI32 =? 0 then Err errIntegerDivideByZero
  else if (aI32 =? MinInt32) && (bI32 =? -1) then Err errIntegerOverflow
  else Ok (ValueFrom (any_int32 (int32 (Z.quot aI32 bI32))) I32).

Definition i64DivU (a b : Value) : result Value :=
  let aI64 := V_I64 a in
  let bI64 := V_I64 b in
  if bI64 =? 0 then Err errIntegerDivideByZero
  else Ok (ValueFrom (any_uint64 (uint64 aI64 / uint64 bI64)) I64).

Definition i64DivS (a b : Value) : result Value :=
  let aI64 := V_I64 a in
  let bI64 := V_I64 b in
  if bI64 =? 0 then Err errIntegerDivideByZero
  else if (aI64 =? MinInt64) && (bI64 =? -1) then Err errIntegerOverflow
  else Ok (ValueFrom (any_int64 (int64 (Z.quot aI64 bI64))) I64).

Definition i32RemU (a b : Value) : result Value :=
  let aI32 := V_I32 a in
  let bI32 := V_I32 b in
  if bI32 =? 0 then Err errIntegerDivideByZero
  else Ok (ValueFrom (any_uint32 (uint32 aI32 mod uint32 bI32)) I32).

Definition i32RemS (a b : Value) : result Value :=
  let aI32 := V_I32 a in
  let bI32 := V_I32 b in
  if bI32 =? 0 then Err errIntegerDivideByZero
  else Ok (ValueFrom (any_int32 (int32 (Z.rem aI32 bI32))) I32).

Definition i64RemU (a b : Value) : result Value :=
  let aI64 := V_I64 a in
  let bI64 := V_I64 b in
  if bI64 =? 0 then Err errIntegerDivideByZero
  else Ok (ValueFrom (any_uint64 (uint64 aI64 mod uint64 bI64)) I64).

Definition i64RemS (a b : Value) : result Value :=
  let aI64 := V_I64 a in
  let bI64 := V_I64 b in
  if bI64 =? 0 then Err errIntegerDivideByZero
  else Ok (ValueFrom (any_int64 (int64 (Z.rem aI64 bI64))) I64).

Definition i32And (a b : Value) : result Value :=
  Ok (ValueFrom (any_int32 (Z.land (V_I32 a) (V_I32 b))) I32).
Definition i64And (a b : Value) : result Value :=
  Ok (ValueFrom (any_int64 (Z.land (V_I64 a) (V_I64 b))) I64).
Definition i32Or (a b : Value) : result Value :=
  Ok (ValueFrom (any_int32 (Z.lor (V_I32 a) (V_I32 b))) I32).
Definition i64Or (a b : Value) : result Value :=
  Ok (ValueFrom (any_int64 (Z.lor (V_I64 a) (V_I64 b))) I64).
Definition i32Xor (a b : Value) : result Value :=
  Ok (ValueFrom (any_int32 (Z.lxor (V_I32 a) (V_I32 b))) I32).
Definition i64Xor (a b : Value) : result Value :=
  Ok (ValueFrom (any_int64 (Z.lxor (V_I64 a) (V_I64 b))) I64).

Definition i32Shl (a b : Value) : result Value :=
  Ok (ValueFrom (any_int32 (shl32 (V_I32 a) (uint32 (V_I32 b) mod 32))) I32).
Definition i64Shl (a b : Value) : result Value :=
  Ok (ValueFrom (any_int64 (shl64 (V_I64 a) (uint64 (V_I64 b) mod 64))) I64).
Definition i32ShrS (a b : Value) : result Value :=
  Ok (ValueFrom (any_int32 (Z.shiftr (V_I32 a) (uint32 (V_I32 b) mod 32))) I32).
Definition i32ShrU (a b : Value) : result Value :=
  Ok (ValueFrom (any_uint32 (Z.shiftr (uint32 (V_I32 a)) (uint32 (V_I32 b) mod 32))) I32).
Definition i64ShrS (a b : Value) : result Value :=
  Ok (ValueFrom (any_int64 (Z.shiftr (V_I64 a) (uint64 (V_I64 b) mod 64))) I64).
Definition i64ShrU (a b : Value) : result Value :=
  Ok (ValueFrom (any_uint64 (Z.shiftr (uint64 (V_I64 a)) (uint64 (V_I64 b) mod 64))) I64).

Definition i32RotL (a b : Value) : result Value :=
  Ok (ValueFrom (any_uint32 (RotateLeft32 (uint32 (V_I32 a)) (int (V_I32 b)))) I32).
Definition i64RotL (a b : Value) : result Value :=
  Ok (ValueFrom (any_uint64 (RotateLeft64 (uint64 (V_I64 a)) (int (V_I64 b)))) I64).
Definition i32RotR (a b : Value) : result Value :=
  Ok (ValueFrom (any_uint32 (rotateRight32 (uint32 (V_I32 a)) (int (V_I32 b)))) I32).
Definition i64RotR (a b : Value) : result Value :=
  Ok (ValueFrom (any_uint64 (rotateRight64 (uint64 (V_I64 a)) (int (V_I64 b)))) I64).

Definition numericBool (b : bool) : Value :=
  let v := if b then int32 1 else int32 0 in
  ValueFrom (any_int32 v) I32.

Definition i32Eq (a b : Value) : bool := V_I32 a =? V_I32 b.
Definition i64Eq (a b : Value) : bool := V_I64 a =? V_I64 b.
Definition i32Ne (a b : Value) : bool := negb (V_I32 a =? V_I32 b).
Definition i64Ne (a b : Value) : bool := negb (V_I64 a =? V_I64 b).
Definition i32LtS (a b : Value) : bool := V_I32 a <? V_I32 b.
Definition i64LtS (a b : Value) : bool := V_I64 a <? V_I64 b.
Definition i32LtU (a b : Value) : bool := uint32 (V_I32 a) <? uint32 (V_I32 b).
Definition i64LtU (a b : Value) : bool := uint64 (V_I64 a) <? uint64 (V_I64 b).
Definition i32GtS (a b : Value) : bool := V_I32 a >? V_I32 b.
Definition i64GtS (a b : Value) : bool := V_I64 a >? V_I64 b.
Definition i32GtU (a b : Value) : bool := uint32 (V_I32 a) >? uint32 (V_I32 b).
Definition i64GtU (a b : Value) : bool := uint64 (V_I64 a) >? uint64 (V_I64 b).
Definition i32LeS (a b : Value) : bool := V_I32 a <=? V_I32 b.
Definition i64LeS (a b : Value) : bool := V_I64 a <=? V_I64 b.
Definition i32LeU (a b : Value) : bool := uint32 (V_I32 a) <=? uint32 (V_I32 b).
Definition i64LeU (a b : Value) : bool := uint64 (V_I64 a) <=? uint64 (V_I64 b).
Definition i32GeS (a b : Value) : bool := V_I32 a >=? V_I32 b.
Definition i64GeS (a b : Value) : bool := V_I64 a >=? V_I64 b.
Definition i32GeU (a b : Value) : bool := uint32 (V_I32 a) >=? uint32 (V_I32 b).
Definition i64GeU (a b : Value) : bool := uint64 (V_I64 a) >=? uint64 (V_I64 b).

Definition i32Eqz (v : Value) : bool := V_I32 v =? 0.
Definition i64Eqz (v : Value) : bool := V_I64 v =? 0.

(* ================================================================== *)
(** ** Floating point

    [float32] and [float64] values are carried as their IEEE-754 bit
    patterns.  The arithmetic of the Go run time and of package [math] on
    them is a parameter of the development. *)

Inductive farith : Type := Fadd | Fsub | Fmul | Fdiv.
Inductive fcmp : Type := Feq | Fne | Flt | Fgt | Fle | Fge.

Record floatOps : Type := {
  float64_of_float32 : Z -> Z;
  float32_of_float64 : Z -> Z;
  uint32_of_float32 : Z -> Z;
  uint64_of_float64 : Z -> Z;
  fneg32 : Z -> Z;
  fneg64 : Z -> Z;
  farith32 : farith -> Z -> Z -> Z;
  farith64 : farith -> Z -> Z -> Z;
  fcmp32 : fcmp -> Z -> Z -> bool;
  fcmp64 : fcmp -> Z -> Z -> bool;
  math_Abs : Z -> Z;
  math_Sqrt : Z -> Z;
  math_Ceil : Z -> Z;
  math_Floor : Z -> Z;
  math_Trunc : Z -> Z;
  math_Copysign : Z -> Z -> Z;
  math_Min : Z -> Z -> Z;
  math_Max : Z -> Z -> Z;
  math_IsNaN : Z -> bool;
  math_NaN : Z
}.

(** The float64 constants [0.5] and [1]. *)
Definition float64_half : Z := 0x3FE0000000000000.
Definition float64_one : Z := 0x3FF0000000000000.

Section FloatInstructions.
Variable fl : floatOps.

Let to64 := float64_of_float32 fl.
Let to32 := float32_of_float64 fl.

Definition f32Abs (v : Value) : Value :=
  ValueFrom (any_float32 (to32 (math_Abs fl (to64 (V_F32 v))))) F32.
Definition f64Abs (v : Value) : Value :=
  ValueFrom (any_float64 (math_Abs fl (V_F64 v))) F64.
Definition f32Neg (v : Value) : Value := ValueFrom (any_float32 (fneg32 fl (V_F32 v))) F32.
Definition f64Neg (v : Value) : Value := ValueFrom (any_float64 (fneg64 fl (V_F64 v))) F64.
Definition f32Sqrt (v : Value) : Value :=
  ValueFrom (any_float32 (to32 (math_Sqrt fl (to64 (V_F32 v))))) F32.
Definition f64Sqrt (v : Value) : Value :=
  ValueFrom (any_float64 (math_Sqrt fl (V_F64 v))) F64.
Definition f32Ceil (v : Value) : Value :=
  ValueFrom (any_float32 (to32 (math_Ceil fl (to64 (V_F32 v))))) F32.
Definition f64Ceil (v : Value) : Value :=
  ValueFrom (any_float64 (math_Ceil fl (V_F64 v))) F64.
Definition f32Floor (v : Value) : Value :=
  ValueFrom (any_float32 (to32 (math_Floor fl (to64 (V_F32 v))))) F32.
Definition f64Floor (v : Value) : Value :=
  ValueFrom (any_float64 (math_Floor fl (V_F64 v))) F64.
Definition f32Trunc (v : Value) : Value :=
  ValueFrom (any_float32 (to32 (math_Trunc fl (to64 (V_F32 v))))) F32.
Definition f64Trunc (v : Value) : Value :=
  ValueFrom (any_float64 (math_Trunc fl (V_F64 v))) F64.

Definition nearest (x : Z) : Z :=
  let t := math_Trunc fl x in
  if fcmp64 fl Fgt (math_Abs fl (farith64 fl Fsub x t)) float64_half
  then farith64 fl Fadd t (math_Copysign fl float64_one x)
  else t.
Definition f32Nearest (v : Value) : Value :=
  ValueFrom (any_float32 (to32 (nearest (to64 (V_F32 v))))) F32.
Definition f64Nearest (v : Value) : Value :=
  ValueFrom (any_float64 (nearest (V_F64 v))) F64.

Definition f32Add (a b : Value) : result Value :=
  Ok (ValueFrom (any_float32 (farith32 fl Fadd (V_F32 a) (V_F32 b))) F32).
Definition f64Add (a b : Value) : result Value :=
  Ok (ValueFrom (any_float64 (farith64 fl Fadd (V_F64 a) (V_F64 b))) F64).
Definition f32Sub (a b : Value) : result Value :=
  Ok (ValueFrom (any_float32 (farith32 fl Fsub (V_F32 a) (V_F32 b))) F32).
Definition f64Sub (a b : Value) : result Value :=
  Ok (ValueFrom (any_float64 (farith64 fl Fsub (V_F64 a) (V_F64 b))) F64).
Definition f32Mul (a b : Value) : result Value :=
  Ok (ValueFrom (any_float32 (farith32 fl Fmul (V_F32 a) (V_F32 b))) F32).
Definition f64Mul (a b : Value) : result Value :=
  Ok (ValueFrom (any_float64 (farith64 fl Fmul (V_F64 a) (V_F64 b))) F64).
Definition f32Div (a b : Value) : result Value :=
  Ok (ValueFrom (any_float32 (farith32 fl Fdiv (V_F32 a) (V_F32 b))) F32).
Definition f64Div (a b : Value) : result Value :=
  Ok (ValueFrom (any_float64 (farith64 fl Fdiv (V_F64 a) (V_F64 b))) F64).

Definition f32Min (a b : Value) : result Value :=
  let aF32 := V_F32 a in
  let bF32 := V_F32 b in
  if math_IsNaN fl (to64 aF32) || math_IsNaN fl (to64 bF32)
  then Ok (ValueFrom (any_float32 (to32 (math_NaN fl))) F32)
  else Ok (ValueFrom (any_float32 (to32 (math_Min fl (to64 aF32) (to64 bF32)))) F32).
Definition f64Min (a b : Value) : result Value :=
  let aF64 := V_F64 a in
  let bF64 := V_F64 b in
  if math_IsNaN fl aF64 || math_IsNaN fl bF64
  then Ok (ValueFrom (any_float64 (math_NaN fl)) F64)
  else Ok (ValueFrom (any_float64 (math_Min fl aF64 bF64)) F64).
Definition f32Max (a b : Value) : result Value :=
  let aF32 := V_F32 a in
  let bF32 := V_F32 b in
  if math_IsNaN fl (to64 aF32) || math_IsNaN fl (to64 bF32)
  then Ok (ValueFrom (any_float32 (to32 (math_NaN fl))) F32)
  else Ok (ValueFrom (any_float32 (to32 (math_Max fl (to64 aF32) (to64 bF32)))) F32).
Definition f64Max (a b : Value) : result Value :=
  let aF64 := V_F64 a in
  let bF64 := V_F64 b in
  if math_IsNaN fl aF64 || math_IsNaN fl bF64
  then Ok (ValueFrom (any_float64 (math_NaN fl)) F64)
  else Ok (ValueFrom (any_float64 (math_Max fl aF64 bF64)) F64).

(** [f32Copysign] hands the [float64] of [math.Copysign] to [ValueFrom]. *)
Definition f32Copysign (a b : Value) : result Value :=
  Ok (ValueFrom (any_float64 (math_Copysign fl (to64 (V_F32 a)) (to64 (V_F32 b)))) F32).
Definition f64Copysign (a b : Value) : result Value :=
  Ok (ValueFrom (any_float64 (math_Copysign fl (V_F64 a) (V_F64 b))) F64).

Definition f32Eq (a b : Value) : bool := fcmp32 fl Feq (V_F32 a) (V_F32 b).
Definition f64Eq (a b : Value) : bool := fcmp64 fl Feq (V_F64 a) (V_F64 b).
Definition f32Ne (a b : Value) : bool := fcmp32 fl Fne (V_F32 a) (V_F32 b).
Definition f64Ne (a b : Value) : bool := fcmp64 fl Fne (V_F64 a) (V_F64 b).
Definition f32Lt (a b : Value) : bool := fcmp32 fl Flt (V_F32 a) (V_F32 b).
Definition f64Lt (a b : Value) : bool := fcmp64 fl Flt (V_F64 a) (V_F64 b).
Definition f32Gt (a b : Value) : bool := fcmp32 fl Fgt (V_F32 a) (V_F32 b).
Definition f64Gt (a b : Value) : bool := fcmp64 fl Fgt (V_F64 a) (V_F64 b).
Definition f32Le (a b : Value) : bool := fcmp32 fl Fle (V_F32 a) (V_F32 b).
Definition f64Le (a b : Value) : bool := fcmp64 fl Fle (V_F64 a) (V_F64 b).
Definition f32Ge (a b : Value) : bool := fcmp32 fl Fge (V_F32 a) (V_F32 b).
Definition f64Ge (a b : Value) : bool := fcmp64 fl Fge (V_F64 a) (V_F64 b).
End FloatInstructions.

(* ================================================================== *)
(** ** instr_memory.go: the load and store functions

    A store function has no result: the error of the accessor it calls is
    dropped, and only a panic of the accessor comes back. *)

Definition drop_error (r : result unit) : result unit :=
  match r with
  | Err _ => Ok tt
  | r' => r'
  end.

Definition i32store (m : memInst) (addr align : Z) (v : Value) : result unit :=
  drop_error (store32 m addr align (uint32 (V_I32 v))).
Definition i64store (m : memInst) (addr align : Z) (v : Value) : result unit :=
  drop_error (store64 m addr align (uint64 (V_I64 v))).
Definition f32store (fl : floatOps) (m : memInst) (addr align : Z) (v : Value) : result unit :=
  drop_error (store32 m addr align (uint32_of_float32 fl (V_F32 v))).
Definition f64store (fl : floatOps) (m : memInst) (addr align : Z) (v : Value) : result unit :=
  drop_error (store64 m addr align (uint64_of_float64 fl (V_F64 v))).
Definition i32store8 (m : memInst) (addr align : Z) (v : Value) : result unit :=
  drop_error (store8 m addr align (uint8 (V_I32 v))).
Definition i32store16 (m : memInst) (addr align : Z) (v : Value) : result unit :=
  drop_error (store16 m addr align (uint16 (V_I32 v))).
Definition i64store8 (m : memInst) (addr align : Z) (v : Value) : result unit :=
  drop_error (store8 m addr align (uint8 (V_I64 v))).
Definition i64store16 (m : memInst) (addr align : Z) (v : Value) : result unit :=
  drop_error (store16 m addr align (uint16 (V_I64 v))).
Definition i64store32 (m : memInst) (addr align : Z) (v : Value) : result unit :=
  drop_error (store32 m addr align (uint32 (V_I64 v))).

(** A load function returns the value it builds next to the accessor's
    error; its caller looks at the error first. *)
Definition i32load (m : memInst) (addr align : Z) : result Value :=
  rbind (load32 m addr align) (fun v => Ok (ValueFromI32 (int32 v))).
Definition i64load (m : memInst) (addr align : Z) : result Value :=
  rbind (load64 m addr align) (fun v => Ok (ValueFromI64 (int64 v))).
Definition f32load (m : memInst) (addr align : Z) : result Value :=
  rbind (load32 m addr align) (fun v => Ok (ValueFrom (any_uint32 v) F32)).
Definition f64load (m : memInst) (addr align : Z) : result Value :=
  rbind (load64 m addr align) (fun v => Ok (ValueFrom (any_uint64 v) F64)).
Definition i32load8S (m : memInst) (addr align : Z) : result Value :=
  rbind (load8 m addr align) (fun v => Ok (ValueFromI32 (extendS8_32 (int32 v)))).
Definition i32load8U (m : memInst) (addr align : Z) : result Value :=
  rbind (load8 m addr align) (fun v => Ok (ValueFromI32 (int32 v))).
Definition i32load16S (m : memInst) (addr align : Z) : result Value :=
  rbind (load16 m addr align) (fun v => Ok (ValueFromI32 (extendS16_32 (int32 v)))).
Definition i32load16U (m : memInst) (addr align : Z) : result Value :=
  rbind (load16 m addr align) (fun v => Ok (ValueFromI32 (int32 v))).
Definition i64Load8S (m : memInst) (addr align : Z) : result Value :=
  rbind (load8 m addr align) (fun v => Ok (ValueFromI64 (extendS8_64 (int64 v)))).
Definition i64Load8U (m : memInst) (addr align : Z) : result Value :=
  rbind (load8 m addr align) (fun v => Ok (ValueFromI64 (int64 v))).
Definition i64load16S (m : memInst) (addr align : Z) : result Value :=
  rbind (load16 m addr align) (fun v => Ok (ValueFromI64 (extendS16_64 (int64 v)))).
Definition i64load16U (m : memInst) (addr align : Z) : result Value :=
  rbind (load16 m addr align) (fun v => Ok (ValueFromI64 (int64 v))).
Definition i64load32S (m : memInst) (addr align : Z) : result Value :=
  rbind (load32 m addr align) (fun v => Ok (ValueFromI64 (extendS32_64 (int64 v)))).
Definition i64load32U (m : memInst) (addr align : Z) : result Value :=
  rbind (load32 m addr align) (fun v => Ok (ValueFromI64 (int64 v))).

(* ================================================================== *)
(** ** Instructions (types.go, instr_*.go)

    An instruction is one of the Go structs that implement [instr]; the
    numeric and memory structs carry the function they apply, as in the
    source.  A nil interface value is [None]. *)

Inductive instr : Type :=
  | opUnreachable
  | opNop
  | opIf (b : block)
  | opLoop (b : block)
  | opBlock (b : block)
  | opElse
  | opEnd
  | opBr (level : Z)
  | opBrIf (level : Z)
  | opBrTable (labelIdxArr : list Z) (defaultIdx : Z)
  | opReturn
  | opCall
  | opCallIndirect
  | opLocalGet (localIdx : Z)
  | opLocalSet (localIdx : Z)
  | opLocalTee (localIdx : Z)
  | opGlobalGet (globalIdx : Z)
  | opGlobalSet (globalIdx : Z)
  | opUn (unOpFn : Value -> Value)
  | opBin (binFn : Value -> Value -> result Value)
  | opConst (val : Value)
  | opRel (relFn : Value -> Value -> bool)
  | opTest (testFn : Value -> bool)
  | opLoad (align offset : Z) (loadFn : memInst -> Z -> Z -> result Value)
  | opStore (offset align : Z) (storeFn : memInst -> Z -> Z -> Value -> result unit)
  | opMemorySize
  | opMemoryGrow
  | opMemoryCopy
  | opMemoryFill
  | opSelect
  | opDrop.

Definition expr : Type := list (option instr).

Record function : Type := {
  typeIdx : Z;
  f_locals : list locals;
  body : list (option instr)
}.

(* ================================================================== *)
(** ** instance.go: the run-time structures *)

Record externalVal : Type := { ev_kind : exportImportKind; ev_idx : Z }.
Record exportInst : Type := { ei_name : string; ei_value : externalVal }.

Record moduleInst : Type := {
  signatures : list funcType;
  funcAddrs : list Z;
  tableAddrs : list Z;
  memAddrs : list Z;
  globalAddrs : list Z;
  elemAddrs : list Z;
  dataAddrs : list Z;
  exports : list exportInst
}.

Definition defaultMemAddr (m : moduleInst) : result Z :=
  index (memAddrs m) DEFAULT_MEM_ADDR_IDX.

Inductive funcKind : Type := internalFunc | externalFunc.

(** The [module] pointer of an internal function is never read and is
    left out. *)
Record internalFuncInst : Type := { code : function }.

Record funcInst : Type := {
  fi_funcType : funcType;
  fi_kind : funcKind;
  fi_internalFunc : internalFuncInst
}.

Definition refKind : Type := Z.
Definition refExtern : refKind := 0.
Definition refFunc : refKind := 1.
Definition refNull : refKind := 3.
Record ref : Type := { r_addr : Z; r_kind : refKind }.
Definition zeroRef : ref := {| r_addr := 0; r_kind := 0 |}.
Definition ref_isNull (r : ref) : bool := r_addr r =? 0.

Record tableInst : Type := { ti_tableType : tableType; ti_elems : list ref }.
Record globalInst : Type := { gi_globalType : globalType; gi_value : Value }.
Record elemInst : Type := { ei_elemType : type_; ei_elem : list type_ }.
Record dataInst : Type := { di_data : list byte }.

(** interpreter.go *)
Record store : Type := {
  funcs : list funcInst;
  tables : list tableInst;
  mems : list memInst;
  globals : list globalInst;
  elems : list elemInst;
  datas : list dataInst
}.

(** instr_control.go *)
Inductive labelKind : Type := LabelKindIf | LabelKindLoop | LabelKindBlock.

Record label : Type := { l_kind : labelKind; startPc : Z; endPc : Z }.
Definition zeroLabel : label := {| l_kind := LabelKindIf; startPc := 0; endPc := 0 |}.

(** interpreter.go; [f_mod] is a pointer and may be nil. *)
Record frame : Type := {
  pc : Z;
  sp : Z;
  insts : list (option instr);
  labels : stack label;
  f_mod : option moduleInst
}.
Definition zeroFrame : frame :=
  {| pc := 0; sp := 0; insts := []; labels := []; f_mod := None |}.

(** What an [exec] receives by pointer: the two stacks and the store. *)
Record machine : Type := {
  frameStack : stack frame;
  valueStack : stack Value;
  store_ : store
}.

Definition M (A : Type) : Type := SE machine A.

(* ------------------------------------------------------------------ *)
(** *** Access through the pointers an [exec] holds *)

(** [frame, _ := frameStack.Top()]: the top frame, or a fresh zero frame. *)
Definition topFrame : M frame :=
  fun st =>
    match stack_Top zeroFrame (frameStack st) with
    | Ok (f, _) => (Ok f, st)
    | Err e => (Err e, st)
    | Panic p => (Panic p, st)
    | OutOfFuel => (OutOfFuel, st)
    end.

(** A write through the pointer [Top] returned: it lands in the top slot of
    the frame stack, or in the fresh zero frame when the stack is empty. *)
Definition updFrame (g : frame -> frame) : M unit :=
  fun st =>
    match frameStack st with
    | [] => (Ok tt, st)
    | _ =>
      let i := Z.to_nat (stack_Len (frameStack st) - 1) in
      (Ok tt, {| frameStack := alter g i (frameStack st);
                 valueStack := valueStack st;
                 store_ := store_ st |})
    end.

Definition set_pc (v : Z) (f : frame) : frame :=
  {| pc := v; sp := sp f; insts := insts f; labels := labels f; f_mod := f_mod f |}.
Definition set_labels (ls : stack label) (f : frame) : frame :=
  {| pc := pc f; sp := sp f; insts := insts f; labels := ls; f_mod := f_mod f |}.

(** [frame.NextStep()] *)
Definition NextStep : M unit := updFrame (fun f => set_pc (int (pc f + 1)) f).

Definition popValue : M Value :=
  fun st =>
    let '(v, _, s') := stack_Pop zeroValue (valueStack st) in
    (Ok v, {| frameStack := frameStack st; valueStack := s'; store_ := store_ st |}).

Definition pushValue (v : Value) : M unit :=
  fun st =>
    (Ok tt, {| frameStack := frameStack st;
               valueStack := stack_Push (valueStack st) v;
               store_ := store_ st |}).

Definition popFrame : M unit :=
  fun st =>
    let '(_, _, s') := stack_Pop zeroFrame (frameStack st) in
    (Ok tt, {| frameStack := s'; valueStack := valueStack st; store_ := store_ st |}).

Definition frameMod (f : frame) : M moduleInst :=
  match f_mod f with
  | Some m => ret m
  | None => crash NilDereference
  end.

(** [mem := store.mems[frame.mod.defaultMemAddr()]]: a copy of the struct,
    whose [data] slice still shares the array of the store's. *)
Definition defaultMem (f : frame) : M (Z * memInst) :=
  let* m := frameMod f in
  let* a := lift (defaultMemAddr m) in
  let* st := get in
  let* mem := lift (index (mems (store_ st)) a) in
  ret (a, mem).

(** A write into the array behind memory [a]'s [data]. *)
Definition write_mem_array (a : Z) (bs : list byte) : M unit :=
  fun st =>
    let s := store_ st in
    (Ok tt,
     {| frameStack := frameStack st;
        valueStack := valueStack st;
        store_ := {| funcs := funcs s; tables := tables s;
                     mems := alter (fun m => {| m_memType := m_memType m; m_data := bs |})
                                   (Z.to_nat a) (mems s);
                     globals := globals s; elems := elems s; datas := datas s |} |}).

(* ------------------------------------------------------------------ *)
(** *** instr_control.go *)

(** The scans switch on the dynamic type of each instruction; a Go [case]
    without a body does nothing and does not fall through. *)
Fixpoint nextEndAddr_scan (l : list (option instr)) (pc depth : Z) : result Z :=
  match l with
  | [] => Err (Errorf "no end instruction found")
  | i :: tl =>
    match i with
    | Some (opIf _) => nextEndAddr_scan tl (pc + 1) depth
    | Some (opLoop _) => nextEndAddr_scan tl (pc + 1) depth
    | Some (opBlock _) => nextEndAddr_scan tl (pc + 1) (depth + 1)
    | Some opEnd =>
      if depth =? 0 then Ok pc else nextEndAddr_scan tl (pc + 1) (depth - 1)
    | _ => nextEndAddr_scan tl (pc + 1) depth
    end
  end.

Definition nextEndAddr (pc : Z) (insts : list (option instr)) : result Z :=
  if pc <? 0 then Panic IndexOutOfRange
  else nextEndAddr_scan (drop (Z.to_nat pc) insts) pc 0.

Fixpoint nextElseOrEndAddr_scan (l : list (option instr)) (pc depth : Z) : result Z :=
  match l with
  | [] => Err (Errorf "no else or end instruction found after instr if")
  | i :: tl =>
    match i with
    | Some (opIf _) => nextElseOrEndAddr_scan tl (pc + 1) (depth + 1)
    | Some opElse =>
      if depth =? 0 then Ok pc else nextElseOrEndAddr_scan tl (pc + 1) depth
    | Some opEnd =>
      if depth =? 0 then Ok pc else nextElseOrEndAddr_scan tl (pc + 1) (depth - 1)
    | _ => nextElseOrEndAddr_scan tl (pc + 1) depth
    end
  end.

Definition nextElseOrEndAddr (pc : Z) (insts : list (option instr)) : result Z :=
  if pc <? 0 then Panic IndexOutOfRange
  else nextElseOrEndAddr_scan (drop (Z.to_nat pc) insts) pc 0.

Definition opUnreachable_exec : M unit := fail (Errorf "unreachable").

Definition opNop_exec : M unit := ret tt.

Definition pushLabel (l : label) : M unit :=
  updFrame (fun f => set_labels (stack_Push (labels f) l) f).

(** [label, ok := frame.labels.Pop()] *)
Definition popLabel : M (label * bool) :=
  let* f := topFrame in
  let '(l, ok, ls) := stack_Pop zeroLabel (labels f) in
  do updFrame (set_labels ls) then
  ret (l, ok).

Definition opIf_exec (b : block) : M unit :=
  let* cond := popValue in
  let* frame := topFrame in
  let* nextPc := lift (nextEndAddr (pc frame + 1) (insts frame)) in
  let* c := lift (V_Bool cond) in
  do (if negb c
      then
        (* condition is false, skip the if block *)
        let* addr := lift (nextElseOrEndAddr (pc frame + 1) (insts frame)) in
        updFrame (set_pc addr)
      else ret tt) then
  let* frame' := topFrame in
  pushLabel {| l_kind := LabelKindIf; startPc := pc frame'; endPc := nextPc |}.

Definition opLoop_exec (b : block) : M unit :=
  let* frame := topFrame in
  let* nextPc := lift (nextEndAddr (pc frame + 1) (insts frame)) in
  pushLabel {| l_kind := LabelKindLoop; startPc := pc frame; endPc := nextPc |}.

Definition opBlock_exec (b : block) : M unit :=
  let* frame := topFrame in
  let* nextPc := lift (nextEndAddr (pc frame + 1) (insts frame)) in
  do pushLabel {| l_kind := LabelKindBlock; startPc := pc frame; endPc := nextPc |} then
  NextStep.

Definition opElse_exec : M unit :=
  let* '(label, ok) := popLabel in
  if negb ok then fail (Errorf "no label found when else instr")
  else updFrame (set_pc (endPc label)).

Definition opEnd_exec : M unit :=
  let* '(label, ok) := popLabel in
  if negb ok then
    (* end func *)
    popFrame
  else
    (* end label *)
    updFrame (set_pc (endPc label)).

Definition br (labels : stack label) (level : Z) : result Z :=
  rbind (stack_Peek zeroLabel labels level) (fun '(label, ok) =>
  if negb ok then Err (Errorf ("no label found level: " +:+ pretty level))
  else
    let nextPc :=
      match l_kind label with
      | LabelKindLoop => (* jump start of loop *) startPc label
      | _ => endPc label
      end in
    Ok nextPc).

(** [frame.pc, err = br(...)]: the pc is assigned on the error path too,
    with the zero [br] returns next to its error. *)
Definition branch (level : Z) : M unit :=
  let* frame := topFrame in
  match br (labels frame) level with
  | Ok nextPc => updFrame (set_pc nextPc)
  | Err e => do updFrame (set_pc 0) then fail e
  | Panic p => crash p
  | OutOfFuel => lift OutOfFuel
  end.

Definition opBr_exec (level : Z) : M unit := branch (int level).

Definition opBrIf_exec (level : Z) : M unit :=
  let* cond := popValue in
  let* c := lift (V_Bool cond) in
  if c then branch (int level) else NextStep.

Definition opBrTable_exec (labelIdxArr : list Z) (defaultIdx : Z) : M unit :=
  let* idxValue := popValue in
  let idx := int (V_I32 idxValue) in
  let* level :=
    (if idx <? len labelIdxArr then lift (index labelIdxArr idx) else ret defaultIdx) in
  branch level.

Definition opReturn_exec : M unit := ret tt.
Definition opCall_exec : M unit := ret tt.
Definition opCallIndirect_exec : M unit := ret tt.

(* ------------------------------------------------------------------ *)
(** *** instr_variable.go and the parametric instructions *)

Definition getValueStack : M (stack Value) :=
  fun st => (Ok (valueStack st), st).
Definition putValueStack (s : stack Value) : M unit :=
  fun st => (Ok tt, {| frameStack := frameStack st; valueStack := s; store_ := store_ st |}).

Definition opLocalGet_exec (localIdx : Z) : M unit :=
  let* frame := topFrame in
  let* vs := getValueStack in
  let* v := lift (stack_Get vs (sp frame) localIdx) in
  match v with
  | None => fail (Errorf ("local variable[" +:+ pretty localIdx +:+ "] not found"))
  | Some v' =>
    do pushValue v' then
    NextStep
  end.

Definition opLocalSet_exec (localIdx : Z) : M unit :=
  let* frame := topFrame in
  let* v := popValue in
  let* vs := getValueStack in
  let* vs' := lift (stack_Set vs (sp frame) localIdx v) in
  do putValueStack vs' then
  NextStep.

Definition opLocalTee_exec (localIdx : Z) : M unit :=
  let* frame := topFrame in
  let* vs := getValueStack in
  let* '(v, _) := lift (stack_Top zeroValue vs) in
  let* vs' := lift (stack_Set vs (sp frame) localIdx v) in
  do putValueStack vs' then
  NextStep.

(** [global := store.globals[globalAddr]]: a copy of the struct. *)
Definition lookupGlobal (f : frame) (globalIdx : Z) : M globalInst :=
  let* m := frameMod f in
  let* globalAddr := lift (index (globalAddrs m) globalIdx) in
  let* st := get in
  lift (index (globals (store_ st)) globalAddr).

Definition opGlobalGet_exec (globalIdx : Z) : M unit :=
  let* frame := topFrame in
  let* global := lookupGlobal frame globalIdx in
  do pushValue (gi_value global) then
  NextStep.

Definition opGlobalSet_exec (globalIdx : Z) : M unit :=
  let* frame := topFrame in
  let* global := lookupGlobal frame globalIdx in
  if type_eqb (mut (gi_globalType global)) const_
  then fail (Errorf ("global[" +:+ pretty globalIdx +:+ "] is a const value"))
  else
    let* vs := getValueStack in
    let* '(v, _) := lift (stack_Top zeroValue vs) in
    if negb (type_eqb (valueType (gi_globalType global)) (ValType v))
    then fail (Errorf ("global[" +:+ pretty globalIdx +:+ "] and value types do not match "))
    else
      (* global.value = *v : the assignment is to the local copy *)
      let _global := {| gi_globalType := gi_globalType global; gi_value := v |} in
      NextStep.

Definition opSelect_exec : M unit :=
  let* c := popValue in
  let* v1 := popValue in
  let* v2 := popValue in
  do (if V_I32 c =? 0 then pushValue v1 else pushValue v2) then
  NextStep.

Definition opDrop_exec : M unit :=
  let* _ := popValue in
  NextStep.

(* ------------------------------------------------------------------ *)
(** *** instr_numeric.go: the exec methods *)

Definition opUn_exec (unOpFn : Value -> Value) : M unit :=
  let* v := popValue in
  do pushValue (unOpFn v) then
  NextStep.

Definition opBin_exec (binFn : Value -> Value -> result Value) : M unit :=
  let* a := popValue in
  let* b := popValue in
  let* r := lift (binFn a b) in
  do pushValue r then
  NextStep.

Definition opConst_exec (val : Value) : M unit :=
  do pushValue val then
  NextStep.

Definition opRel_exec (relFn : Value -> Value -> bool) : M unit :=
  let* a := popValue in
  let* b := popValue in
  do pushValue (numericBool (relFn a b)) then
  NextStep.

Definition opTest_exec (testFn : Value -> bool) : M unit :=
  let* v := popValue in
  do pushValue (numericBool (testFn v)) then
  NextStep.

(* ------------------------------------------------------------------ *)
(** *** instr_memory.go: the exec methods *)

Definition opStore_exec (offset align : Z)
    (storeFn : memInst -> Z -> Z -> Value -> result unit) : M unit :=
  let* frame := topFrame in
  let* '(_, mem) := defaultMem frame in
  let* value := popValue in
  let addr := int32 (V_I32 value + offset) in
  do lift (storeFn mem addr align value) then
  NextStep.

Definition opLoad_exec (align offset : Z)
    (loadFn : memInst -> Z -> Z -> result Value) : M unit :=
  let* frame := topFrame in
  let* '(_, mem) := defaultMem frame in
  let* baseAddr := popValue in
  let baseAddrI32 := V_I32 baseAddr in
  if (baseAddrI32 <? 0) || (offset <? 0) then fail errOutOfBounds
  else
    let addr := int32 (baseAddrI32 + offset) in
    let* value := lift (loadFn mem addr align) in
    do pushValue value then
    NextStep.

Definition opMemorySize_exec : M unit :=
  let* frame := topFrame in
  let* '(_, mem) := defaultMem frame in
  do pushValue (ValueFrom (any_int32 (int32 (memInst_size mem))) I32) then
  NextStep.

(** [mem.grow] assigns the [data] field of the local copy [mem]; the
    store's instance keeps its slice. *)
Definition opMemoryGrow_exec : M unit :=
  let* frame := topFrame in
  let* '(_, mem) := defaultMem frame in
  let* v := popValue in
  let currentPages := memInst_pages mem in
  let pagesWant := int (V_I32 v) in
  do (match memInst_grow mem pagesWant with
      | Err _ => pushValue (ValueFrom (any_int (-1)) I32)
      | Ok _mem => pushValue (ValueFrom (any_int currentPages) I32)
      | Panic p => crash p
      | OutOfFuel => lift OutOfFuel
      end) then
  NextStep.

(** [copy] writes through the slice into the array the store's instance
    shares. *)
Definition opMemoryCopy_exec : M unit :=
  let* len_ := popValue in
  let* src := popValue in
  let* dst := popValue in
  let* frame := topFrame in
  let* '(a, mem) := defaultMem frame in
  let* d := lift (slice_from (m_data mem) (V_I32 dst)) in
  let* s := lift (slice_range (m_data mem) (V_I32 src) (int32 (V_I32 src + V_I32 len_))) in
  do write_mem_array a (take (Z.to_nat (V_I32 dst)) (m_data mem) ++ copy_slice d s) then
  NextStep.

Definition opMemoryFill_exec : M unit := ret tt.

(* ------------------------------------------------------------------ *)
(** *** Dispatch *)

Definition exec (i : instr) : M unit :=
  match i with
  | opUnreachable => opUnreachable_exec
  | opNop => opNop_exec
  | opIf b => opIf_exec b
  | opLoop b => opLoop_exec b
  | opBlock b => opBlock_exec b
  | opElse => opElse_exec
  | opEnd => opEnd_exec
  | opBr level => opBr_exec level
  | opBrIf level => opBrIf_exec level
  | opBrTable arr d => opBrTable_exec arr d
  | opReturn => opReturn_exec
  | opCall => opCall_exec
  | opCallIndirect => opCallIndirect_exec
  | opLocalGet i => opLocalGet_exec i
  | opLocalSet i => opLocalSet_exec i
  | opLocalTee i => opLocalTee_exec i
  | opGlobalGet i => opGlobalGet_exec i
  | opGlobalSet i => opGlobalSet_exec i
  | opUn f => opUn_exec f
  | opBin f => opBin_exec f
  | opConst v => opConst_exec v
  | opRel f => opRel_exec f
  | opTest f => opTest_exec f
  | opLoad align offset f => opLoad_exec align offset f
  | opStore offset align f => opStore_exec offset align f
  | opMemorySize => opMemorySize_exec
  | opMemoryGrow => opMemoryGrow_exec
  | opMemoryCopy => opMemoryCopy_exec
  | opMemoryFill => opMemoryFill_exec
  | opSelect => opSelect_exec
  | opDrop => opDrop_exec
  end.

(** A method call on a nil interface value panics. *)
Definition exec_interface (i : option instr) : M unit :=
  match i with
  | Some i' => exec i'
  | None => crash NilDereference
  end.

(** One turn of the loop of [Execute], the frame stack not being empty. *)
Definition step : M unit :=
  let* frame := topFrame in
  let* instr := lift (index (insts frame) (pc frame)) in
  exec_interface instr.

(** interpreter.go: [Execute].  The loop has no bound of its own; [fuel]
    counts its turns. *)
Fixpoint Execute (fuel : nat) : M unit :=
  fun st =>
    if stack_isEmpty (frameStack st) then (Ok tt, st)
    else
      match fuel with
      | O => (OutOfFuel, st)
      | S fuel' =>
        match step st with
        | (Ok _, st') => Execute fuel' st'
        | r => r
        end
      end.

(* ================================================================== *)
(** ** reader.go *)

Record leb128Reader : Type := { bytes : list byte; pos : Z }.

Definition P (A : Type) : Type := SE leb128Reader A.

Definition set_pos (p : Z) : P unit :=
  fun r => (Ok tt, {| bytes := bytes r; pos := p |}).

Definition eatBytes (length : Z) : P (list byte) :=
  let* r := get in
  let end_ := pos r + int length in
  if len (bytes r) <? end_ then fail EOF
  else
    let* bs := lift (slice_range (bytes r) (pos r) (pos r + int length)) in
    do set_pos (pos r + int length) then
    ret bs.

Definition eatString (length : Z) : P string :=
  let* b := eatBytes length in
  ret (string_of_list_byte b).

Definition eatU8 : P Z :=
  let* r := get in
  if len (bytes r) <=? pos r then fail EOF
  else
    do set_pos (pos r + 1) then
    let* b := lift (index (bytes r) (pos r + 1 - 1)) in
    ret (byte_to_Z b).

(** The decoding loops run until a byte without the continuation bit or
    the end of the input; [fuel] bounds the turns. *)
Fixpoint eatU64_loop (fuel : nat) (v shift : Z) : P Z :=
  match fuel with
  | O => lift OutOfFuel
  | S fuel' =>
    let* u8 := eatU8 in
    let v' := Z.lor v (shlu64 (Z.land (uint64 u8) 0x7F) shift) in
    let shift' := shift + 7 in
    if Z.shiftr (Z.land u8 0x80) 7 =? 0 then ret v'
    else eatU64_loop fuel' v' shift'
  end.

Definition eatU64 : P Z :=
  fun r => eatU64_loop (S (length (bytes r))) 0 0 r.

Fixpoint eatI64_loop (fuel : nat) (v shift : Z) : P Z :=
  match fuel with
  | O => lift OutOfFuel
  | S fuel' =>
    let* u8 := eatU8 in
    let v' := Z.lor v (shl64 (Z.land (int64 u8) 0x7F) shift) in
    let shift' := shift + 7 in
    if Z.shiftr (Z.land u8 0x80) 7 =? 0 then
      if negb (Z.shiftr (Z.land u8 0x40) 3 =? 0) then
        (* negative number *)
        ret (Z.lor v' (shl64 (Z.lnot 0) shift'))
      else ret v'
    else eatI64_loop fuel' v' shift'
  end.

Definition eatI64 : P Z :=
  fun r => eatI64_loop (S (length (bytes r))) 0 0 r.

Definition eatI32 : P Z :=
  let* v := eatI64 in
  ret (int32 v).

Definition eatU32 : P Z :=
  let* v := eatU64 in
  ret (uint32 v).

(* ================================================================== *)
(** ** types.go: the decoded module *)

Record custom : Type := { c_name : string; c_data : list byte }.
Record table : Type := { t_tableType : tableType }.
Record mem : Type := { mem_memType : memType }.
Record global : Type := { g_type_ : globalType; initExpr : expr }.
Record data_ : Type := { memIdx : Z; d_offset : expr; d_init : list byte }.
Record elem : Type := { tableIdx : Z; e_offset : expr; e_init : list Z }.
Record importDesc : Type := {
  id_typeIdx : Z;
  id_table : table;
  id_mem : mem;
  id_global : globalType
}.
Record import_ : Type := {
  i_module : string;
  i_name : string;
  i_kind : exportImportKind;
  i_importDesc : importDesc
}.
Record export : Type := { e_name : string; e_kind : exportImportKind; e_idx : Z }.
Record start : Type := { funcIdx : Z }.

Record module : Type := {
  m_custom : custom;
  m_types : list funcType;
  m_funcs : list function;
  m_tables : list table;
  m_mems : list mem;
  m_globals : list global;
  m_elems : list elem;
  m_datas : list data_;
  m_start : start;
  m_imports : list import_;
  m_exports : list export
}.

Definition zeroLimits : limits := {| Min := 0; Max := 0 |}.
Definition zeroTable : table :=
  {| t_tableType := {| tt_limits := zeroLimits; elemType := x00 |} |}.
Definition zeroMem : mem := {| mem_memType := {| mt_limits := zeroLimits |} |}.
Definition zeroGlobalType : globalType := {| valueType := x00; mut := x00 |}.
Definition zeroImportDesc : importDesc :=
  {| id_typeIdx := 0; id_table := zeroTable; id_mem := zeroMem; id_global := zeroGlobalType |}.
Definition zeroFunction : function := {| typeIdx := 0; f_locals := []; body := [] |}.

(** [module{}] *)
Definition zeroModule : module :=
  {| m_custom := {| c_name := ""; c_data := [] |};
     m_types := []; m_funcs := []; m_tables := []; m_mems := [];
     m_globals := []; m_elems := []; m_datas := [];
     m_start := {| funcIdx := 0 |}; m_imports := []; m_exports := [] |}.

(* ================================================================== *)
(** ** parser.go *)

Definition WASM_MAGIC : Z := 0x6d736100.

(** [for i := uint32(0); i < count; i++] around a body that fills slot [i]
    of a slice made with [count] slots. *)
Fixpoint repeatP {A} (n : nat) (body : P A) : P (list A) :=
  match n with
  | O => ret []
  | S n' =>
    let* a := body in
    let* tl := repeatP n' body in
    ret (a :: tl)
  end.

Definition vecP {A} (count : Z) (body : P A) : P (list A) :=
  repeatP (Z.to_nat count) body.

Definition le_word (bs : list byte) : P Z :=
  let* b0 := lift (index bs 0) in
  let* b1 := lift (index bs 1) in
  let* b2 := lift (index bs 2) in
  let* b3 := lift (index bs 3) in
  ret (Z.lor (Z.lor (Z.lor (uint32 (byte_to_Z b0)) (shlu32 (uint32 (byte_to_Z b1)) 8))
                    (shlu32 (uint32 (byte_to_Z b2)) 16))
             (shlu32 (uint32 (byte_to_Z b3)) 24)).

Definition header : P (Z * Z) :=
  let* magicBytes := eatBytes 4 in
  let* magic := le_word magicBytes in
  let* versionBytes := eatBytes 4 in
  let* version := le_word versionBytes in
  ret (magic, version).

Definition sectionHeader : P (Z * Z) :=
  let* sidU8 := eatU8 in
  let* length := eatU32 in
  ret (sidU8, length).

Definition name : P string :=
  let* length := eatU32 in
  eatString length.

Definition customSection (length : Z) : P custom :=
  let* n := name in
  let* d := eatBytes (uint32 (length - uint32 (len (list_byte_of_string n) + 4))) in
  ret {| c_name := n; c_data := d |}.

(** The [%x] verb on a byte. *)
Definition hex_digit (d : Z) : string :=
  String.substring (Z.to_nat d) 1 "0123456789abcdef".
Definition fmt_x (z : Z) : string :=
  if z <? 16 then hex_digit z else hex_digit (z / 16) +:+ hex_digit (z mod 16).

Definition typeSection : P (list funcType) :=
  let* count_ := eatU32 in
  vecP count_
    (let* ft := eatU8 in
     if negb (0x60 =? ft)
     then fail (Errorf ("invalid func type " +:+ fmt_x ft))
     else
       (* param types *)
       let* paramsCount := eatU32 in
       let* ps := vecP paramsCount (let* valType := eatU8 in ret (byte_of_Z valType)) in
       (* result types *)
       let* resultsCount := eatU32 in
       let* rs := vecP resultsCount (let* valType := eatU8 in ret (byte_of_Z valType)) in
       ret {| params := ps; results := rs |}).

Definition funcSection : P (list function) :=
  let* count_ := eatU32 in
  vecP count_
    (let* idx := eatU32 in
     ret {| typeIdx := idx; f_locals := []; body := [] |}).

Definition parse_limits : P limits :=
  let* flag := eatU32 in
  let* min := eatU32 in
  if flag =? 0 then
    (* -1 means there is no maximum value *)
    ret {| Min := min; Max := -1 |}
  else
    let* max := eatU32 in
    ret {| Min := min; Max := int32 max |}.

Definition parse_table : P table :=
  let* et := eatU8 in
  let* l := parse_limits in
  ret {| t_tableType := {| tt_limits := l; elemType := byte_of_Z et |} |}.

Definition tableSection : P (list table) :=
  let* count_ := eatU32 in
  vecP count_ parse_table.

Definition parse_memory : P mem :=
  let* l := parse_limits in
  ret {| mem_memType := {| mt_limits := l |} |}.

Definition memorySection : P (list mem) :=
  let* count_ := eatU32 in
  vecP count_ parse_memory.

Definition parse_globalType : P globalType :=
  let* vt := eatU8 in
  let* m := eatU8 in
  ret {| valueType := byte_of_Z vt; mut := byte_of_Z m |}.

Definition eatBlock : P block :=
  let* bt := eatU8 in
  if bt =? 0x40 then ret {| blockType_ := blockTypeEmpty; b_valType := [] |}
  else ret {| blockType_ := blockTypeValue; b_valType := [byte_of_Z bt] |}.

(** eat align and offset two i32 values *)
Definition memoryArgs : P (Z * Z) :=
  let* align := eatI32 in
  let* offset := eatI32 in
  ret (align, offset).

Definition parse_load (loadFn : memInst -> Z -> Z -> result Value) : P (option instr * bool) :=
  let* '(align, offset) := memoryArgs in
  ret (Some (opLoad align offset loadFn), false).

Definition parse_store (storeFn : memInst -> Z -> Z -> Value -> result unit)
  : P (option instr * bool) :=
  let* '(align, offset) := memoryArgs in
  ret (Some (opStore offset align storeFn), false).

Definition plain (i : instr) : P (option instr * bool) := ret (Some i, false).

(** A [case] without a body leaves the result [i] nil. *)
Definition stub : P (option instr * bool) := ret (None, false).

Section Parser.
Variable fl : floatOps.

(** [parser.instr]: the instruction, nil or not, and whether it is [end]. *)
Definition parse_instr : P (option instr * bool) :=
  let* op := eatU8 in
  match byte_of_Z op with
  | x00 => plain opUnreachable
  | x01 => plain opNop
  | x02 => let* b := eatBlock in plain (opBlock b)
  | x03 => let* b := eatBlock in plain (opLoop b)
  | x04 => let* b := eatBlock in plain (opIf b)
  | x05 => plain opElse
  | x0b => ret (Some opEnd, true)
  | x0c => stub
  | x0d => stub
  | x0e => stub
  | x20 => let* idx := eatU32 in plain (opLocalGet (int idx))
  | x21 => let* idx := eatU32 in plain (opLocalSet (int idx))
  | x22 => stub
  | x23 => stub
  | x24 => stub
  | x10 => stub
  | x11 => stub
  | x41 => let* v := eatI32 in plain (opConst (ValueFromI32 v))
  | x45 => plain (opTest i32Eqz)
  | x46 => plain (opRel i32Eq)
  | x47 => plain (opRel i32Ne)
  | x48 => plain (opRel i32LtS)
  | x49 => plain (opRel i32LtU)
  | x4a => plain (opRel i32GtS)
  | x4b => plain (opRel i32GtU)
  | x4c => plain (opRel i32LeS)
  | x4d => plain (opRel i32LeU)
  | x4e => plain (opRel i32GeS)
  | x4f => plain (opRel i32GeU)
  | x6a => plain (opBin i32Add)
  | x6b => plain (opBin i32Sub)
  | x6c => plain (opBin i32Mul)
  | x67 => plain (opUn i32Clz)
  | x68 => plain (opUn i32Ctz)
  | x69 => plain (opUn i32Popcnt)
  | x6d => plain (opBin i32DivS)
  | x6e => plain (opBin i32DivU)
  | x6f => plain (opBin i32RemS)
  | x70 => plain (opBin i32RemU)
  | x71 => plain (opBin i32And)
  | x72 => plain (opBin i32Or)
  | x73 => plain (opBin i32Xor)
  | x74 => plain (opBin i32Shl)
  | x75 => plain (opBin i32ShrS)
  | x76 => plain (opBin i32ShrU)
  | x77 => plain (opBin i32RotL)
  | x78 => plain (opBin i32RotR)
  | xc0 => plain (opUn i32Extend8S)
  | xc1 => plain (opUn i32Extend16S)
  | x42 => let* v := eatI64 in plain (opConst (ValueFromI64 v))
  | x50 => plain (opTest i64Eqz)
  | x51 => plain (opRel i64Eq)
  | x52 => plain (opRel i64Ne)
  | x53 => plain (opRel i64LtS)
  | x54 => plain (opRel i64LtU)
  | x55 => plain (opRel i64GtS)
  | x56 => plain (opRel i64GtU)
  | x57 => plain (opRel i64LeS)
  | x58 => plain (opRel i64LeU)
  | x59 => plain (opRel i64GeS)
  | x5a => plain (opRel i64GeU)
  | x79 => plain (opUn i64Clz)
  | x7a => plain (opUn i64Ctz)
  | x7b => plain (opUn i64Popcnt)
  | x7c => plain (opBin i64Add)
  | x7d => plain (opBin i64Sub)
  | x7e => plain (opBin i64Mul)
  | x7f => plain (opBin i64DivS)
  | x80 => plain (opBin i64DivU)
  | x81 => plain (opBin i64RemS)
  | x82 => plain (opBin i64RemU)
  | x83 => plain (opBin i64And)
  | x84 => plain (opBin i64Or)
  | x85 => plain (opBin i64Xor)
  | x86 => plain (opBin i64Shl)
  | x87 => plain (opBin i64ShrS)
  | x88 => plain (opBin i64ShrU)
  | x89 => plain (opBin i64RotL)
  | x8a => plain (opBin i64RotR)
  | xc2 => plain (opUn i64Extend8S)
  | xc3 => plain (opUn i64Extend16S)
  | xc4 => plain (opUn i64Extend32S)
  | x43 => stub
  | x44 => stub
  | x5b => plain (opRel (f32Eq fl))
  | x5c => plain (opRel (f32Ne fl))
  | x5d => plain (opRel (f32Lt fl))
  | x5e => plain (opRel (f32Gt fl))
  | x5f => plain (opRel (f32Le fl))
  | x60 => plain (opRel (f32Ge fl))
  | x8b => plain (opUn (f32Abs fl))
  | x8c => plain (opUn (f32Neg fl))
  | x8d => plain (opUn (f32Ceil fl))
  | x8e => plain (opUn (f32Floor fl))
  | x8f => plain (opUn (f32Trunc fl))
  | x90 => plain (opUn (f32Nearest fl))
  | x91 => plain (opUn (f32Sqrt fl))
  | x92 => plain (opBin (f32Add fl))
  | x93 => plain (opBin (f32Sub fl))
  | x94 => plain (opBin (f32Mul fl))
  | x95 => plain (opBin (f32Div fl))
  | x96 => plain (opBin (f32Min fl))
  | x97 => plain (opBin (f32Max fl))
  | x99 => plain (opUn (f64Abs fl))
  | x9a => plain (opUn (f64Neg fl))
  | x9b => plain (opUn (f64Ceil fl))
  | x9c => plain (opUn (f64Floor fl))
  | x9d => plain (opUn (f64Trunc fl))
  | x9e => plain (opUn (f64Nearest fl))
  | x9f => plain (opUn (f64Sqrt fl))
  | xa0 => plain (opBin (f64Add fl))
  | xa1 => plain (opBin (f64Sub fl))
  | xa2 => plain (opBin (f64Mul fl))
  | xa3 => plain (opBin (f64Div fl))
  | xa4 => plain (opBin (f64Min fl))
  | xa5 => plain (opBin (f64Max fl))
  | xa6 => plain (opBin (f64Copysign fl))
  | xa7 => stub
  | x61 => plain (opRel (f64Eq fl))
  | x62 => plain (opRel (f64Ne fl))
  | x63 => plain (opRel (f64Lt fl))
  | x64 => plain (opRel (f64Gt fl))
  | x65 => plain (opRel (f64Le fl))
  | x66 => plain (opRel (f64Ge fl))
  | x98 => plain (opBin (f32Copysign fl))
  | x0f => plain opReturn
  | x28 => parse_load i32load
  | x29 => parse_load i64load
  | x2a => parse_load f32load
  | x2b => parse_load f64load
  | x2c => parse_load i32load8S
  | x2d => parse_load i32load8U
  | x2e => parse_load i32load16S
  | x2f => parse_load i32load16U
  | x30 => parse_load i64Load8S
  | x31 => parse_load i64Load8U
  | x32 => parse_load i64load16S
  | x33 => parse_load i64load16U
  | x34 => parse_load i64load32S
  | x35 => parse_load i64load32U
  | x36 => parse_store i32store
  | x37 => parse_store i64store
  | x38 => parse_store (f32store fl)
  | x39 => parse_store (f64store fl)
  | x3a => parse_store i32store8
  | x3b => parse_store i32store16
  | x3c => parse_store i64store8
  | x3d => parse_store i64store16
  | x3e => parse_store i64store32
  | x3f => plain opMemorySize
  | x40 => plain opMemoryGrow
  | xfc =>
    let* kind := eatU8 in
    if kind =? 10 then
      (* 0xFC 10:U32 0x00 0x00 *)
      let* _ := attempt eatU32 in
      let* _ := attempt eatU32 in
      plain opMemoryCopy
    else if kind =? 11 then
      (* 0xFC 11:U32 0x00 *)
      let* _ := attempt eatU32 in
      plain opMemoryFill
    else fail (Errorf ("unknown memory copy or fill kind: " +:+ pretty kind))
  | x1b => plain opSelect
  | x1a => plain opDrop
  | xa8 | xa9 | xaa | xab | xac | xad | xae | xaf
  | xb0 | xb1 | xb2 | xb3 | xb4 | xb5 | xb6 | xb7
  | xb8 | xb9 | xba | xbb | xbc | xbd | xbe | xbf => stub
  | _ => ret (None, false)
  end.

(** [parser.expr]; every turn of its loop eats at least one byte. *)
Fixpoint expr_loop (fuel : nat) (e : expr) : P expr :=
  match fuel with
  | O => lift OutOfFuel
  | S fuel' =>
    let* '(instr, isEnd) := parse_instr in
    let e' := e ++ [instr] in
    if isEnd then ret e' else expr_loop fuel' e'
  end.

Definition parse_expr : P expr :=
  fun r => expr_loop (S (length (bytes r))) [] r.

Definition globalSection : P (list global) :=
  let* count_ := eatU32 in
  vecP count_
    (let* t := parse_globalType in
     let* e := parse_expr in
     ret {| g_type_ := t; initExpr := e |}).

(** elem ::= { table tableidx, offset expr, init vec(funcidx) } *)
Definition elemSection : P (list elem) :=
  let* count_ := eatU32 in
  vecP count_
    (let* tableIdx_ := eatU32 in
     let* offset := parse_expr in
     let* funcIdxCount := eatU32 in
     let* init := vecP funcIdxCount eatU32 in
     ret {| tableIdx := tableIdx_; e_offset := offset; e_init := init |}).

(** data ::= {data memidx, offset expr, init vec(byte)} *)
Definition dataSection : P (list data_) :=
  let* count_ := eatU32 in
  vecP count_
    (let* memIdx_ := eatU32 in
     let* offset := parse_expr in
     let* initCount := eatU32 in
     let* init := eatBytes initCount in
     ret {| memIdx := memIdx_; d_offset := offset; d_init := init |}).

Definition importSection : P (list import_) :=
  let* count_ := eatU32 in
  vecP count_
    (let* module_ := name in
     let* name_ := name in
     let* kind := eatU8 in
     let* desc :=
       (match byte_of_Z kind with
        | x00 =>
          let* t := eatU32 in
          ret {| id_typeIdx := t; id_table := zeroTable; id_mem := zeroMem;
                 id_global := zeroGlobalType |}
        | x01 =>
          let* t := parse_table in
          ret {| id_typeIdx := 0; id_table := t; id_mem := zeroMem;
                 id_global := zeroGlobalType |}
        | x02 =>
          let* m := parse_memory in
          ret {| id_typeIdx := 0; id_table := zeroTable; id_mem := m;
                 id_global := zeroGlobalType |}
        | x03 =>
          let* g := parse_globalType in
          ret {| id_typeIdx := 0; id_table := zeroTable; id_mem := zeroMem;
                 id_global := g |}
        | _ => ret zeroImportDesc
        end) in
     ret {| i_module := module_; i_name := name_; i_kind := byte_of_Z kind;
            i_importDesc := desc |}).

Definition exportSection : P (list export) :=
  let* count_ := eatU32 in
  vecP count_
    (let* name_ := name in
     let* kind := eatU8 in
     let* idx := eatU32 in
     ret {| e_name := name_; e_kind := byte_of_Z kind; e_idx := idx |}).

Definition startSection : P start :=
  let* s := eatU32 in
  ret {| funcIdx := s |}.

Definition zeroLocals : locals := {| count := 0; valType := x00 |}.

(** The loops of [codeSection] write into the slots of [fs], the slice
    the module holds, and leave through [return nil] when the input ends
    inside the locals of a function: the flag tells that exit from the
    end of the loop. *)
Fixpoint locals_loop (n : nat) (j : nat) (ls : list locals) : P (list locals * bool) :=
  match n with
  | O => ret (ls, false)
  | S n' =>
    let* typeCount := attempt eatU32 in
    match typeCount with
    | None => ret (ls, true)
    | Some tc =>
      let ls1 := alter (fun l => {| count := tc; valType := valType l |}) j ls in
      let* valType_ := attempt eatU8 in
      match valType_ with
      | None => ret (ls1, true)
      | Some vt =>
        let ls2 := alter (fun l => {| count := count l; valType := byte_of_Z vt |}) j ls1 in
        locals_loop n' (S j) ls2
      end
    end
  end.

Fixpoint code_loop (n : nat) (i : nat) (fs : list function) : P (list function * bool) :=
  match n with
  | O => ret (fs, false)
  | S n' =>
    (* func size *)
    let* _ := eatU32 in
    let* localsCount := attempt eatU32 in
    match localsCount with
    | None => ret (fs, true)
    | Some lc =>
      let* '(ls, early) :=
        locals_loop (Z.to_nat lc) 0 (replicate (Z.to_nat lc) zeroLocals) in
      let fs1 :=
        alter (fun f => {| typeIdx := typeIdx f; f_locals := ls; body := body f |}) i fs in
      if (early : bool) then ret (fs1, true)
      else
        let* b := parse_expr in
        code_loop n' (S i)
          (alter (fun f => {| typeIdx := typeIdx f; f_locals := f_locals f; body := b |})
                 i fs1)
    end
  end.

Definition codeSection (fs : list function) : P (list function) :=
  let* count_ := eatU32 in
  if negb (count_ =? uint32 (len fs))
  then fail (Errorf ("function count mismatch: codeLen(" +:+ pretty count_ +:+
                     ") != funcLen(" +:+ pretty (len fs) +:+ ")"))
  else
    let* '(fs', _) := code_loop (Z.to_nat count_) 0 fs in
    ret fs'.

Definition parse_section (sid length : Z) (m : module) : P module :=
  match byte_of_Z sid with
  | x00 =>
    let* c := customSection length in
    ret {| m_custom := c; m_types := m_types m; m_funcs := m_funcs m;
           m_tables := m_tables m; m_mems := m_mems m; m_globals := m_globals m;
           m_elems := m_elems m; m_datas := m_datas m; m_start := m_start m;
           m_imports := m_imports m; m_exports := m_exports m |}
  | x01 =>
    let* t := typeSection in
    ret {| m_custom := m_custom m; m_types := t; m_funcs := m_funcs m;
           m_tables := m_tables m; m_mems := m_mems m; m_globals := m_globals m;
           m_elems := m_elems m; m_datas := m_datas m; m_start := m_start m;
           m_imports := m_imports m; m_exports := m_exports m |}
  | x02 =>
    let* i := importSection in
    ret {| m_custom := m_custom m; m_types := m_types m; m_funcs := m_funcs m;
           m_tables := m_tables m; m_mems := m_mems m; m_globals := m_globals m;
           m_elems := m_elems m; m_datas := m_datas m; m_start := m_start m;
           m_imports := i; m_exports := m_exports m |}
  | x03 =>
    let* f := funcSection in
    ret {| m_custom := m_custom m; m_types := m_types m; m_funcs := f;
           m_tables := m_tables m; m_mems := m_mems m; m_globals := m_globals m;
           m_elems := m_elems m; m_datas := m_datas m; m_start := m_start m;
           m_imports := m_imports m; m_exports := m_exports m |}
  | x04 =>
    let* t := tableSection in
    ret {| m_custom := m_custom m; m_types := m_types m; m_funcs := m_funcs m;
           m_tables := t; m_mems := m_mems m; m_globals := m_globals m;
           m_elems := m_elems m; m_datas := m_datas m; m_start := m_start m;
           m_imports := m_imports m; m_exports := m_exports m |}
  | x05 =>
    let* ms := memorySection in
    ret {| m_custom := m_custom m; m_types := m_types m; m_funcs := m_funcs m;
           m_tables := m_tables m; m_mems := ms; m_globals := m_globals m;
           m_elems := m_elems m; m_datas := m_datas m; m_start := m_start m;
           m_imports := m_imports m; m_exports := m_exports m |}
  | x06 =>
    let* g := globalSection in
    ret {| m_custom := m_custom m; m_types := m_types m; m_funcs := m_funcs m;
           m_tables := m_tables m; m_mems := m_mems m; m_globals := g;
           m_elems := m_elems m; m_datas := m_datas m; m_start := m_start m;
           m_imports := m_imports m; m_exports := m_exports m |}
  | x07 =>
    let* e := exportSection in
    ret {| m_custom := m_custom m; m_types := m_types m; m_funcs := m_funcs m;
           m_tables := m_tables m; m_mems := m_mems m; m_globals := m_globals m;
           m_elems := m_elems m; m_datas := m_datas m; m_start := m_start m;
           m_imports := m_imports m; m_exports := e |}
  | x08 =>
    let* s := startSection in
    ret {| m_custom := m_custom m; m_types := m_types m; m_funcs := m_funcs m;
           m_tables := m_tables m; m_mems := m_mems m; m_globals := m_globals m;
           m_elems := m_elems m; m_datas := m_datas m; m_start := s;
           m_imports := m_imports m; m_exports := m_exports m |}
  | x09 =>
    let* e := elemSection in
    ret {| m_custom := m_custom m; m_types := m_types m; m_funcs := m_funcs m;
           m_tables := m_tables m; m_mems := m_mems m; m_globals := m_globals m;
           m_elems := e; m_datas := m_datas m; m_start := m_start m;
           m_imports := m_imports m; m_exports := m_exports m |}
  | x0a =>
    let* f := codeSection (m_funcs m) in
    ret {| m_custom := m_custom m; m_types := m_types m; m_funcs := f;
           m_tables := m_tables m; m_mems := m_mems m; m_globals := m_globals m;
           m_elems := m_elems m; m_datas := m_datas m; m_start := m_start m;
           m_imports := m_imports m; m_exports := m_exports m |}
  | x0b =>
    let* d := dataSection in
    ret {| m_custom := m_custom m; m_types := m_types m; m_funcs := m_funcs m;
           m_tables := m_tables m; m_mems := m_mems m; m_globals := m_globals m;
           m_elems := m_elems m; m_datas := d; m_start := m_start m;
           m_imports := m_imports m; m_exports := m_exports m |}
  | _ => ret m
  end.

(** The section loop of [parse]: it ends at the first section header the
    input is too short for, and every turn eats at least one byte. *)
Fixpoint parse_loop (fuel : nat) (m : module) : P module :=
  match fuel with
  | O => lift OutOfFuel
  | S fuel' =>
    let* h := try sectionHeader in
    match h with
    | Err EOF => ret m
    | Err e => fail e
    | Panic p => crash p
    | OutOfFuel => lift OutOfFuel
    | Ok (sid, length) =>
      let* m' := parse_section sid length m in
      parse_loop fuel' m'
    end
  end.

Definition parse : P module :=
  let m := zeroModule in
  let* '(magic, version) := header in
  if negb (magic =? WASM_MAGIC) || negb (version =? 1) then fail errInvalidWASMBinary
  else fun r => parse_loop (S (length (bytes r))) m r.

Definition newParser (bs : list byte) : leb128Reader := {| bytes := bs; pos := 0 |}.
End Parser.

(* ================================================================== *)
(** ** interpreter.go: instantiation *)

Record Interpreter : Type := {
  i_frameStack : stack frame;
  i_valueStack : stack Value;
  i_store : store;
  i_mod : moduleInst
}.

Definition zeroModuleInst : moduleInst :=
  {| signatures := []; funcAddrs := []; tableAddrs := []; memAddrs := [];
     globalAddrs := []; elemAddrs := []; dataAddrs := []; exports := [] |}.
Definition zeroStore : store :=
  {| funcs := []; tables := []; mems := []; globals := []; elems := []; datas := [] |}.

(** [Interpreter{}] *)
Definition zeroInterpreter : Interpreter :=
  {| i_frameStack := []; i_valueStack := []; i_store := zeroStore; i_mod := zeroModuleInst |}.

(** What [newStoreAndModuleInst] works on: the caller's value stack, which
    it holds by pointer, and the store and module instance it builds. *)
Record builder : Type := {
  b_valueStack : stack Value;
  b_store : store;
  b_modInst : moduleInst
}.

Definition B (A : Type) : Type := SE builder A.

Definition upd_store (g : store -> store) : B unit :=
  fun b => (Ok tt, {| b_valueStack := b_valueStack b; b_store := g (b_store b);
                      b_modInst := b_modInst b |}).
Definition upd_modInst (g : moduleInst -> moduleInst) : B unit :=
  fun b => (Ok tt, {| b_valueStack := b_valueStack b; b_store := b_store b;
                      b_modInst := g (b_modInst b) |}).

Fixpoint exec_each (e : expr) : M unit :=
  match e with
  | [] => ret tt
  | i :: tl =>
    do exec_interface i then
    exec_each tl
  end.

(** The closure [eval]: every instruction of the expression runs once, in
    order, against a mock frame on a frame stack of its own. *)
Definition eval (e : expr) : B Value :=
  fun b =>
    let mock := {| pc := 0; sp := stack_Len (b_valueStack b); insts := [];
                   labels := []; f_mod := Some (b_modInst b) |} in
    let st0 := {| frameStack := stack_Push [] mock;
                  valueStack := b_valueStack b;
                  store_ := b_store b |} in
    let '(r, st1) := exec_each e st0 in
    let back vs := {| b_valueStack := vs; b_store := store_ st1;
                      b_modInst := b_modInst b |} in
    match r with
    | Ok _ =>
      let '(v, _, vs) := stack_Pop zeroValue (valueStack st1) in
      (Ok v, back vs)
    | Err e => (Err e, back (valueStack st1))
    | Panic p => (Panic p, back (valueStack st1))
    | OutOfFuel => (OutOfFuel, back (valueStack st1))
    end.

(** [for i, x := range l] *)
Fixpoint range_ {S A} (l : list A) (i : Z) (body : Z -> A -> SE S unit) : SE S unit :=
  match l with
  | [] => ret tt
  | x :: tl =>
    do body i x then
    range_ tl (i + 1) body
  end.

Definition make_refs (n : Z) : result (list ref) :=
  if n <? 0 then Panic MakeLenOutOfRange else Ok (replicate (Z.to_nat n) zeroRef).

(** The inner loop over the element segments of one table: the slice
    [elems] it grows and fills. *)
Fixpoint table_elems (es : list elem) (elems_ : list ref) : B (list ref) :=
  match es with
  | [] => ret elems_
  | e :: tl =>
    let* r := try (eval (e_offset e)) in
    let offsetVal := match r with Ok v => v | _ => zeroValue end in
    let offset := int (V_I32 offsetVal) in
    let* _ := lift r in
    let* elems1 :=
      (if len elems_ <=? offset + len (e_init e) then
         let* fresh := lift (make_refs (offset + len (e_init e))) in
         ret (copy_slice fresh elems_)
       else ret elems_) in
    let* elems2 :=
      (fix fill (init : list Z) (i : Z) (acc : list ref) : B (list ref) :=
         match init with
         | [] => ret acc
         | funcIdx_ :: rest =>
           let* acc' := lift (set_index acc (i + offset)
                                {| r_addr := int funcIdx_; r_kind := refFunc |}) in
           fill rest (i + 1) acc'
         end) (e_init e) 0 elems1 in
    table_elems tl elems2
  end.

Definition newStoreAndModuleInst (m : module) : B unit :=
  do range_ (m_globals m) 0 (fun i g =>
       let* gv := eval (initExpr g) in
       do upd_modInst (fun mi =>
            {| signatures := signatures mi; funcAddrs := funcAddrs mi;
               tableAddrs := tableAddrs mi; memAddrs := memAddrs mi;
               globalAddrs := globalAddrs mi ++ [uint32 i];
               elemAddrs := elemAddrs mi; dataAddrs := dataAddrs mi;
               exports := exports mi |}) then
       upd_store (fun s =>
            {| funcs := funcs s; tables := tables s; mems := mems s;
               globals := globals s ++ [{| gi_globalType := g_type_ g; gi_value := gv |}];
               elems := elems s; datas := datas s |})) then
  do range_ (m_funcs m) 0 (fun i f =>
       do upd_modInst (fun mi =>
            {| signatures := signatures mi; funcAddrs := funcAddrs mi ++ [uint32 i];
               tableAddrs := tableAddrs mi; memAddrs := memAddrs mi;
               globalAddrs := globalAddrs mi;
               elemAddrs := elemAddrs mi; dataAddrs := dataAddrs mi;
               exports := exports mi |}) then
       let* ft := lift (index (m_types m) (typeIdx f)) in
       upd_store (fun s =>
            {| funcs := funcs s ++ [{| fi_funcType := ft; fi_kind := internalFunc;
                                       fi_internalFunc := {| code := f |} |}];
               tables := tables s; mems := mems s; globals := globals s;
               elems := elems s; datas := datas s |})) then
  do range_ (m_mems m) 0 (fun i mem_ =>
       let min := uint32 (Min (mt_limits (mem_memType mem_)) * uint32 PAGE_SIZE) in
       do upd_modInst (fun mi =>
            {| signatures := signatures mi; funcAddrs := funcAddrs mi;
               tableAddrs := tableAddrs mi; memAddrs := memAddrs mi ++ [uint32 i];
               globalAddrs := globalAddrs mi;
               elemAddrs := elemAddrs mi; dataAddrs := dataAddrs mi;
               exports := exports mi |}) then
       let* d := lift (make_bytes min) in
       upd_store (fun s =>
            {| funcs := funcs s; tables := tables s;
               mems := mems s ++ [{| m_memType := {| mt_limits := mt_limits (mem_memType mem_) |};
                                     m_data := d |}];
               globals := globals s; elems := elems s; datas := datas s |})) then
  do range_ (m_elems m) 0 (fun i _ =>
       upd_modInst (fun mi =>
            {| signatures := signatures mi; funcAddrs := funcAddrs mi;
               tableAddrs := tableAddrs mi; memAddrs := memAddrs mi;
               globalAddrs := globalAddrs mi;
               elemAddrs := elemAddrs mi ++ [uint32 i]; dataAddrs := dataAddrs mi;
               exports := exports mi |})) then
  do range_ (m_tables m) 0 (fun i tab =>
       let* elems0 := lift (make_refs (Min (tt_limits (t_tableType tab)))) in
       do upd_modInst (fun mi =>
            {| signatures := signatures mi; funcAddrs := funcAddrs mi;
               tableAddrs := tableAddrs mi ++ [uint32 i]; memAddrs := memAddrs mi;
               globalAddrs := globalAddrs mi;
               elemAddrs := elemAddrs mi; dataAddrs := dataAddrs mi;
               exports := exports mi |}) then
       let* elems_ := table_elems (m_elems m) elems0 in
       upd_store (fun s =>
            {| funcs := funcs s;
               tables := tables s ++
                 [{| ti_tableType := {| tt_limits := tt_limits (t_tableType tab);
                                        elemType := elemType (t_tableType tab) |};
                     ti_elems := elems_ |}];
               mems := mems s; globals := globals s;
               elems := elems s; datas := datas s |})) then
  do range_ (m_datas m) 0 (fun i d =>
       do upd_modInst (fun mi =>
            {| signatures := signatures mi; funcAddrs := funcAddrs mi;
               tableAddrs := tableAddrs mi; memAddrs := memAddrs mi;
               globalAddrs := globalAddrs mi;
               elemAddrs := elemAddrs mi; dataAddrs := dataAddrs mi ++ [uint32 i];
               exports := exports mi |}) then
       let* offsetVal := eval (d_offset d) in
       let offset := int (V_I32 offsetVal) in
       let* b := get in
       let* mem_ := lift (index (mems (b_store b)) (memIdx d)) in
       if len (m_data mem_) <? offset + len (d_init d)
       then fail (Errorf "data is too large to fit in memory")
       else
         let* tail := lift (slice_from (m_data mem_) offset) in
         upd_store (fun s =>
            {| funcs := funcs s; tables := tables s;
               mems := alter (fun mm =>
                                {| m_memType := m_memType mm;
                                   m_data := take (Z.to_nat offset) (m_data mem_) ++
                                             copy_slice tail (d_init d) |})
                             (Z.to_nat (memIdx d)) (mems s);
               globals := globals s; elems := elems s; datas := datas s |})) then
  do range_ (m_exports m) 0 (fun _ ex =>
       upd_modInst (fun mi =>
            {| signatures := signatures mi; funcAddrs := funcAddrs mi;
               tableAddrs := tableAddrs mi; memAddrs := memAddrs mi;
               globalAddrs := globalAddrs mi;
               elemAddrs := elemAddrs mi; dataAddrs := dataAddrs mi;
               exports := exports mi ++
                 [{| ei_name := e_name ex;
                     ei_value := {| ev_kind := e_kind ex; ev_idx := uint32 (e_idx ex) |} |}] |})) then
  upd_modInst (fun mi =>
       {| signatures := m_types m; funcAddrs := funcAddrs mi;
          tableAddrs := tableAddrs mi; memAddrs := memAddrs mi;
          globalAddrs := globalAddrs mi;
          elemAddrs := elemAddrs mi; dataAddrs := dataAddrs mi;
          exports := exports mi |}).

Definition NewInterpreter (fl : floatOps) (bs : list byte) : result Interpreter :=
  let p := newParser bs in
  let '(r, _) := parse fl p in
  let i := zeroInterpreter in
  rbind r (fun m =>
  let '(r', b) := newStoreAndModuleInst m
                    {| b_valueStack := i_valueStack i; b_store := zeroStore;
                       b_modInst := zeroModuleInst |} in
  rbind r' (fun _ =>
  Ok {| i_frameStack := i_frameStack i; i_valueStack := b_valueStack b;
        i_store := b_store b; i_mod := b_modInst b |})).

(** The export scan of [GetFunc]: the index of the first export of that
    name, [-1] without one. *)
Fixpoint find_export (es : list exportInst) (fnName : string) : result Z :=
  match es with
  | [] => Ok (-1)
  | ex :: tl =>
    if String.eqb (ei_name ex) fnName then
      if negb (type_eqb (ev_kind (ei_value ex)) exportImportKindFunc)
      then Err (Errorf (fnName +:+ " not a func"))
      else Ok (int (ev_idx (ei_value ex)))
    else find_export tl fnName
  end.

(** [GetFunc] up to the closure it returns: the function the closure
    captures. *)
Definition GetFunc (i : Interpreter) (fnName : string) : result funcInst :=
  rbind (find_export (exports (i_mod i)) fnName) (fun fnIdx =>
  if fnIdx <? 0 then Err (Errorf ("can't find " +:+ fnName +:+ " func"))
  else
    rbind (index (funcAddrs (i_mod i)) fnIdx) (fun fnAddr =>
    index (funcs (i_store i)) fnAddr)).

Fixpoint pop_results (n : nat) (vs : stack Value) : list Value * stack Value :=
  match n with
  | O => ([], vs)
  | S n' =>
    let '(v, _, vs') := stack_Pop zeroValue vs in
    let '(rest, vs'') := pop_results n' vs' in
    (v :: rest, vs'')
  end.

(** The closure [GetFunc] returns, for the captured [fn]. *)
Definition invoke (fuel : nat) (fn : funcInst) (args : list Value)
  : SE Interpreter (list Value) :=
  fun i =>
    let fr := {| pc := 0; sp := stack_Len (i_valueStack i);
                 insts := body (code (fi_internalFunc fn));
                 labels := []; f_mod := Some (i_mod i) |} in
    let st0 := {| frameStack := stack_Push (i_frameStack i) fr;
                  valueStack := fold_left stack_Push (rev args) (i_valueStack i);
                  store_ := i_store i |} in
    let '(r, st1) := Execute fuel st0 in
    match r with
    | Ok _ =>
      let '(res, vs) := pop_results (length (results (fi_funcType fn))) (valueStack st1) in
      (Ok res, {| i_frameStack := frameStack st1; i_valueStack := vs;
                  i_store := store_ st1; i_mod := i_mod i |})
    | Err e =>
      (* cleanup valueStack and frameStack *)
      (Err e, {| i_frameStack := []; i_valueStack := [];
                 i_store := store_ st1; i_mod := i_mod i |})
    | Panic p =>
      (Panic p, {| i_frameStack := frameStack st1; i_valueStack := valueStack st1;
                   i_store := store_ st1; i_mod := i_mod i |})
    | OutOfFuel =>
      (OutOfFuel, {| i_frameStack := frameStack st1; i_valueStack := valueStack st1;
                     i_store := store_ st1; i_mod := i_mod i |})
    end.

(* ================================================================== *)
(** * Specification-side definitions and test inputs *)

(** An integer width as the operands carry it: [mk] builds the operand
    that holds an integer, [rd] reads an operand, [lo] is the least integer
    of the width and [hi] the first one above it.  Reading what was built
    gives the integer back, and every operand reads as an integer of the
    width. *)
Definition carries (lo hi : Z) (mk : Z -> Value) (rd : Value -> Z) : Prop :=
  (forall z, lo <= z < hi -> rd (mk z) = z) /\
  (forall v, lo <= rd v < hi).

(** [f] looks at its operands through [rd] alone. *)
Definition reads_through (rd : Value -> Z) (mk : Z -> Value)
    (f : Value -> Value -> result Value) : Prop :=
  forall a b : Value, f a b = f (mk (rd a)) (mk (rd b)).

(** The contract of the four division functions of one integer width, on
    the operands that hold the integers [a] and [b], [b] being the
    divisor: [unsigned] reads an integer of the width as unsigned. *)
Definition div_contract (lo hi : Z) (mk : Z -> Value) (unsigned : Z -> Z)
    (divS divU remS remU mul add : Value -> Value -> result Value) : Prop :=
  forall a b : Z,
    lo <= a < hi -> lo <= b < hi ->
    (b = 0 ->
     divS (mk a) (mk b) = Err errIntegerDivideByZero /\
     divU (mk a) (mk b) = Err errIntegerDivideByZero /\
     remS (mk a) (mk b) = Err errIntegerDivideByZero /\
     remU (mk a) (mk b) = Err errIntegerDivideByZero) /\
    (b <> 0 ->
     divU (mk a) (mk b) = Ok (mk (unsigned a / unsigned b)) /\
     remU (mk a) (mk b) = Ok (mk (unsigned a mod unsigned b)) /\
     remS (mk a) (mk b) = Ok (mk (Z.rem a b))) /\
    (a = lo -> b = -1 ->
     divS (mk a) (mk b) = Err errIntegerOverflow /\
     remS (mk a) (mk b) = Ok (mk 0)) /\
    (b <> 0 -> ~ (a = lo /\ b = -1) ->
     divS (mk a) (mk b) = Ok (mk (Z.quot a b)) /\
     lo <= Z.quot a b < hi /\
     Z.quot a b * b + Z.rem a b = a /\
     exists p,
       mul (mk (Z.quot a b)) (mk b) = Ok p /\
       add p (mk (Z.rem a b)) = Ok (mk a)).

(** The shift functions of one width [w], on the operands that hold the
    integers [a] and [b]: the amount is [b] reduced modulo [w]. *)
Definition shifts_masked (w lo hi : Z) (mk : Z -> Value) (wrap_s unsigned : Z -> Z)
    (shl shr_s shr_u : Value -> Value -> result Value) : Prop :=
  forall a b : Z,
    lo <= a < hi -> lo <= b < hi ->
    let n := b mod w in
    shl (mk a) (mk b) = Ok (mk (wrap_s (a * 2 ^ n))) /\
    shr_s (mk a) (mk b) = Ok (mk (a / 2 ^ n)) /\
    shr_u (mk a) (mk b) = Ok (mk (unsigned a / 2 ^ n)).

(** What a numeric instruction does to the operand stack [vs] and returns,
    [r] being the outcome of its function. *)
Definition pushes_outcome (r : result Value) (vs : stack Value)
    (out : result unit * machine) : Prop :=
  match r with
  | Ok v => fst out = Ok tt /\ valueStack (snd out) = vs ++ [v]
  | Err e => fst out = Err e /\ valueStack (snd out) = vs
  | Panic p => fst out = Panic p /\ valueStack (snd out) = vs
  | OutOfFuel => fst out = OutOfFuel /\ valueStack (snd out) = vs
  end.

(** The binary of a module with one function, exported as "f", that takes
    [nparams] parameters of type i32, returns one result of the type with
    the tag [rt], has no locals and the body [body], to which the closing
    [end] is added. *)
Definition module_with_body (nparams : nat) (rt : byte) (body : list byte) : list byte :=
  [x00; x61; x73; x6d; x01; x00; x00; x00] ++
  [x01; byte_of_Z (5 + Z.of_nat nparams); x01; x60; byte_of_Z (Z.of_nat nparams)] ++
  replicate nparams x7f ++ [x01; rt] ++
  [x03; x02; x01; x00] ++
  [x07; x05; x01; x01; x66; x00; x00] ++
  [x0a; byte_of_Z (len body + 4); x01; byte_of_Z (len body + 2); x00] ++ body ++ [x0b].

(** The binary of
    [(module (func (export "shl") (param i32 i32) (result i32)
       local.get 0 local.get 1 i32.shl))]. *)
Definition shl_module : list byte :=
  [x00; x61; x73; x6d; x01; x00; x00; x00;
   x01; x07; x01; x60; x02; x7f; x7f; x01; x7f;
   x03; x02; x01; x00;
   x07; x07; x01; x03; x73; x68; x6c; x00; x00;
   x0a; x09; x01; x07; x00; x20; x00; x20; x01; x74; x0b].

(** [NewInterpreter], [GetFunc] and one call of the closure. *)
Definition call_export (fl : floatOps) (bs : list byte) (fnName : string)
    (args : list Value) (fuel : nat) : result (list Value) :=
  rbind (NewInterpreter fl bs) (fun i =>
  rbind (GetFunc i fnName) (fun fn =>
  fst (invoke fuel fn args i))).

(** The call of "f" in the module [module_with_body] builds around a
    body. *)
Definition run_body (fl : floatOps) (rt : byte) (body : list byte)
    (args : list Value) (fuel : nat) : result (list Value) :=
  call_export fl (module_with_body (length args) rt body) "f" args fuel.

Definition read_i32s (r : result (list Value)) : result (list Z) :=
  rbind r (fun vs => Ok (map V_I32 vs)).

(** *** LEB128 as the specification words it *)

(** The low 7 bits of a byte, and its high bit. *)
Definition low7 (b : byte) : Z := byte_to_Z b mod 128.
Definition continues (b : byte) : bool := Z.testbit (byte_to_Z b) 7.
Definition bit6 (b : byte) : bool := Z.testbit (byte_to_Z b) 6.

(** Unsigned: the low 7 bits of each byte, concatenated little-endian by
    group, up to and including the first byte with a clear high bit; also
    the number of bytes taken.  [None] when the bytes end before one. *)
Fixpoint uleb (bs : list byte) : option (Z * nat) :=
  match bs with
  | [] => None
  | b :: tl =>
    if continues b then
      match uleb tl with
      | Some (v, n) => Some (low7 b + 128 * v, S n)
      | None => None
      end
    else Some (low7 b, 1%nat)
  end.

(** Signed: the same, except that a terminating byte with bit 6 set has
    all the bits above its group filled with ones. *)
Fixpoint sleb (bs : list byte) : option (Z * nat) :=
  match bs with
  | [] => None
  | b :: tl =>
    if continues b then
      match sleb tl with
      | Some (v, n) => Some (low7 b + 128 * v, S n)
      | None => None
      end
    else Some (if bit6 b then Z.lor (low7 b) (Z.shiftl (-1) 7) else low7 b, 1%nat)
  end.

(** [eat] decodes as [spec] says, the result cut to the width by [wrap],
    and fails with EOF exactly when every byte left asks for another. *)
Definition leb_decodes (eat : P Z) (spec : list byte -> option (Z * nat))
    (wrap : Z -> Z) : Prop :=
  forall r : leb128Reader,
    0 <= pos r ->
    let rest := drop (Z.to_nat (pos r)) (bytes r) in
    match spec rest with
    | Some (v, n) =>
      eat r = (Ok (wrap v), {| bytes := bytes r; pos := pos r + Z.of_nat n |})
    | None => fst (eat r) = Err EOF
    end /\
    (fst (eat r) = Err EOF <-> Forall (fun b => continues b = true) rest).

(** *** Machines to run single instructions on *)

(** A module instance with one memory and one global. *)
Definition test_mod : moduleInst :=
  {| signatures := []; funcAddrs := []; tableAddrs := []; memAddrs := [0];
     globalAddrs := [0]; elemAddrs := []; dataAddrs := []; exports := [] |}.

(** A memory of [min] zeroed pages with the limit [max], as instantiation
    allocates it. *)
Definition test_mem (min max : Z) : memInst :=
  {| m_memType := {| mt_limits := {| Min := min; Max := max |} |};
     m_data := replicate (Z.to_nat (min * PAGE_SIZE)) x00 |}.

Definition test_global (t : type_) (m : mutability) (v : Value) : globalInst :=
  {| gi_globalType := {| valueType := t; mut := m |}; gi_value := v |}.

Definition test_store (m : memInst) (g : globalInst) : store :=
  {| funcs := []; tables := []; mems := [m]; globals := [g]; elems := []; datas := [] |}.

(** One frame over [code] at [pc0] with the label stack [ls], the operand
    stack [vs] and the store [s]. *)
Definition test_machine (code : list (option instr)) (pc0 : Z) (ls : stack label)
    (vs : stack Value) (s : store) : machine :=
  {| frameStack := [{| pc := pc0; sp := 0; insts := code; labels := ls;
                       f_mod := Some test_mod |}];
     valueStack := vs;
     store_ := s |}.

Definition plain_store : store :=
  test_store (test_mem 1 (-1)) (test_global I32 var_ (ValueFromI32 0)).

(** The operand stack read as i32, bottom first. *)
Definition stack_i32s (st : machine) : list Z := map V_I32 (valueStack st).

(** The pc and the labels of the top frame. *)
Definition top_pc (st : machine) : option Z := pc <$> last (frameStack st).
Definition top_labels (st : machine) : option (stack label) := labels <$> last (frameStack st).

(** Runs [prog] one instruction after the other, stopping at the first that does not
    return nil. *)
Fixpoint exec_seq (prog : list instr) : M unit :=
  match prog with
  | [] => ret tt
  | i :: tl =>
    let* _ := exec i in
    exec_seq tl
  end.

(** An [M] computation that leaves the store as it found it, whatever it
    returns. *)
Definition keeps_store {A} (m : M A) : Prop :=
  forall st, store_ (snd (m st)) = store_ st.

(** An [M] computation that never returns an error. *)
Definition never_errs {A} (m : M A) : Prop :=
  forall st e, fst (m st) <> Err e.

(** The store functions of instr_memory.go. *)
Definition store_fns (fl : floatOps) : list (memInst -> Z -> Z -> Value -> result unit) :=
  [i32store; i64store; f32store fl; f64store fl; i32store8; i32store16;
   i64store8; i64store16; i64store32].

(** The binary of
    [(module (memory 1)
       (func (export "f") (param i32) (result i32)
         i32.const 0 i32.const 0x01020304 i32.store
         local.get 0 i32.load8_u))]. *)
Definition store_module : list byte :=
  [x00; x61; x73; x6d; x01; x00; x00; x00;
   x01; x06; x01; x60; x01; x7f; x01; x7f;
   x03; x02; x01; x00;
   x05; x03; x01; x00; x01;
   x07; x05; x01; x01; x66; x00; x00;
   x0a; x13; x01; x11; x00;
   x41; x00; x41; x84; x86; x88; x08; x36; x02; x00;
   x20; x00; x2d; x00; x00; x0b].

(** The binary of
    [(module (memory 1)
       (func (export "grow") (param i32) (result i32) local.get 0 memory.grow)
       (func (export "size") (result i32) memory.size))]. *)
Definition grow_module : list byte :=
  [x00; x61; x73; x6d; x01; x00; x00; x00;
   x01; x0a; x02; x60; x01; x7f; x01; x7f; x60; x00; x01; x7f;
   x03; x03; x02; x00; x01;
   x05; x03; x01; x00; x01;
   x07; x0f; x02; x04; x67; x72; x6f; x77; x00; x00;
                  x04; x73; x69; x7a; x65; x00; x01;
   x0a; x0d; x02; x06; x00; x20; x00; x40; x00; x0b;
                  x04; x00; x3f; x00; x0b].

(** The binary of [(module (func (export "f") nop))]. *)
Definition nop_module : list byte :=
  [x00; x61; x73; x6d; x01; x00; x00; x00;
   x01; x04; x01; x60; x00; x00;
   x03; x02; x01; x00;
   x07; x05; x01; x01; x66; x00; x00;
   x0a; x05; x01; x03; x00; x01; x0b].

(** The label stack [ls] once every label at depth [L] or less is gone. *)
Definition labels_popped (ls : stack label) (L : Z) : stack label :=
  take (length ls - Z.to_nat (L + 1)) ls.

(** The pcs at which the loop of [Execute] fetches an instruction, turn
    after turn, for [fuel] turns at most. *)
Fixpoint fetched_pcs (fuel : nat) (st : machine) : list Z :=
  match fuel with
  | O => []
  | S fuel' =>
    match last (frameStack st) with
    | None => []
    | Some f =>
      pc f :: match step st with
              | (Ok _, st') => fetched_pcs fuel' st'
              | _ => []
              end
    end
  end.

(** [block block br 1 end i32.const 7 end i32.const 9 end], the last [end]
    closing the function. *)
Definition empty_block : block := {| blockType_ := blockTypeEmpty; b_valType := [] |}.
Definition nested_blocks : list (option instr) :=
  [Some (opBlock empty_block); Some (opBlock empty_block); Some (opBr 1); Some opEnd;
   Some (opConst (ValueFromI32 7)); Some opEnd; Some (opConst (ValueFromI32 9)); Some opEnd].

(** Where a branch to [l] resumes. *)
Definition branch_target (l : label) : Z :=
  match l_kind l with
  | LabelKindLoop => startPc l
  | _ => endPc l
  end.

(** The opcodes whose [case] in [parser.instr] has no body. *)
Definition stub_opcodes : list byte :=
  [x0c; x0d; x0e; x22; x23; x24; x10; x11; x43; x44; xa7;
   xa8; xa9; xaa; xab; xac; xad; xae; xaf;
   xb0; xb1; xb2; xb3; xb4; xb5; xb6; xb7;
   xb8; xb9; xba; xbb; xbc; xbd; xbe; xbf].

(** The binary of a module whose one function, exported as "f", has the
    body [op end]. *)
Definition stub_module (op : byte) : list byte :=
  [x00; x61; x73; x6d; x01; x00; x00; x00;
   x01; x04; x01; x60; x00; x00;
   x03; x02; x01; x00;
   x07; x05; x01; x01; x66; x00; x00;
   x0a; x05; x01; x03; x00; op; x0b].

(** What decoding and running a stub opcode comes to. *)
Definition stub_decodes (fl : floatOps) (op : byte) : Prop :=
  (forall pre post : list byte,
     parse_instr fl {| bytes := pre ++ op :: post; pos := len pre |} =
     (Ok (None, false), {| bytes := pre ++ op :: post; pos := len pre + 1 |})) /\
  (exists i fn,
     NewInterpreter fl (stub_module op) = Ok i /\
     GetFunc i "f" = Ok fn /\
     body (code (fi_internalFunc fn)) = [None; Some opEnd] /\
     forall fuel, fst (invoke (S fuel) fn [] i) = Panic NilDereference).

(* ================================================================== *)
(** * Contracts of the integer functions, stated once for both widths

    As in [div_contract], [mk] builds the operand that holds an integer of
    the width and [lo] and [hi] bound the width. *)

(** Addition, subtraction and multiplication: each computes in the
    integers and wraps, and adding and subtracting the same operand undo
    each other. *)
Definition wraps_arith (lo hi : Z) (mk : Z -> Value) (wrap : Z -> Z)
    (add sub mul : Value -> Value -> result Value) : Prop :=
  forall a b : Z,
    lo <= a < hi -> lo <= b < hi ->
    add (mk a) (mk b) = Ok (mk (wrap (a + b))) /\
    sub (mk a) (mk b) = Ok (mk (wrap (a - b))) /\
    mul (mk a) (mk b) = Ok (mk (wrap (a * b))) /\
    sub (mk (wrap (a + b))) (mk b) = Ok (mk a) /\
    add (mk (wrap (a - b))) (mk b) = Ok (mk a).

(** The two rotations undo each other, in either order, whatever the
    amount [k]. *)
Definition rot_inverse (lo hi : Z) (mk : Z -> Value)
    (rotl rotr : Value -> Value -> result Value) : Prop :=
  forall a k : Z,
    lo <= a < hi -> lo <= k < hi ->
    (exists y, rotl (mk a) (mk k) = Ok y /\ rotr y (mk k) = Ok (mk a)) /\
    (exists y, rotr (mk a) (mk k) = Ok y /\ rotl y (mk k) = Ok (mk a)).

(** The comparisons: the signed ones compare the integers, an unsigned one
    gives the signed answer turned into its opposite when exactly one
    operand is negative. *)
Definition cmp_laws (lo hi : Z) (mk : Z -> Value)
    (ltS ltU gtS gtU leS leU geS geU eq ne : Value -> Value -> bool) : Prop :=
  forall a b : Z,
    lo <= a < hi -> lo <= b < hi ->
    let flip := xorb (a <? 0) (b <? 0) in
    ltS (mk a) (mk b) = (a <? b) /\
    gtS (mk a) (mk b) = (b <? a) /\
    leS (mk a) (mk b) = (a <=? b) /\
    geS (mk a) (mk b) = (b <=? a) /\
    ltU (mk a) (mk b) = xorb (a <? b) flip /\
    gtU (mk a) (mk b) = xorb (b <? a) flip /\
    leU (mk a) (mk b) = xorb (a <=? b) (flip && negb (a =? b)) /\
    geU (mk a) (mk b) = xorb (b <=? a) (flip && negb (a =? b)) /\
    eq (mk a) (mk b) = (a =? b) /\
    ne (mk a) (mk b) = negb (a =? b).

(** The number of set bits of [x] among its [w] low bits. *)
Definition bit_count (w : nat) (x : Z) : Z :=
  Z.of_nat (length (List.filter (fun i => Z.testbit x (Z.of_nat i)) (seq 0 w))).

(** What [clz], [ctz] and [popcnt] of the width [w] return for the operand
    whose unsigned reading is [x]. *)
Definition counts_bits (w x clz ctz popcnt : Z) : Prop :=
  popcnt = bit_count (Z.to_nat w) x /\
  (x = 0 -> clz = w /\ ctz = w /\ popcnt = 0) /\
  (x <> 0 ->
   0 <= clz < w /\ 2 ^ (w - 1 - clz) <= x < 2 ^ (w - clz) /\
   0 <= ctz < w /\ x mod 2 ^ ctz = 0 /\ Z.testbit x ctz = true /\
   0 < popcnt <= w).

(** The frame [f] after [n] calls of [NextStep]. *)
Fixpoint stepped (n : nat) (f : frame) : frame :=
  match n with
  | O => f
  | S n' => stepped n' (set_pc (int (pc f + 1)) f)
  end.

(** The machine whose top frame is [f], under it the frames [fs]. *)
Definition on_frame (fs : stack frame) (f : frame) (vs : stack Value) (s : store) : machine :=
  {| frameStack := fs ++ [f]; valueStack := vs; store_ := s |}.

(** Whether an instruction is a [block], and whether it is an [end]. *)
Definition is_block (i : option instr) : bool :=
  match i with Some (opBlock _) => true | _ => false end.
Definition is_end (i : option instr) : bool :=
  match i with Some opEnd => true | _ => false end.
Definition is_else (i : option instr) : bool :=
  match i with Some opElse => true | _ => false end.

(** The load accessors of a memory instance with the number of bytes each
    reads. *)
Definition load_fns : list (nat * (memInst -> Z -> Z -> result Z)) :=
  [(1%nat, load8); (2%nat, load16); (4%nat, load32); (8%nat, load64)].

(** A memory of the bytes [bs] without a maximum, and the same with the
    maximum [mx]. *)
Definition mem_of (mx : Z) (bs : list byte) : memInst :=
  {| m_memType := {| mt_limits := {| Min := 0; Max := mx |} |}; m_data := bs |}.

(** The store [s] with the data of memory [a] replaced by [bs]. *)
Definition with_mem_data (a : Z) (bs : list byte) (s : store) : store :=
  {| funcs := funcs s; tables := tables s;
     mems := alter (fun m => {| m_memType := m_memType m; m_data := bs |})
                   (Z.to_nat a) (mems s);
     globals := globals s; elems := elems s; datas := datas s |}.

(** A reader inside its bytes. *)
Definition in_bounds (r : leb128Reader) : Prop := 0 <= pos r <= len (bytes r).

(** [m] keeps the bytes of the reader, moves its position forward only and
    not past the end, and returns within its fuel. *)
Definition forward {A} (m : P A) : Prop :=
  forall r, in_bounds r ->
    bytes (snd (m r)) = bytes r /\ pos r <= pos (snd (m r)) /\ in_bounds (snd (m r)) /\
    fst (m r) <> OutOfFuel.

(** [m] is [forward] and a result of it has taken at least one byte. *)
Definition eats {A} (m : P A) : Prop :=
  forward m /\
  forall r a, in_bounds r -> fst (m r) = Ok a -> pos r < pos (snd (m r)).

(** Every result of [m] satisfies [Q]. *)
Definition yields {A} (Q : A -> Prop) (m : P A) : Prop :=
  forall r a r', m r = (Ok a, r') -> Q a.

(** The flag of [parser.instr] is set on [end] and on nothing else. *)
Definition flags_end (x : option instr * bool) : Prop :=
  snd x = true <-> fst x = Some opEnd.

(** An expression as [parser.expr] returns it: one [end], at its end. *)
Definition ends_once (e : expr) : Prop :=
  exists e0, e = e0 ++ [Some opEnd] /\ Forall (fun i => i <> Some opEnd) e0.

(** Float operations for runs that use none: each returns its first
    operand, and no comparison holds. *)
Definition firstFloatOps : floatOps :=
  {| float64_of_float32 := id; float32_of_float64 := id; uint32_of_float32 := id;
     uint64_of_float64 := id; fneg32 := id; fneg64 := id;
     farith32 := fun _ a _ => a; farith64 := fun _ a _ => a;
     fcmp32 := fun _ _ _ => false; fcmp64 := fun _ _ _ => false;
     math_Abs := id; math_Sqrt := id; math_Ceil := id; math_Floor := id; math_Trunc := id;
     math_Copysign := fun a _ => a; math_Min := fun a _ => a; math_Max := fun a _ => a;
     math_IsNaN := fun _ => false; math_NaN := 0 |}.

(** The eight bytes a binary starts with: the magic and the version 1. *)
Definition wasm_header : list byte := [x00; x61; x73; x6d; x01; x00; x00; x00].

(* ================================================================== *)
(** * Properties *)

(** ** Integers and their encodings *)

Section Wrap.
Variable w : Z.
Hypothesis w_pos : 0 < w.

Lemma pow2_split : 2 ^ w = 2 * 2 ^ (w - 1).
Proof. rewrite <- Z.pow_succ_r by lia. f_equal. lia. Qed.

Lemma wrapu_range z : 0 <= wrapu w z < 2 ^ w.
Proof. unfold wrapu. apply Z.mod_pos_bound. apply Z.pow_pos_nonneg; lia. Qed.

Lemma wraps_range z : - 2 ^ (w - 1) <= wraps w z < 2 ^ (w - 1).
Proof.
  unfold wraps.
  pose proof (Z.mod_pos_bound (z + 2 ^ (w - 1)) (2 ^ w)) as H.
  pose proof pow2_split.
  assert (0 < 2 ^ (w - 1)) by (apply Z.pow_pos_nonneg; lia).
  lia.
Qed.

Lemma wraps_small z : - 2 ^ (w - 1) <= z < 2 ^ (w - 1) -> wraps w z = z.
Proof.
  intros Hz. unfold wraps. pose proof pow2_split.
  rewrite Z.mod_small by lia. lia.
Qed.

Lemma wraps_idem z : wraps w (wraps w z) = wraps w z.
Proof. apply wraps_small, wraps_range. Qed.

Lemma wraps_mod z : wraps w z mod 2 ^ w = z mod 2 ^ w.
Proof.
  unfold wraps. pose proof pow2_split as Hp.
  assert (0 < 2 ^ w) by (apply Z.pow_pos_nonneg; lia).
  rewrite <- Zminus_mod_idemp_l, Z.mod_mod by lia.
  rewrite Zminus_mod_idemp_l. f_equal. lia.
Qed.

Lemma wraps_eqm x y : x mod 2 ^ w = y mod 2 ^ w -> wraps w x = wraps w y.
Proof.
  intros E. unfold wraps. f_equal.
  rewrite <- (Zplus_mod_idemp_l x), <- (Zplus_mod_idemp_l y). now rewrite E.
Qed.

Lemma wraps_wrapu z : wraps w (wrapu w z) = wraps w z.
Proof. apply wraps_eqm. unfold wrapu. apply Z.mod_mod. apply Z.pow_nonzero; lia. Qed.

Lemma wrapu_wraps z : wrapu w (wraps w z) = wrapu w z.
Proof. apply wraps_mod. Qed.

Lemma wraps_add_l x y : wraps w (wraps w x + y) = wraps w (x + y).
Proof.
  apply wraps_eqm.
  rewrite <- Zplus_mod_idemp_l, wraps_mod, Zplus_mod_idemp_l. reflexivity.
Qed.

Lemma wraps_mul_l x y : wraps w (wraps w x * y) = wraps w (x * y).
Proof.
  apply wraps_eqm.
  rewrite <- Zmult_mod_idemp_l, wraps_mod, Zmult_mod_idemp_l. reflexivity.
Qed.
End Wrap.

Lemma int32_range z : - 2 ^ 31 <= int32 z < 2 ^ 31.
Proof. apply (wraps_range 32). lia. Qed.

Lemma int64_range z : - 2 ^ 63 <= int64 z < 2 ^ 63.
Proof. apply (wraps_range 64). lia. Qed.

Lemma byte_to_Z_range b : 0 <= byte_to_Z b < 256.
Proof.
  unfold byte_to_Z. pose proof (Byte.to_N_bounded b). lia.
Qed.

Lemma byte_to_of_Z z : byte_to_Z (byte_of_Z z) = z mod 256.
Proof.
  unfold byte_to_Z, byte_of_Z.
  pose proof (Z.mod_pos_bound z 256 ltac:(lia)) as Hb.
  destruct (Byte.of_N (Z.to_N (z mod 256))) as [b|] eqn:E.
  - apply Byte.to_of_N in E. rewrite E. lia.
  - apply Byte.of_N_None_iff in E. lia.
Qed.

Lemma byte_of_to_Z b : byte_of_Z (byte_to_Z b) = b.
Proof.
  unfold byte_of_Z. pose proof (byte_to_Z_range b).
  rewrite Z.mod_small by lia. unfold byte_to_Z.
  rewrite N2Z.id, Byte.of_to_N. reflexivity.
Qed.

Lemma le_encode_length n z : length (le_encode n z) = n.
Proof. revert z. induction n; intros; simpl; auto. Qed.

Lemma le_decode_encode n z : le_decode (le_encode n z) = z mod 256 ^ Z.of_nat n.
Proof.
  revert z. induction n as [|n IH]; intros z.
  - simpl. now rewrite Z.mod_1_r.
  - cbn [le_encode le_decode]. rewrite byte_to_of_Z, IH.
    rewrite Nat2Z.inj_succ, Z.pow_succ_r by lia.
    rewrite Z.rem_mul_r by (try apply Z.pow_pos_nonneg; lia). reflexivity.
Qed.

Lemma read_written n z :
  read_or_zero n (le_encode n z) = z mod 256 ^ Z.of_nat n.
Proof.
  unfold read_or_zero, binary_Read.
  rewrite le_encode_length, Nat.ltb_irrefl.
  rewrite firstn_all2 by (rewrite le_encode_length; lia).
  apply le_decode_encode.
Qed.

(** What the integer accessors read back from a value built from a
    fixed-size integer. *)
Lemma V_I32_int32 z t : V_I32 (ValueFrom (any_int32 z) t) = int32 z.
Proof.
  unfold V_I32, ValueFrom, written. cbn [binary_Write data].
  rewrite read_written. apply (wraps_wrapu 32). lia.
Qed.

Lemma V_I32_uint32 z t : V_I32 (ValueFrom (any_uint32 z) t) = int32 z.
Proof. apply V_I32_int32. Qed.

Lemma V_I64_int64 z t : V_I64 (ValueFrom (any_int64 z) t) = int64 z.
Proof.
  unfold V_I64, ValueFrom, written. cbn [binary_Write data].
  rewrite read_written. apply (wraps_wrapu 64). lia.
Qed.

Lemma V_I64_uint64 z t : V_I64 (ValueFrom (any_uint64 z) t) = int64 z.
Proof. apply V_I64_int64. Qed.

Lemma V_I32_FromI32 z : V_I32 (ValueFromI32 z) = int32 z.
Proof. apply (V_I32_int32 z I32). Qed.

Lemma V_I64_FromI64 z : V_I64 (ValueFromI64 z) = int64 z.
Proof. apply (V_I64_int64 z I64). Qed.

(** A value whose payload a failed [binary.Write] left empty reads as 0. *)
Lemma V_I32_any_int z t : V_I32 (ValueFrom (any_int z) t) = 0.
Proof. reflexivity. Qed.

Lemma V_I32_range v : - 2 ^ 31 <= V_I32 v < 2 ^ 31.
Proof. apply int32_range. Qed.

Lemma V_I64_range v : - 2 ^ 63 <= V_I64 v < 2 ^ 63.
Proof. apply int64_range. Qed.
(* ================================================================== *)
(** ** Integer division and remainder *)

Lemma quot_range (m a b : Z) :
  0 < m -> - m <= a < m -> - m <= b < m -> b <> 0 ->
  ~ (a = - m /\ b = -1) ->
  - m <= Z.quot a b < m.
Proof.
  intros Hm Ha Hb Hb0 Hov.
  destruct (Z.eq_dec b 1) as [->|Hb1]; [rewrite Z.quot_1_r; lia|].
  destruct (Z.eq_dec b (-1)) as [->|Hb2].
  { change (-1) with (- (1)). rewrite Z.quot_opp_r, Z.quot_1_r by lia. lia. }
  destruct (Z.eq_dec a 0) as [->|Ha0]; [rewrite Z.quot_0_l; lia|].
  assert (Z.abs (Z.quot a b) < Z.abs a) as Hq.
  { rewrite <- (Z.quot_abs a b) by lia. apply Z.quot_lt; lia. }
  lia.
Qed.

Lemma rem_range (m a b : Z) :
  0 < m -> - m <= a < m -> b <> 0 -> - m <= Z.rem a b < m.
Proof.
  intros Hm Ha Hb0.
  assert (Z.abs (Z.rem a b) <= Z.abs a) as Hr.
  { rewrite <- Z.rem_abs by lia. apply Z.rem_le; lia. }
  destruct (Z.le_gt_cases 0 a) as [Hpos|Hneg].
  - pose proof (Z.rem_nonneg a b Hb0 Hpos). lia.
  - pose proof (Z.rem_nonpos a b Hb0 ltac:(lia)). lia.
Qed.

(** *** The operands of one width *)

Lemma carries_i32 : carries (- 2 ^ 31) (2 ^ 31) ValueFromI32 V_I32.
Proof.
  split; [|apply V_I32_range].
  intros z Hz. rewrite V_I32_FromI32. apply (wraps_small 32); lia.
Qed.

Lemma carries_i64 : carries (- 2 ^ 63) (2 ^ 63) ValueFromI64 V_I64.
Proof.
  split; [|apply V_I64_range].
  intros z Hz. rewrite V_I64_FromI64. apply (wraps_small 64); lia.
Qed.

Lemma V_I32_mk v : V_I32 (ValueFromI32 (V_I32 v)) = V_I32 v.
Proof. apply (proj1 carries_i32), V_I32_range. Qed.

Lemma V_I64_mk v : V_I64 (ValueFromI64 (V_I64 v)) = V_I64 v.
Proof. apply (proj1 carries_i64), V_I64_range. Qed.

(** An operand depends on its integer modulo the width only. *)
Lemma le_encode_eqm (n : nat) (x y : Z) :
  x mod 256 ^ Z.of_nat n = y mod 256 ^ Z.of_nat n -> le_encode n x = le_encode n y.
Proof.
  revert x y. induction n as [|n IH]; intros x y E; [reflexivity|].
  rewrite Nat2Z.inj_succ, Z.pow_succ_r in E by lia.
  assert (0 < 256 ^ Z.of_nat n) by (apply Z.pow_pos_nonneg; lia).
  rewrite !Z.rem_mul_r in E by lia.
  pose proof (Z.mod_pos_bound x 256 ltac:(lia)).
  pose proof (Z.mod_pos_bound y 256 ltac:(lia)).
  pose proof (Z.mod_pos_bound (x / 256) (256 ^ Z.of_nat n) ltac:(lia)).
  pose proof (Z.mod_pos_bound (y / 256) (256 ^ Z.of_nat n) ltac:(lia)).
  assert (x mod 256 = y mod 256) as E0 by nia.
  assert ((x / 256) mod 256 ^ Z.of_nat n = (y / 256) mod 256 ^ Z.of_nat n) as E1 by nia.
  cbn [le_encode]. f_equal.
  - unfold byte_of_Z. rewrite E0. reflexivity.
  - apply IH, E1.
Qed.

Lemma ValueFromI32_int32 z : ValueFromI32 (int32 z) = ValueFromI32 z.
Proof.
  unfold ValueFromI32, written. cbn [binary_Write]. f_equal.
  apply le_encode_eqm. apply (wraps_mod 32). lia.
Qed.

Lemma ValueFromI64_int64 z : ValueFromI64 (int64 z) = ValueFromI64 z.
Proof.
  unfold ValueFromI64, written. cbn [binary_Write]. f_equal.
  apply le_encode_eqm. apply (wraps_mod 64). lia.
Qed.

(** *** The division functions *)

Lemma divrem_identity (m x y : Z) :
  0 < m -> - m <= x < m -> - m <= y < m -> y <> 0 -> ~ (x = - m /\ y = -1) ->
  Z.quot x y * y + Z.rem x y = x.
Proof. intros. rewrite (Z.mul_comm (Z.quot x y)). symmetry. apply Z.quot_rem'. Qed.

Lemma div_contract_i32 :
  div_contract (- 2 ^ 31) (2 ^ 31) ValueFromI32 uint32
               i32DivS i32DivU i32RemS i32RemU i32Mul i32Add.
Proof.
  intros a b Ha Hb.
  unfold i32DivS, i32DivU, i32RemS, i32RemU, i32Mul, i32Add, MinInt32. cbv zeta.
  rewrite !(proj1 carries_i32 a Ha), !(proj1 carries_i32 b Hb).
  split; [|split; [|split]].
  - intros ->. cbn [Z.eqb]. repeat split.
  - intros Hb0. destruct (Z.eqb_spec b 0); [contradiction|].
    split; [reflexivity|]. split; [reflexivity|].
    f_equal. apply ValueFromI32_int32.
  - intros -> ->. repeat split.
  - intros Hb0 Hov. destruct (Z.eqb_spec b 0); [contradiction|].
    pose proof (quot_range (2 ^ 31) a b ltac:(lia) Ha Hb Hb0 Hov) as Hq.
    pose proof (rem_range (2 ^ 31) a b ltac:(lia) Ha Hb0) as Hr.
    pose proof (divrem_identity (2 ^ 31) a b ltac:(lia) Ha Hb Hb0 Hov) as Hid.
    assert ((a =? - 2 ^ 31) && (b =? -1) = false) as ->.
    { apply andb_false_iff.
      destruct (Z.eqb_spec a (- 2 ^ 31)); destruct (Z.eqb_spec b (-1)); auto.
      exfalso. apply Hov. split; assumption. }
    split; [f_equal; apply ValueFromI32_int32|].
    split; [exact Hq|]. split; [exact Hid|].
    eexists. split; [reflexivity|].
    rewrite V_I32_int32, (proj1 carries_i32 _ Hq), (proj1 carries_i32 _ Hr).
    unfold int32. rewrite (wraps_idem 32), (wraps_add_l 32) by lia. rewrite Hid.
    f_equal. apply ValueFromI32_int32.
Qed.

Lemma div_contract_i64 :
  div_contract (- 2 ^ 63) (2 ^ 63) ValueFromI64 uint64
               i64DivS i64DivU i64RemS i64RemU i64Mul i64Add.
Proof.
  intros a b Ha Hb.
  unfold i64DivS, i64DivU, i64RemS, i64RemU, i64Mul, i64Add, MinInt64. cbv zeta.
  rewrite !(proj1 carries_i64 a Ha), !(proj1 carries_i64 b Hb).
  split; [|split; [|split]].
  - intros ->. cbn [Z.eqb]. repeat split.
  - intros Hb0. destruct (Z.eqb_spec b 0); [contradiction|].
    split; [reflexivity|]. split; [reflexivity|].
    f_equal. apply ValueFromI64_int64.
  - intros -> ->. repeat split.
  - intros Hb0 Hov. destruct (Z.eqb_spec b 0); [contradiction|].
    pose proof (quot_range (2 ^ 63) a b ltac:(lia) Ha Hb Hb0 Hov) as Hq.
    pose proof (rem_range (2 ^ 63) a b ltac:(lia) Ha Hb0) as Hr.
    pose proof (divrem_identity (2 ^ 63) a b ltac:(lia) Ha Hb Hb0 Hov) as Hid.
    assert ((a =? - 2 ^ 63) && (b =? -1) = false) as ->.
    { apply andb_false_iff.
      destruct (Z.eqb_spec a (- 2 ^ 63)); destruct (Z.eqb_spec b (-1)); auto.
      exfalso. apply Hov. split; assumption. }
    split; [f_equal; apply ValueFromI64_int64|].
    split; [exact Hq|]. split; [exact Hid|].
    eexists. split; [reflexivity|].
    rewrite V_I64_int64, (proj1 carries_i64 _ Hq), (proj1 carries_i64 _ Hr).
    unfold int64. rewrite (wraps_idem 64), (wraps_add_l 64) by lia. rewrite Hid.
    f_equal. apply ValueFromI64_int64.
Qed.

Lemma div_reads_through_i32 :
  Forall (reads_through V_I32 ValueFromI32) [i32DivS; i32DivU; i32RemS; i32RemU].
Proof.
  repeat constructor; intros a b;
    unfold i32DivS, i32DivU, i32RemS, i32RemU; cbv zeta;
    rewrite !V_I32_mk; reflexivity.
Qed.

Lemma div_reads_through_i64 :
  Forall (reads_through V_I64 ValueFromI64) [i64DivS; i64DivU; i64RemS; i64RemU].
Proof.
  repeat constructor; intros a b;
    unfold i64DivS, i64DivU, i64RemS, i64RemU; cbv zeta;
    rewrite !V_I64_mk; reflexivity.
Qed.

(* ================================================================== *)
(** ** Shifts *)

Lemma mask32 x : uint32 x mod 32 = x mod 32.
Proof.
  unfold uint32, wrapu. change (2 ^ 32) with (32 * 2 ^ 27).
  rewrite Z.rem_mul_r by lia.
  rewrite (Z.mul_comm _ (_ mod _)), Z.mod_add by lia. apply Z.mod_mod. lia.
Qed.

Lemma mask64 x : uint64 x mod 64 = x mod 64.
Proof.
  unfold uint64, wrapu. change (2 ^ 64) with (64 * 2 ^ 58).
  rewrite Z.rem_mul_r by lia.
  rewrite (Z.mul_comm _ (_ mod _)), Z.mod_add by lia. apply Z.mod_mod. lia.
Qed.

Lemma shifts_masked_i32 :
  shifts_masked 32 (- 2 ^ 31) (2 ^ 31) ValueFromI32 int32 uint32 i32Shl i32ShrS i32ShrU.
Proof.
  intros a b Ha Hb n. subst n.
  pose proof (Z.mod_pos_bound b 32 ltac:(lia)) as Hn.
  unfold i32Shl, i32ShrS, i32ShrU, shl32.
  rewrite !(proj1 carries_i32 a Ha), !(proj1 carries_i32 b Hb), mask32.
  rewrite Z.shiftl_mul_pow2, !Z.shiftr_div_pow2 by lia.
  repeat split.
Qed.

Lemma shifts_masked_i64 :
  shifts_masked 64 (- 2 ^ 63) (2 ^ 63) ValueFromI64 int64 uint64 i64Shl i64ShrS i64ShrU.
Proof.
  intros a b Ha Hb n. subst n.
  pose proof (Z.mod_pos_bound b 64 ltac:(lia)) as Hn.
  unfold i64Shl, i64ShrS, i64ShrU, shl64.
  rewrite !(proj1 carries_i64 a Ha), !(proj1 carries_i64 b Hb), mask64.
  rewrite Z.shiftl_mul_pow2, !Z.shiftr_div_pow2 by lia.
  repeat split.
Qed.

Lemma shift_reads_through_i32 :
  Forall (reads_through V_I32 ValueFromI32) [i32Shl; i32ShrS; i32ShrU].
Proof.
  repeat constructor; intros a b; unfold i32Shl, i32ShrS, i32ShrU;
    rewrite !V_I32_mk; reflexivity.
Qed.

Lemma shift_reads_through_i64 :
  Forall (reads_through V_I64 ValueFromI64) [i64Shl; i64ShrS; i64ShrU].
Proof.
  repeat constructor; intros a b; unfold i64Shl, i64ShrS, i64ShrU;
    rewrite !V_I64_mk; reflexivity.
Qed.

(* ================================================================== *)
(** ** The LEB128 reader *)

(** *** Bits of the wrapped integers *)

Lemma testbit_sign_ext (m y i : Z) :
  0 <= m -> - 2 ^ m <= y < 2 ^ m -> m <= i ->
  Z.testbit y i = Z.testbit y m.
Proof.
  intros Hm Hy Hi.
  assert (2 ^ m <= 2 ^ i) as Hpow by (apply Z.pow_le_mono_r; lia).
  assert (0 < 2 ^ m) by (apply Z.pow_pos_nonneg; lia).
  assert (forall j, m <= j -> 2 ^ m <= 2 ^ j -> Z.testbit y j = (y <? 0)) as Hbit.
  { intros j Hj Hp.
    destruct (Z.ltb_spec y 0) as [Hneg|Hpos].
    - apply Z.testbit_true; [lia|].
      replace (y / 2 ^ j) with (-1); [reflexivity|].
      apply Z.div_unique with (r := y + 2 ^ j); lia.
    - apply Z.testbit_false; [lia|].
      rewrite Z.div_small by lia. reflexivity. }
  rewrite (Hbit i), (Hbit m); auto; lia.
Qed.

Lemma testbit_wraps (w x i : Z) :
  0 < w -> 0 <= i ->
  Z.testbit (wraps w x) i = Z.testbit x (Z.min i (w - 1)).
Proof.
  intros Hw Hi.
  assert (forall j, 0 <= j < w -> Z.testbit (wraps w x) j = Z.testbit x j) as Hlow.
  { intros j Hj.
    rewrite <- (Z.mod_pow2_bits_low (wraps w x) w j) by lia.
    rewrite (wraps_mod w Hw). apply Z.mod_pow2_bits_low. lia. }
  destruct (Z.lt_ge_cases i w) as [Hlt|Hge].
  - rewrite Z.min_l by lia. apply Hlow. lia.
  - rewrite Z.min_r by lia. rewrite <- Hlow by lia.
    apply testbit_sign_ext; [lia| |lia].
    apply (wraps_range w Hw).
Qed.

Lemma lor_wraps (w a b : Z) :
  0 < w -> Z.lor (wraps w a) (wraps w b) = wraps w (Z.lor a b).
Proof.
  intros Hw. apply Z.bits_inj'. intros n Hn.
  rewrite Z.lor_spec, !testbit_wraps, Z.lor_spec by lia. reflexivity.
Qed.

Lemma lor_wrapu (w a b : Z) :
  0 <= w -> Z.lor (wrapu w a) (wrapu w b) = wrapu w (Z.lor a b).
Proof.
  intros Hw. unfold wrapu.
  rewrite <- !Z.land_ones by lia. symmetry. apply Z.land_lor_distr_l.
Qed.

(** Or-ing a group in above the bits gathered so far adds it. *)
Lemma lor_above (acc g s : Z) :
  0 <= s -> 0 <= acc < 2 ^ s -> Z.lor acc (g * 2 ^ s) = acc + g * 2 ^ s.
Proof.
  intros Hs Hacc.
  assert (Z.land acc (g * 2 ^ s) = 0) as Hdisj.
  { apply Z.bits_inj'. intros n Hn.
    rewrite Z.land_spec, Z.bits_0.
    destruct (Z.lt_ge_cases n s).
    - rewrite Z.mul_pow2_bits_low by lia. apply andb_false_r.
    - rewrite <- (Z.mod_small acc (2 ^ s)) by lia.
      rewrite Z.mod_pow2_bits_high by lia. reflexivity. }
  rewrite <- Z.lxor_lor by assumption.
  symmetry. apply Z.add_nocarry_lxor. assumption.
Qed.

(** *** What the loops test on a byte *)

Lemma byte_group_u b : Z.land (uint64 (byte_to_Z b)) 0x7F = low7 b.
Proof. destruct b; reflexivity. Qed.

Lemma byte_group_s b : Z.land (int64 (byte_to_Z b)) 0x7F = low7 b.
Proof. destruct b; reflexivity. Qed.

Lemma byte_last b :
  (Z.shiftr (Z.land (byte_to_Z b) 0x80) 7 =? 0) = negb (continues b).
Proof. destruct b; reflexivity. Qed.

Lemma byte_sign b :
  negb (Z.shiftr (Z.land (byte_to_Z b) 0x40) 3 =? 0) = bit6 b.
Proof. destruct b; reflexivity. Qed.

Lemma low7_range b : 0 <= low7 b < 128.
Proof. unfold low7. apply Z.mod_pos_bound. lia. Qed.

(** *** [eatU8] on the bytes left *)

Lemma eatU8_spec r :
  0 <= pos r ->
  eatU8 r =
  match drop (Z.to_nat (pos r)) (bytes r) with
  | [] => (Err EOF, r)
  | b :: _ => (Ok (byte_to_Z b), {| bytes := bytes r; pos := pos r + 1 |})
  end.
Proof.
  intros Hpos. unfold eatU8, bind, get, set_pos, lift, fail, ret, len, index.
  destruct (drop (Z.to_nat (pos r)) (bytes r)) as [|b tl] eqn:E.
  - apply drop_nil_inv in E.
    destruct (Z.leb_spec (Z.of_nat (length (bytes r))) (pos r)); [reflexivity|lia].
  - assert (bytes r !! Z.to_nat (pos r) = Some b) as Hl.
    { rewrite <- (Nat.add_0_r (Z.to_nat (pos r))), <- lookup_drop, E. reflexivity. }
    pose proof (lookup_lt_Some _ _ _ Hl) as Hlt.
    destruct (Z.leb_spec (Z.of_nat (length (bytes r))) (pos r)); [lia|].
    cbn [bytes pos].
    replace (pos r + 1 - 1) with (pos r) by lia.
    destruct (Z.ltb_spec (pos r) 0); [lia|].
    destruct (Z.leb_spec (Z.of_nat (length (bytes r))) (pos r)); [lia|].
    cbn [orb]. rewrite Hl. reflexivity.
Qed.

Lemma drop_next {A} (l : list A) n b tl :
  drop n l = b :: tl -> drop (S n) l = tl.
Proof.
  intros E. replace (S n) with (n + 1)%nat by lia.
  rewrite <- drop_drop, E. reflexivity.
Qed.

(** *** The decoding loops *)

Lemma pow2_next s : 0 <= s -> 2 ^ (s + 7) = 128 * 2 ^ s.
Proof. intros. rewrite Z.pow_add_r by lia. change (2 ^ 7) with 128. lia. Qed.

Lemma group_fits acc g s :
  0 <= s -> 0 <= acc < 2 ^ s -> 0 <= g < 128 -> 0 <= acc + g * 2 ^ s < 2 ^ (s + 7).
Proof. intros Hs Hacc Hg. rewrite pow2_next by lia. nia. Qed.

Lemma eatU64_loop_spec rest :
  forall fuel r acc shift,
    0 <= pos r ->
    drop (Z.to_nat (pos r)) (bytes r) = rest ->
    (length rest < fuel)%nat ->
    0 <= shift -> 0 <= acc < 2 ^ shift ->
    match uleb rest with
    | Some (x, n) =>
      eatU64_loop fuel (uint64 acc) shift r =
      (Ok (uint64 (acc + x * 2 ^ shift)),
       {| bytes := bytes r; pos := pos r + Z.of_nat n |})
    | None => fst (eatU64_loop fuel (uint64 acc) shift r) = Err EOF
    end.
Proof.
  induction rest as [|b tl IH]; intros fuel r acc shift Hpos Hrest Hfuel Hs Hacc;
    (destruct fuel as [|fuel]; [simpl in Hfuel; lia|]);
    cbn [eatU64_loop uleb]; unfold bind; rewrite (eatU8_spec r Hpos), Hrest.
  - reflexivity.
  - rewrite byte_group_u, byte_last.
    unfold shlu64, uint64.
    rewrite (Z.shiftl_mul_pow2 (low7 b) shift), lor_wrapu, lor_above by lia.
    destruct (continues b); cbn [negb].
    + pose proof (low7_range b) as Hg.
      specialize (IH fuel {| bytes := bytes r; pos := pos r + 1 |}
                     (acc + low7 b * 2 ^ shift) (shift + 7)).
      cbn [bytes pos] in IH.
      replace (Z.to_nat (pos r + 1)) with (S (Z.to_nat (pos r))) in IH by lia.
      specialize (IH ltac:(lia) (drop_next _ _ _ _ Hrest) ltac:(simpl in Hfuel; lia)
                     ltac:(lia) (group_fits _ _ _ Hs Hacc Hg)).
      destruct (uleb tl) as [[v n]|]; [|exact IH].
      unfold uint64 in IH. rewrite IH.
      replace (acc + low7 b * 2 ^ shift + v * 2 ^ (shift + 7))
        with (acc + (low7 b + 128 * v) * 2 ^ shift)
        by (rewrite pow2_next by lia; ring).
      replace (pos r + 1 + Z.of_nat n) with (pos r + Z.of_nat (S n)) by lia.
      reflexivity.
    + reflexivity.
Qed.

Lemma sign_fill g : 0 <= g < 128 -> Z.lor g (Z.shiftl (-1) 7) = g - 128.
Proof.
  intros Hg. rewrite Z.shiftl_mul_pow2 by lia.
  rewrite lor_above by (change (2 ^ 7) with 128; lia). reflexivity.
Qed.

Lemma eatI64_loop_spec rest :
  forall fuel r acc shift,
    0 <= pos r ->
    drop (Z.to_nat (pos r)) (bytes r) = rest ->
    (length rest < fuel)%nat ->
    0 <= shift -> 0 <= acc < 2 ^ shift ->
    match sleb rest with
    | Some (x, n) =>
      eatI64_loop fuel (int64 acc) shift r =
      (Ok (int64 (acc + x * 2 ^ shift)),
       {| bytes := bytes r; pos := pos r + Z.of_nat n |})
    | None => fst (eatI64_loop fuel (int64 acc) shift r) = Err EOF
    end.
Proof.
  induction rest as [|b tl IH]; intros fuel r acc shift Hpos Hrest Hfuel Hs Hacc;
    (destruct fuel as [|fuel]; [simpl in Hfuel; lia|]);
    cbn [eatI64_loop sleb]; unfold bind; rewrite (eatU8_spec r Hpos), Hrest.
  - reflexivity.
  - rewrite byte_group_s, byte_last, byte_sign.
    pose proof (low7_range b) as Hg.
    pose proof (group_fits _ _ _ Hs Hacc Hg) as Hfit.
    unfold shl64, int64.
    rewrite (Z.shiftl_mul_pow2 (low7 b) shift), (lor_wraps 64), lor_above by lia.
    destruct (continues b); cbn [negb].
    + specialize (IH fuel {| bytes := bytes r; pos := pos r + 1 |}
                     (acc + low7 b * 2 ^ shift) (shift + 7)).
      cbn [bytes pos] in IH.
      replace (Z.to_nat (pos r + 1)) with (S (Z.to_nat (pos r))) in IH by lia.
      specialize (IH ltac:(lia) (drop_next _ _ _ _ Hrest) ltac:(simpl in Hfuel; lia)
                     ltac:(lia) Hfit).
      destruct (sleb tl) as [[v n]|]; [|exact IH].
      unfold int64 in IH. rewrite IH.
      replace (acc + low7 b * 2 ^ shift + v * 2 ^ (shift + 7))
        with (acc + (low7 b + 128 * v) * 2 ^ shift)
        by (rewrite pow2_next by lia; ring).
      replace (pos r + 1 + Z.of_nat n) with (pos r + Z.of_nat (S n)) by lia.
      reflexivity.
    + destruct (bit6 b); unfold ret.
      * change (Z.lnot 0) with (-1).
        rewrite Z.shiftl_mul_pow2, (lor_wraps 64), lor_above by lia.
        rewrite sign_fill by lia.
        replace (acc + low7 b * 2 ^ shift + -1 * 2 ^ (shift + 7))
          with (acc + (low7 b - 128) * 2 ^ shift)
          by (rewrite pow2_next by lia; ring).
        reflexivity.
      * reflexivity.
Qed.

Lemma uleb_None rest : uleb rest = None <-> Forall (fun b => continues b = true) rest.
Proof.
  induction rest as [|b tl IH]; cbn [uleb].
  - split; [constructor|reflexivity].
  - destruct (continues b) eqn:Ec.
    + destruct (uleb tl) as [[v n]|].
      * split; [discriminate|]. intros H. inversion H; subst.
        apply IH in H3. discriminate.
      * split; [|reflexivity]. intros _. constructor; [assumption|]. now apply IH.
    + split; [discriminate|]. intros H. inversion H; subst. congruence.
Qed.

Lemma sleb_None rest : sleb rest = None <-> Forall (fun b => continues b = true) rest.
Proof.
  induction rest as [|b tl IH]; cbn [sleb].
  - split; [constructor|reflexivity].
  - destruct (continues b) eqn:Ec.
    + destruct (sleb tl) as [[v n]|].
      * split; [discriminate|]. intros H. inversion H; subst.
        apply IH in H3. discriminate.
      * split; [|reflexivity]. intros _. constructor; [assumption|]. now apply IH.
    + split; [discriminate|]. intros H. inversion H; subst. congruence.
Qed.

Lemma eatU64_decodes : leb_decodes eatU64 uleb uint64.
Proof.
  intros r Hpos rest.
  pose proof (eatU64_loop_spec rest (S (length (bytes r))) r 0 0 Hpos eq_refl) as H.
  assert (length rest < S (length (bytes r)))%nat as Hlen
    by (subst rest; rewrite length_drop; lia).
  specialize (H Hlen ltac:(lia) ltac:(simpl; lia)).
  change (uint64 0) with 0 in H. fold (eatU64 r) in H.
  pose proof (uleb_None rest) as HN.
  destruct (uleb rest) as [[v n]|].
  - rewrite Z.mul_1_r, Z.add_0_l in H. split; [exact H|].
    rewrite H. cbn [fst]. split; [discriminate|].
    intros HF. apply HN in HF. discriminate.
  - split; [exact H|]. split; [intros _; now apply HN|intros _; exact H].
Qed.

Lemma eatI64_decodes : leb_decodes eatI64 sleb int64.
Proof.
  intros r Hpos rest.
  pose proof (eatI64_loop_spec rest (S (length (bytes r))) r 0 0 Hpos eq_refl) as H.
  assert (length rest < S (length (bytes r)))%nat as Hlen
    by (subst rest; rewrite length_drop; lia).
  specialize (H Hlen ltac:(lia) ltac:(simpl; lia)).
  change (int64 0) with 0 in H. fold (eatI64 r) in H.
  pose proof (sleb_None rest) as HN.
  destruct (sleb rest) as [[v n]|].
  - rewrite Z.mul_1_r, Z.add_0_l in H. split; [exact H|].
    rewrite H. cbn [fst]. split; [discriminate|].
    intros HF. apply HN in HF. discriminate.
  - split; [exact H|]. split; [intros _; now apply HN|intros _; exact H].
Qed.

(** C9: [eatU64] concatenates the low 7 bits of each byte, little-endian
    by group, up to the first byte with a clear high bit, and [eatI64] also
    fills the bits above with ones when bit 6 of that byte is set, each
    within its 64 bits; both fail with EOF exactly when no byte left has a
    clear high bit.  [0x80 0x01] decodes to 0x80, [0x7F] to -1 and [0x40]
    to -0x40. *)
Theorem C9_leb128_decoding :
  leb_decodes eatU64 uleb uint64 /\
  leb_decodes eatI64 sleb int64 /\
  fst (eatU64 {| bytes := [x80; x01]; pos := 0 |}) = Ok 0x80 /\
  fst (eatI64 {| bytes := [x7f]; pos := 0 |}) = Ok (-1) /\
  fst (eatI64 {| bytes := [x40]; pos := 0 |}) = Ok (-0x40).
Proof.
  split; [apply eatU64_decodes|].
  split; [apply eatI64_decodes|].
  repeat split; vm_compute; reflexivity.
Qed.

Lemma C9_leb128_decoding_witness :
  0 <= pos {| bytes := [xe5; x8e; x26; x7f]; pos := 0 |} /\
  eatU64 {| bytes := [xe5; x8e; x26; x7f]; pos := 0 |} =
    (Ok 624485, {| bytes := [xe5; x8e; x26; x7f]; pos := 3 |}) /\
  eatI64 {| bytes := [x9b; xf1; x59]; pos := 0 |} =
    (Ok (-624485), {| bytes := [x9b; xf1; x59]; pos := 3 |}) /\
  fst (eatI64 {| bytes := [x9b; xf1]; pos := 0 |}) = Err EOF.
Proof.
  split; [simpl; lia|].
  split; [|split].
  - exact (proj1 (proj1 C9_leb128_decoding
                    {| bytes := [xe5; x8e; x26; x7f]; pos := 0 |} ltac:(simpl; lia))).
  - exact (proj1 (proj1 (proj2 C9_leb128_decoding)
                    {| bytes := [x9b; xf1; x59]; pos := 0 |} ltac:(simpl; lia))).
  - exact (proj1 (proj1 (proj2 C9_leb128_decoding)
                    {| bytes := [x9b; xf1]; pos := 0 |} ltac:(simpl; lia))).
Defined.

(* ================================================================== *)
(** ** What an instruction does to the store *)

Create HintDb keeps discriminated.

Lemma keeps_ret {A} (a : A) : keeps_store (ret a).
Proof. intros st. reflexivity. Qed.

Lemma keeps_fail {A} e : keeps_store (@fail machine A e).
Proof. intros st. reflexivity. Qed.

Lemma keeps_crash {A} p : keeps_store (@crash machine A p).
Proof. intros st. reflexivity. Qed.

Lemma keeps_lift {A} (r : result A) : keeps_store (lift r).
Proof. intros st. reflexivity. Qed.

Lemma keeps_get : keeps_store (@get machine).
Proof. intros st. reflexivity. Qed.

Lemma keeps_bind {A B} (m : M A) (k : A -> M B) :
  keeps_store m -> (forall a, keeps_store (k a)) -> keeps_store (bind m k).
Proof.
  intros Hm Hk st. unfold bind. specialize (Hm st).
  destruct (m st) as [[a| | |] st']; cbn [snd] in *; try assumption.
  rewrite Hk. assumption.
Qed.

Lemma keeps_topFrame : keeps_store topFrame.
Proof. intros st. unfold topFrame. destruct (stack_Top _ _) as [[f ok]| | |]; reflexivity. Qed.

Lemma keeps_updFrame g : keeps_store (updFrame g).
Proof. intros st. unfold updFrame. destruct (frameStack st); reflexivity. Qed.

Lemma keeps_popValue : keeps_store popValue.
Proof.
  intros st. unfold popValue. destruct (stack_Pop _ _) as [[v ok] s]. reflexivity.
Qed.

Lemma keeps_pushValue v : keeps_store (pushValue v).
Proof. intros st. reflexivity. Qed.

Lemma keeps_popFrame : keeps_store popFrame.
Proof.
  intros st. unfold popFrame. destruct (stack_Pop _ _) as [[v ok] s]. reflexivity.
Qed.

Lemma keeps_getValueStack : keeps_store getValueStack.
Proof. intros st. reflexivity. Qed.

Lemma keeps_putValueStack s : keeps_store (putValueStack s).
Proof. intros st. reflexivity. Qed.

#[local] Hint Resolve keeps_ret keeps_fail keeps_crash keeps_lift keeps_get
  keeps_topFrame keeps_updFrame keeps_popValue keeps_pushValue keeps_popFrame
  keeps_getValueStack keeps_putValueStack : keeps.

(** Walks down the binds and the case distinctions of an [exec]. *)
Ltac keeps :=
  repeat first
    [ progress auto with keeps
    | apply keeps_bind; [|intros]
    | match goal with
      | |- keeps_store (match ?x with _ => _ end) => destruct x
      | |- keeps_store (let _ := _ in _) => cbv zeta
      end ].

Lemma keeps_NextStep : keeps_store NextStep.
Proof. unfold NextStep. keeps. Qed.

Lemma keeps_frameMod f : keeps_store (frameMod f).
Proof. unfold frameMod. keeps. Qed.

#[local] Hint Resolve keeps_NextStep keeps_frameMod : keeps.

Lemma keeps_defaultMem f : keeps_store (defaultMem f).
Proof. unfold defaultMem. keeps. Qed.

Lemma keeps_lookupGlobal f i : keeps_store (lookupGlobal f i).
Proof. unfold lookupGlobal. keeps. Qed.

Lemma keeps_pushLabel l : keeps_store (pushLabel l).
Proof. unfold pushLabel. keeps. Qed.

Lemma keeps_popLabel : keeps_store popLabel.
Proof. unfold popLabel. keeps. Qed.

Lemma keeps_branch l : keeps_store (branch l).
Proof. unfold branch. keeps. Qed.

#[local] Hint Resolve keeps_defaultMem keeps_lookupGlobal keeps_pushLabel
  keeps_popLabel keeps_branch : keeps.

(** No instruction but [memory.copy] writes to the store: neither a store
    instruction, nor [memory.grow], nor [global.set]. *)
Lemma exec_keeps_store (i : instr) : i <> opMemoryCopy -> keeps_store (exec i).
Proof.
  intros Hi.
  destruct i; try congruence; cbn [exec];
    unfold opUnreachable_exec, opNop_exec, opIf_exec, opLoop_exec, opBlock_exec,
      opElse_exec, opEnd_exec, opBr_exec, opBrIf_exec, opBrTable_exec,
      opReturn_exec, opCall_exec, opCallIndirect_exec, opLocalGet_exec,
      opLocalSet_exec, opLocalTee_exec, opGlobalGet_exec, opGlobalSet_exec,
      opUn_exec, opBin_exec, opConst_exec, opRel_exec, opTest_exec,
      opLoad_exec, opStore_exec, opMemorySize_exec, opMemoryGrow_exec,
      opMemoryFill_exec, opSelect_exec, opDrop_exec;
    keeps.
Qed.

(* ================================================================== *)
(** ** Slices and the top of a stack *)

Lemma len_app {A} (l1 l2 : list A) : len (l1 ++ l2) = len l1 + len l2.
Proof. unfold len. rewrite length_app. lia. Qed.

Lemma index_middle {A} (pre post : list A) (x : A) :
  index (pre ++ x :: post) (len pre) = Ok x.
Proof.
  unfold index, len. rewrite length_app. cbn [length].
  destruct (Z.ltb_spec (Z.of_nat (length pre)) 0); [lia|].
  destruct (Z.leb_spec (Z.of_nat (length pre + S (length post))) (Z.of_nat (length pre)));
    [lia|].
  cbn [orb]. rewrite Nat2Z.id, list_lookup_middle by reflexivity. reflexivity.
Qed.

Lemma stack_Top_push {T} (zero : T) (s : stack T) (x : T) :
  stack_Top zero (s ++ [x]) = Ok (x, true).
Proof.
  assert (len (s ++ [x]) = len s + 1) as E by (rewrite len_app; reflexivity).
  unfold stack_Top, stack_Peek, stack_isEmpty, stack_Len. rewrite E.
  destruct (Z.eqb_spec (len s + 1) 0); [unfold len in *; lia|].
  replace (len s + 1 - 1 - 0) with (len s) by lia.
  rewrite index_middle. reflexivity.
Qed.

Lemma topFrame_push fs f vs s :
  topFrame {| frameStack := fs ++ [f]; valueStack := vs; store_ := s |} =
  (Ok f, {| frameStack := fs ++ [f]; valueStack := vs; store_ := s |}).
Proof. unfold topFrame. cbn [frameStack]. rewrite stack_Top_push. reflexivity. Qed.

Lemma updFrame_push g fs f vs s :
  updFrame g {| frameStack := fs ++ [f]; valueStack := vs; store_ := s |} =
  (Ok tt, {| frameStack := fs ++ [g f]; valueStack := vs; store_ := s |}).
Proof.
  unfold updFrame. cbn [frameStack valueStack store_].
  destruct (fs ++ [f]) eqn:E; [destruct fs; discriminate|]. rewrite <- E.
  unfold stack_Len. rewrite len_app. unfold len. cbn [length].
  replace (Z.to_nat (Z.of_nat (length fs) + Z.of_nat 1 - 1)) with (length fs + 0)%nat by lia.
  rewrite alter_app_r. reflexivity.
Qed.

Lemma stack_Pop_push {T} (zero : T) (s : stack T) (x : T) :
  stack_Pop zero (s ++ [x]) = (x, true, s).
Proof.
  assert (len (s ++ [x]) = len s + 1) as E by (rewrite len_app; reflexivity).
  unfold stack_Pop, stack_isEmpty, stack_Len. rewrite E.
  destruct (Z.eqb_spec (len s + 1) 0); [unfold len in *; lia|].
  replace (Z.to_nat (len s + 1 - 1)) with (length s) by (unfold len; lia).
  rewrite nth_middle, take_app_length. reflexivity.
Qed.

Lemma popValue_push fs vs v s :
  popValue {| frameStack := fs; valueStack := vs ++ [v]; store_ := s |} =
  (Ok v, {| frameStack := fs; valueStack := vs; store_ := s |}).
Proof. unfold popValue. cbn [valueStack]. rewrite stack_Pop_push. reflexivity. Qed.

(** [opBin.exec] pops the top operand as [a] and the one under it as [b],
    and pushes [binFn a b] or returns its error. *)
Lemma opBin_exec_spec binFn fs f vs s a b :
  exec (opBin binFn)
    {| frameStack := fs ++ [f]; valueStack := vs ++ [b; a]; store_ := s |} =
  match binFn a b with
  | Ok r =>
    (Ok tt, {| frameStack := fs ++ [set_pc (int (pc f + 1)) f];
               valueStack := vs ++ [r]; store_ := s |})
  | Err e => (Err e, {| frameStack := fs ++ [f]; valueStack := vs; store_ := s |})
  | Panic p => (Panic p, {| frameStack := fs ++ [f]; valueStack := vs; store_ := s |})
  | OutOfFuel => (OutOfFuel, {| frameStack := fs ++ [f]; valueStack := vs; store_ := s |})
  end.
Proof.
  cbn [exec]. unfold opBin_exec, bind.
  change (vs ++ [b; a]) with (vs ++ [b] ++ [a]). rewrite app_assoc.
  rewrite !popValue_push. unfold lift.
  destruct (binFn a b) as [r|e'| |]; try reflexivity.
  unfold pushValue, NextStep. cbn [frameStack valueStack store_].
  rewrite updFrame_push. reflexivity.
Qed.

Lemma opConst_exec_spec v fs f vs s :
  exec (opConst v) {| frameStack := fs ++ [f]; valueStack := vs; store_ := s |} =
  (Ok tt, {| frameStack := fs ++ [set_pc (int (pc f + 1)) f];
             valueStack := vs ++ [v]; store_ := s |}).
Proof.
  cbn [exec]. unfold opConst_exec, bind, pushValue, NextStep.
  cbn [frameStack valueStack store_]. rewrite updFrame_push. reflexivity.
Qed.

(** Two constants and a binary instruction: the function gets the constant
    pushed last as its first argument. *)
Lemma const_const_bin binFn x y fs f vs s :
  pushes_outcome (binFn y x) vs
    (exec_seq [opConst x; opConst y; opBin binFn]
       {| frameStack := fs ++ [f]; valueStack := vs; store_ := s |}).
Proof.
  cbn [exec_seq]. unfold bind at 1. rewrite opConst_exec_spec.
  unfold bind at 1. unfold stack_Push. rewrite opConst_exec_spec.
  unfold bind at 1. rewrite <- app_assoc. cbn [app].
  rewrite opBin_exec_spec. unfold pushes_outcome.
  destruct (binFn y x); cbn [fst snd valueStack ret]; split; reflexivity.
Qed.

(* ================================================================== *)
(** ** The dispatch loop on [nop] and [if] *)

Lemma step_nop fs f vs s pre post :
  insts f = pre ++ Some opNop :: post -> pc f = len pre ->
  step {| frameStack := fs ++ [f]; valueStack := vs; store_ := s |} =
  (Ok tt, {| frameStack := fs ++ [f]; valueStack := vs; store_ := s |}).
Proof.
  intros Hi Hpc. unfold step, bind. rewrite topFrame_push.
  unfold lift. rewrite Hi, Hpc, index_middle. reflexivity.
Qed.

Lemma Execute_nop fs f vs s pre post fuel :
  insts f = pre ++ Some opNop :: post -> pc f = len pre ->
  Execute fuel {| frameStack := fs ++ [f]; valueStack := vs; store_ := s |} =
  (OutOfFuel, {| frameStack := fs ++ [f]; valueStack := vs; store_ := s |}).
Proof.
  intros Hi Hpc.
  assert (stack_isEmpty (fs ++ [f]) = false) as Hne.
  { unfold stack_isEmpty, stack_Len. rewrite len_app. unfold len. cbn [length].
    apply Z.eqb_neq. lia. }
  induction fuel as [|fuel IH]; cbn [Execute frameStack]; rewrite Hne; [reflexivity|].
  rewrite (step_nop _ _ _ _ _ _ Hi Hpc). exact IH.
Qed.

(* ================================================================== *)
(** ** The division and shift claims *)

(** C7: as functions of a dividend and a divisor, [div_s], [div_u], [rem_s]
    and [rem_u] of both widths keep the contract: with the divisor 0 they
    return the error "integer divide by zero", [div_s] of the least integer
    by -1 returns "integer overflow" where [rem_s] returns 0, and otherwise
    they return the truncated quotient and its remainder, for which
    quotient times divisor plus remainder is the dividend.  The
    instruction hands them its operands the other way round: the operand
    pushed last is the dividend.  So [i32.const 7 i32.const 0] followed by
    any of the four returns 0 and no error, 0 divided by 7 fails with
    "integer divide by zero", the least integer divided by -1 returns 0,
    its remainder is -1, -1 divided by the least integer fails with
    "integer overflow", and quotient times divisor plus remainder computed
    in one function on 7 and 2 is 22.  A function that divides its first
    parameter by its second does fail on a second argument of 0: the call
    pushes the arguments in reverse. *)
Theorem C7_division_takes_dividend_from_top :
  carries MinInt32 (2 ^ 31) ValueFromI32 V_I32 /\
  carries MinInt64 (2 ^ 63) ValueFromI64 V_I64 /\
  div_contract MinInt32 (2 ^ 31) ValueFromI32 uint32
               i32DivS i32DivU i32RemS i32RemU i32Mul i32Add /\
  div_contract MinInt64 (2 ^ 63) ValueFromI64 uint64
               i64DivS i64DivU i64RemS i64RemU i64Mul i64Add /\
  Forall (reads_through V_I32 ValueFromI32) [i32DivS; i32DivU; i32RemS; i32RemU] /\
  Forall (reads_through V_I64 ValueFromI64) [i64DivS; i64DivU; i64RemS; i64RemU] /\
  Error errIntegerDivideByZero = "integer divide by zero" /\
  Error errIntegerOverflow = "integer overflow" /\
  (forall binFn x y fs f vs s,
     pushes_outcome (binFn y x) vs
       (exec_seq [opConst x; opConst y; opBin binFn]
          {| frameStack := fs ++ [f]; valueStack := vs; store_ := s |})) /\
  (forall fl,
     run_body fl x7f [x41; x07; x41; x00; x6d] [] 4 = Ok [ValueFromI32 0] /\
     run_body fl x7f [x41; x07; x41; x00; x6e] [] 4 = Ok [ValueFromI32 0] /\
     run_body fl x7f [x41; x07; x41; x00; x6f] [] 4 = Ok [ValueFromI32 0] /\
     run_body fl x7f [x41; x07; x41; x00; x70] [] 4 = Ok [ValueFromI32 0] /\
     run_body fl x7f [x41; x00; x41; x07; x6d] [] 4 = Err errIntegerDivideByZero /\
     run_body fl x7f [x41; x80; x80; x80; x80; x78; x41; x7f; x6d] [] 4 =
       Ok [ValueFromI32 0] /\
     run_body fl x7f [x41; x80; x80; x80; x80; x78; x41; x7f; x6f] [] 4 =
       Ok [ValueFromI32 (-1)] /\
     run_body fl x7f [x41; x7f; x41; x80; x80; x80; x80; x78; x6d] [] 4 =
       Err errIntegerOverflow /\
     run_body fl x7e [x42; x07; x42; x00; x7f] [] 4 = Ok [ValueFromI64 0] /\
     run_body fl x7e [x42; x00; x42; x07; x7f] [] 4 = Err errIntegerDivideByZero /\
     run_body fl x7f [x20; x00; x20; x01; x6d; x20; x01; x6c;
                      x20; x00; x20; x01; x6f; x6a]
              [ValueFromI32 7; ValueFromI32 2] 10 = Ok [ValueFromI32 22] /\
     run_body fl x7f [x20; x00; x20; x01; x6d] [ValueFromI32 7; ValueFromI32 2] 4 =
       Ok [ValueFromI32 3] /\
     run_body fl x7f [x20; x00; x20; x01; x6d] [ValueFromI32 7; ValueFromI32 0] 4 =
       Err errIntegerDivideByZero /\
     run_body fl x7f [x20; x00; x20; x01; x6d] [ValueFromI32 MinInt32; ValueFromI32 (-1)] 4 =
       Err errIntegerOverflow).
Proof.
  split; [exact carries_i32|]. split; [exact carries_i64|].
  split; [exact div_contract_i32|]. split; [exact div_contract_i64|].
  split; [exact div_reads_through_i32|]. split; [exact div_reads_through_i64|].
  split; [reflexivity|]. split; [reflexivity|].
  split; [intros; apply const_const_bin|].
  intros fl. repeat split; vm_compute; reflexivity.
Qed.

Lemma C7_division_takes_dividend_from_top_witness :
  (MinInt32 <= -7 < 2 ^ 31) /\ (MinInt32 <= 2 < 2 ^ 31) /\ 2 <> 0 /\
  ~ (-7 = MinInt32 /\ 2 = -1) /\
  i32DivS (ValueFromI32 (-7)) (ValueFromI32 2) = Ok (ValueFromI32 (Z.quot (-7) 2)) /\
  MinInt32 <= Z.quot (-7) 2 < 2 ^ 31 /\
  Z.quot (-7) 2 * 2 + Z.rem (-7) 2 = -7 /\
  exists p,
    i32Mul (ValueFromI32 (Z.quot (-7) 2)) (ValueFromI32 2) = Ok p /\
    i32Add p (ValueFromI32 (Z.rem (-7) 2)) = Ok (ValueFromI32 (-7)).
Proof.
  assert (MinInt32 <= -7 < 2 ^ 31) as Ha by (vm_compute; split; congruence).
  assert (MinInt32 <= 2 < 2 ^ 31) as Hb by (vm_compute; split; congruence).
  assert (2 <> 0) as Hb0 by discriminate.
  assert (~ (-7 = MinInt32 /\ 2 = -1)) as Hov by (intros [_ H]; discriminate).
  split; [exact Ha|]. split; [exact Hb|]. split; [exact Hb0|]. split; [exact Hov|].
  exact (proj2 (proj2 (proj2
           (proj1 (proj2 (proj2 C7_division_takes_dividend_from_top)) (-7) 2 Ha Hb)))
           Hb0 Hov).
Defined.

(** C8: as functions of a value and an amount, the shifts of both widths
    reduce the amount modulo the width: 1 shifted left by 32 is 1 and by 33
    is 2, on 64 bits by 64 and by 65.  The instruction hands them its
    operands the other way round: the operand pushed last is the value
    shifted and the one under it the amount.  So [i32.const 1 i32.const 32
    i32.shl] returns 64, with 33 it returns 66, and [i32.const 32
    i32.const 1 i32.shl] returns 1.  A function that shifts its first
    parameter by its second does return 1 and 2 on 1 and 32 and on 1 and
    33: the call pushes the arguments in reverse. *)
Theorem C8_shift_takes_amount_from_under_top :
  carries MinInt32 (2 ^ 31) ValueFromI32 V_I32 /\
  carries MinInt64 (2 ^ 63) ValueFromI64 V_I64 /\
  shifts_masked 32 MinInt32 (2 ^ 31) ValueFromI32 int32 uint32 i32Shl i32ShrS i32ShrU /\
  shifts_masked 64 MinInt64 (2 ^ 63) ValueFromI64 int64 uint64 i64Shl i64ShrS i64ShrU /\
  Forall (reads_through V_I32 ValueFromI32) [i32Shl; i32ShrS; i32ShrU] /\
  Forall (reads_through V_I64 ValueFromI64) [i64Shl; i64ShrS; i64ShrU] /\
  i32Shl (ValueFromI32 1) (ValueFromI32 32) = Ok (ValueFromI32 1) /\
  i32Shl (ValueFromI32 1) (ValueFromI32 33) = Ok (ValueFromI32 2) /\
  i64Shl (ValueFromI64 1) (ValueFromI64 64) = Ok (ValueFromI64 1) /\
  i64Shl (ValueFromI64 1) (ValueFromI64 65) = Ok (ValueFromI64 2) /\
  (forall binFn x y fs f vs s,
     pushes_outcome (binFn y x) vs
       (exec_seq [opConst x; opConst y; opBin binFn]
          {| frameStack := fs ++ [f]; valueStack := vs; store_ := s |})) /\
  (forall fl,
     run_body fl x7f [x41; x01; x41; x20; x74] [] 4 = Ok [ValueFromI32 64] /\
     run_body fl x7f [x41; x01; x41; x21; x74] [] 4 = Ok [ValueFromI32 66] /\
     run_body fl x7f [x41; x20; x41; x01; x74] [] 4 = Ok [ValueFromI32 1] /\
     run_body fl x7e [x42; x01; x42; xc0; x00; x86] [] 4 = Ok [ValueFromI64 128] /\
     run_body fl x7e [x42; x01; x42; xc1; x00; x86] [] 4 = Ok [ValueFromI64 130] /\
     call_export fl shl_module "shl" [ValueFromI32 1; ValueFromI32 32] 4 =
       Ok [ValueFromI32 1] /\
     call_export fl shl_module "shl" [ValueFromI32 1; ValueFromI32 33] 4 =
       Ok [ValueFromI32 2]).
Proof.
  split; [exact carries_i32|]. split; [exact carries_i64|].
  split; [exact shifts_masked_i32|]. split; [exact shifts_masked_i64|].
  split; [exact shift_reads_through_i32|]. split; [exact shift_reads_through_i64|].
  do 4 (split; [vm_compute; reflexivity|]).
  split; [intros; apply const_const_bin|].
  intros fl. repeat split; vm_compute; reflexivity.
Qed.

Lemma C8_shift_takes_amount_from_under_top_witness :
  (MinInt32 <= -8 < 2 ^ 31) /\ (MinInt32 <= 33 < 2 ^ 31) /\
  i32Shl (ValueFromI32 (-8)) (ValueFromI32 33) = Ok (ValueFromI32 (int32 (-8 * 2 ^ (33 mod 32)))) /\
  i32ShrS (ValueFromI32 (-8)) (ValueFromI32 33) = Ok (ValueFromI32 (-8 / 2 ^ (33 mod 32))) /\
  i32ShrU (ValueFromI32 (-8)) (ValueFromI32 33) =
    Ok (ValueFromI32 (uint32 (-8) / 2 ^ (33 mod 32))).
Proof.
  assert (MinInt32 <= -8 < 2 ^ 31) as Ha by (vm_compute; split; congruence).
  assert (MinInt32 <= 33 < 2 ^ 31) as Hb by (vm_compute; split; congruence).
  split; [exact Ha|]. split; [exact Hb|].
  exact (proj1 (proj2 (proj2 C8_shift_takes_amount_from_under_top)) (-8) 33 Ha Hb).
Defined.

(* ================================================================== *)
(** ** Loads *)

(** Inside the [int32] range the accessors test the bounds as written and
    read the [n] bytes at [addr]. *)
Lemma mem_load_in_range (n : nat) (m : memInst) (addr : Z) :
  len (m_data m) < 2 ^ 31 -> 0 <= addr -> addr + Z.of_nat n < 2 ^ 31 ->
  mem_load n m addr =
  if len (m_data m) <? addr + Z.of_nat n then Err errOutOfBounds
  else Ok (le_decode (take n (drop (Z.to_nat addr) (m_data m)))).
Proof.
  intros Hlen Haddr Hend. unfold mem_load, mem_oob, int32.
  assert (0 <= len (m_data m)) by (unfold len; lia).
  rewrite !(wraps_small 32) by lia.
  destruct (Z.ltb_spec addr 0); [lia|]. cbn [orb].
  destruct (Z.ltb_spec (len (m_data m)) (addr + Z.of_nat n)); [reflexivity|].
  unfold slice_from. fold (len (m_data m)).
  destruct (Z.ltb_spec addr 0); [lia|].
  destruct (Z.ltb_spec (len (m_data m)) addr); [lia|]. cbn [orb rbind].
  unfold binary_Read. rewrite length_drop.
  destruct (Nat.ltb_spec (length (m_data m) - Z.to_nat addr) n); [unfold len in *; lia|].
  reflexivity.
Qed.

(** [opLoad.exec] on a machine with a default memory: the two tests of the
    method, then the outcome of the load function at base plus offset. *)
Lemma opLoad_exec_spec fs f md a mem vs base s align offset loadFn :
  f_mod f = Some md -> defaultMemAddr md = Ok a -> index (mems s) a = Ok mem ->
  exec (opLoad align offset loadFn)
    {| frameStack := fs ++ [f]; valueStack := vs ++ [base]; store_ := s |} =
  if (V_I32 base <? 0) || (offset <? 0)
  then (Err errOutOfBounds, {| frameStack := fs ++ [f]; valueStack := vs; store_ := s |})
  else
    match loadFn mem (int32 (V_I32 base + offset)) align with
    | Ok v =>
      (Ok tt, {| frameStack := fs ++ [set_pc (int (pc f + 1)) f];
                 valueStack := vs ++ [v]; store_ := s |})
    | Err e => (Err e, {| frameStack := fs ++ [f]; valueStack := vs; store_ := s |})
    | Panic p => (Panic p, {| frameStack := fs ++ [f]; valueStack := vs; store_ := s |})
    | OutOfFuel => (OutOfFuel, {| frameStack := fs ++ [f]; valueStack := vs; store_ := s |})
    end.
Proof.
  intros Hmod Haddr Hmem. cbn [exec]. unfold opLoad_exec, bind at 1.
  rewrite topFrame_push. unfold bind at 1.
  unfold defaultMem, frameMod, bind, lift, get, ret. rewrite Hmod. cbn [store_].
  rewrite Haddr, Hmem, popValue_push.
  destruct ((V_I32 base <? 0) || (offset <? 0)); [reflexivity|].
  destruct (loadFn mem (int32 (V_I32 base + offset)) align); try reflexivity.
  unfold pushValue, NextStep. cbn [frameStack valueStack store_].
  rewrite updFrame_push. reflexivity.
Qed.

(* ================================================================== *)
(** ** Store instructions never fail *)

Lemma never_ret {A} (a : A) : never_errs (ret a).
Proof. intros st e. discriminate. Qed.

Lemma never_crash {A} p : never_errs (@crash machine A p).
Proof. intros st e. discriminate. Qed.

Lemma never_get : never_errs (@get machine).
Proof. intros st e. discriminate. Qed.

Lemma never_bind {A B} (m : M A) (k : A -> M B) :
  never_errs m -> (forall a, never_errs (k a)) -> never_errs (bind m k).
Proof.
  intros Hm Hk st e. unfold bind. specialize (Hm st).
  destruct (m st) as [[a| | |] st']; cbn [fst] in *; try discriminate.
  - apply Hk.
  - intros H. apply (Hm e0). congruence.
Qed.

Lemma index_not_err {A} (l : list A) i e : index l i <> Err e.
Proof.
  unfold index. destruct (_ || _); [discriminate|]. destruct (l !! _); discriminate.
Qed.

Lemma never_lift_index {A} (l : list A) i : never_errs (lift (index l i)).
Proof. intros st e. apply index_not_err. Qed.

Lemma never_lift_drop_error r : never_errs (lift (drop_error r)).
Proof. intros st e. unfold lift. cbn [fst]. destruct r; discriminate. Qed.

Lemma never_topFrame : never_errs topFrame.
Proof.
  intros st e. unfold topFrame, stack_Top, stack_Peek.
  destruct (stack_isEmpty _); [discriminate|].
  pose proof (index_not_err (frameStack st) (len (frameStack st) - 1 - 0)) as H.
  destruct (index _ _) as [f|e'| |]; cbn [rbind fst]; try discriminate.
  exfalso. apply (H e'). reflexivity.
Qed.

Lemma never_updFrame g : never_errs (updFrame g).
Proof. intros st e. unfold updFrame. destruct (frameStack st); discriminate. Qed.

Lemma never_popValue : never_errs popValue.
Proof.
  intros st e. unfold popValue. destruct (stack_Pop _ _) as [[v ok] s]. discriminate.
Qed.

Lemma never_defaultMem f : never_errs (defaultMem f).
Proof.
  unfold defaultMem, frameMod, defaultMemAddr.
  repeat first [ apply never_bind; [|intros]
               | apply never_lift_index | apply never_get | apply never_ret ].
  destruct (f_mod f); [apply never_ret|apply never_crash].
Qed.

Lemma opStore_never_errs fl :
  Forall (fun storeFn => forall offset align,
            never_errs (opStore_exec offset align storeFn))
         (store_fns fl).
Proof.
  unfold store_fns. repeat constructor; intros offset align; unfold opStore_exec;
    (apply never_bind; [apply never_topFrame|intros frame]);
    (apply never_bind; [apply never_defaultMem|intros [a mem]]);
    (apply never_bind; [apply never_popValue|intros value]);
    (apply never_bind; [|intros; apply never_updFrame]);
    apply never_lift_drop_error.
Qed.

(* ================================================================== *)
(** ** The claims about single instructions *)

(** C1: a store instruction leaves every byte of the memory as it was:
    [opStore.exec] changes nothing in the store, whatever function it
    carries.  Through a module, [i32.store] of 0x01020304 at address 0 and
    then [i32.load8_u] gives 0 at address 0 and 0 at address 3; on a
    machine, a store whose one popped operand is both an address inside the
    memory and the value is followed by a load of 0 there. *)
Theorem C1_store_leaves_memory :
  (forall offset align storeFn, keeps_store (opStore_exec offset align storeFn)) /\
  (forall fl,
     read_i32s (call_export fl store_module "f" [ValueFromI32 0] 7) = Ok [0] /\
     read_i32s (call_export fl store_module "f" [ValueFromI32 3] 7) = Ok [0]) /\
  (let '(r, st) :=
     exec_seq [opConst (ValueFromI32 0x0104); opStore 0 2 i32store;
               opConst (ValueFromI32 0x0104); opLoad 0 0 i32load8U]
              (test_machine [] 0 [] [] plain_store) in
   (r, stack_i32s st)) = (Ok tt, [0]).
Proof.
  split; [|split].
  - intros offset align storeFn.
    apply (exec_keeps_store (opStore offset align storeFn)). discriminate.
  - intros fl. split; vm_compute; reflexivity.
  - vm_compute. reflexivity.
Qed.

(** C2: [memory.grow] leaves the store's memory at its size and pushes a
    value with an empty payload, which reads as 0: from one page without a
    maximum, growing by 2 pushes 0 and [memory.size] then pushes 65536, the
    size in bytes of the one page; growing past a maximum pushes 0 as well.
    The method [grow] itself does grow the instance it is called on.
    Through a module, both instructions end in "unreachable", the decoder
    reading their reserved byte as the next opcode. *)
Theorem C2_memory_grow_is_lost :
  keeps_store opMemoryGrow_exec /\
  (let '(r, st) := exec_seq [opMemoryGrow; opMemorySize]
                     (test_machine [] 0 [] [ValueFromI32 2] plain_store) in
   (r, stack_i32s st, map memInst_pages (mems (store_ st)))) = (Ok tt, [0; 65536], [1]) /\
  (let '(r, st) := exec_seq [opMemoryGrow]
                     (test_machine [] 0 [] [ValueFromI32 1]
                        (test_store (test_mem 1 1) (test_global I32 var_ (ValueFromI32 0)))) in
   (r, stack_i32s st, map memInst_pages (mems (store_ st)))) = (Ok tt, [0], [1]) /\
  rbind (memInst_grow (test_mem 1 (-1)) 2) (fun m => Ok (memInst_pages m)) = Ok 3 /\
  (forall fl,
     call_export fl grow_module "grow" [ValueFromI32 2] 4 = Err (Errorf "unreachable") /\
     call_export fl grow_module "size" [] 4 = Err (Errorf "unreachable")).
Proof.
  split; [apply (exec_keeps_store opMemoryGrow); discriminate|].
  split; [lazy; reflexivity|].
  split; [lazy; reflexivity|].
  split; [lazy; reflexivity|].
  intros fl. split; vm_compute; reflexivity.
Qed.

(** C3: [nop] returns without touching the frame, so the dispatch loop
    fetches it again: whatever the fuel, [Execute] does not get past a
    [nop], on any machine and through a module; and [if] on a non-zero
    condition leaves the pc on the [if]. *)
Theorem C3_nop_never_advances :
  (forall st, exec opNop st = (Ok tt, st)) /\
  (forall fs sp0 ls md vs s pre post fuel,
     let st :=
       {| frameStack :=
            fs ++ [{| pc := len pre; sp := sp0; insts := pre ++ Some opNop :: post;
                      labels := ls; f_mod := md |}];
          valueStack := vs; store_ := s |} in
     Execute fuel st = (OutOfFuel, st)) /\
  (forall fl fuel, call_export fl nop_module "f" [] fuel = OutOfFuel) /\
  (let b := {| blockType_ := blockTypeEmpty; b_valType := [] |} in
   let '(r, st) := exec (opIf b)
                     (test_machine [Some (opIf b); Some opNop; Some opEnd] 0 [] [ValueFromI32 1]
                        zeroStore) in
   (r, top_pc st, stack_i32s st)) = (Ok tt, Some 0, []).
Proof.
  split; [reflexivity|].
  split; [intros; apply Execute_nop with (pre := pre) (post := post); reflexivity|].
  split; [|vm_compute; reflexivity].
  intros fl fuel. unfold call_export.
  assert (exists i fn,
            NewInterpreter fl nop_module = Ok i /\ GetFunc i "f" = Ok fn /\
            i_frameStack i = [] /\
            body (code (fi_internalFunc fn)) = [] ++ Some opNop :: [Some opEnd])
    as (i & fn & Hi & Hfn & Hfs & Hbody).
  { do 2 eexists. split; [vm_compute; reflexivity|].
    split; [vm_compute; reflexivity|]. split; reflexivity. }
  rewrite Hi. cbn [rbind]. rewrite Hfn. cbn [rbind].
  unfold invoke. rewrite Hfs. unfold stack_Push.
  erewrite (Execute_nop [] _ _ _ [] [Some opEnd] fuel); [reflexivity|exact Hbody|reflexivity].
Qed.

(** C4: a store instruction with any of the store functions of the source
    returns no error on any machine: with the base operand -1 under the
    value, [i32.store] returns nil.  A load whose address is the greatest
    [int32] passes the bounds test, whose sum wraps, and panics on the
    slice. *)
Theorem C4_store_never_traps :
  (forall fl,
     Forall (fun storeFn => forall offset align,
               never_errs (opStore_exec offset align storeFn))
            (store_fns fl)) /\
  (let '(r, st) := exec (opStore 0 2 i32store)
                     (test_machine [] 0 [] [ValueFromI32 (-1); ValueFromI32 7] plain_store) in
   (r, stack_i32s st)) = (Ok tt, [-1]) /\
  fst (exec (opStore 0 2 i32store)
         (test_machine [] 0 [] [ValueFromI32 0; ValueFromI32 0x10000] plain_store)) = Ok tt /\
  fst (exec (opLoad 0 0 i32load8U)
         (test_machine [] 0 [] [ValueFromI32 0x7FFFFFFF] plain_store)) =
    Panic SliceBoundsOutOfRange.
Proof.
  split; [apply opStore_never_errs|].
  repeat split; vm_compute; reflexivity.
Qed.

(** C6: [global.set] assigns to a copy of the global: the store is the same
    after it, and [global.set 0] of 5 followed by [global.get 0] pushes the
    global's old value 0 next to the 5 that was never popped.  On a const
    global and on a value of another type it returns its error. *)
Theorem C6_global_set_is_lost :
  (forall i, keeps_store (opGlobalSet_exec i)) /\
  (let '(r, st) := exec_seq [opGlobalSet 0; opGlobalGet 0]
                     (test_machine [] 0 [] [ValueFromI32 5]
                        (test_store (test_mem 0 (-1)) (test_global I32 var_ (ValueFromI32 0)))) in
   (r, stack_i32s st)) = (Ok tt, [5; 0]) /\
  fst (exec (opGlobalSet 0)
         (test_machine [] 0 [] [ValueFromI32 5]
            (test_store (test_mem 0 (-1)) (test_global I32 const_ (ValueFromI32 0))))) =
    Err (Errorf "global[0] is a const value") /\
  fst (exec (opGlobalSet 0)
         (test_machine [] 0 [] [ValueFromI64 5]
            (test_store (test_mem 0 (-1)) (test_global I32 var_ (ValueFromI32 0))))) =
    Err (Errorf "global[0] and value types do not match ").
Proof.
  split; [intros i; apply (exec_keeps_store (opGlobalSet i)); discriminate|].
  repeat split; vm_compute; reflexivity.
Qed.

(* ================================================================== *)
(** ** Branches *)

Lemma stack_Peek_at {T} (zero : T) (below above : stack T) (x : T) :
  stack_Peek zero (below ++ x :: above) (len above) = Ok (x, true).
Proof.
  unfold stack_Peek, stack_isEmpty, stack_Len.
  assert (len (below ++ x :: above) = len below + 1 + len above) as E.
  { rewrite len_app. unfold len. cbn [length]. lia. }
  rewrite E.
  destruct (Z.eqb_spec (len below + 1 + len above) 0); [unfold len in *; lia|].
  replace (len below + 1 + len above - 1 - len above) with (len below) by lia.
  rewrite index_middle. reflexivity.
Qed.

(** C5: [br L] finds the L-th label from the top of the frame's label
    stack and sets the pc to its startPc when it is a loop label and to its
    endPc otherwise, and that is all it does: the label stack, the operand
    stack and the store stay as they are, no label is popped.  After [br 0]
    on a frame with one block label the label is still there.  In [block
    block br 1 end i32.const 7 end i32.const 9 end] the branch to the outer
    block lands on the [end] at 5 with both labels still on the stack: that
    [end] pops the inner label and sends the pc back to 3, the [end] there
    pops the outer label and sends it to 5 again, and the function returns
    with nothing on the operand stack, the constant after the outer block
    never pushed. *)
Theorem C5_br_pops_no_label :
  (forall fs f vs s below above l L,
     labels f = below ++ l :: above ->
     L = len above ->
     L < 2 ^ 63 ->
     exec (opBr L) {| frameStack := fs ++ [f]; valueStack := vs; store_ := s |} =
     (Ok tt,
      {| frameStack :=
           fs ++ [{| pc := branch_target l; sp := sp f; insts := insts f;
                     labels := below ++ l :: above; f_mod := f_mod f |}];
         valueStack := vs; store_ := s |})) /\
  (let lbl := {| l_kind := LabelKindBlock; startPc := 0; endPc := 5 |} in
   exists st',
     exec (opBr 0) (test_machine [] 0 [lbl] [] zeroStore) = (Ok tt, st') /\
     top_pc st' = Some 5 /\
     top_labels st' = Some [lbl] /\
     top_labels st' <> Some (labels_popped [lbl] 0)) /\
  fetched_pcs 10 (test_machine nested_blocks 0 [] [] zeroStore) = [0; 1; 2; 5; 3; 5] /\
  Execute 10 (test_machine nested_blocks 0 [] [] zeroStore) =
    (Ok tt, {| frameStack := []; valueStack := []; store_ := zeroStore |}).
Proof.
  split; [|split; [|split]].
  - intros fs f vs s below above l L Hls HL Hmax.
    cbn [exec]. unfold opBr_exec, branch, bind.
    assert (int L = L) as ->.
    { apply (wraps_small 64); [lia|]. unfold len in HL. lia. }
    rewrite topFrame_push. unfold br.
    rewrite Hls, HL, stack_Peek_at. cbn [rbind negb].
    fold (branch_target l). rewrite updFrame_push.
    unfold set_pc. rewrite Hls. reflexivity.
  - intros lbl. eexists. split; [vm_compute; reflexivity|].
    split; [reflexivity|]. split; [reflexivity|]. discriminate.
  - vm_compute. reflexivity.
  - vm_compute. reflexivity.
Qed.

Lemma C5_br_pops_no_label_witness :
  let inner := {| l_kind := LabelKindLoop; startPc := 2; endPc := 9 |} in
  let outer := {| l_kind := LabelKindBlock; startPc := 0; endPc := 12 |} in
  exec (opBr 1) (test_machine [] 5 [outer; inner] [] zeroStore) =
    (Ok tt, test_machine [] 12 [outer; inner] [] zeroStore) /\
  exec (opBr 0) (test_machine [] 5 [outer; inner] [] zeroStore) =
    (Ok tt, test_machine [] 2 [outer; inner] [] zeroStore).
Proof.
  intros inner outer.
  pose (f := {| pc := 5; sp := 0; insts := []; labels := [outer; inner];
                f_mod := Some test_mod |}).
  split.
  - exact (proj1 C5_br_pops_no_label [] f [] zeroStore [] [inner] outer 1
             eq_refl eq_refl ltac:(lia)).
  - exact (proj1 C5_br_pops_no_label [] f [] zeroStore [outer] [] inner 0
             eq_refl eq_refl ltac:(lia)).
Defined.

(* ================================================================== *)
(** ** Opcodes the decoder has no instruction for *)

Lemma eatU8_at pre post op :
  eatU8 {| bytes := pre ++ op :: post; pos := len pre |} =
  (Ok (byte_to_Z op), {| bytes := pre ++ op :: post; pos := len pre + 1 |}).
Proof.
  rewrite eatU8_spec by (cbn [pos]; unfold len; lia).
  cbn [bytes pos]. unfold len. rewrite Nat2Z.id, drop_app_length. reflexivity.
Qed.

Ltac stub_decodes :=
  split;
  [ intros pre post; unfold parse_instr, bind;
    rewrite eatU8_at, byte_of_to_Z; reflexivity
  | do 2 eexists;
    split; [vm_compute; reflexivity|];
    split; [vm_compute; reflexivity|];
    split; [reflexivity|];
    intros fuel; vm_compute; reflexivity ].

(** C10: for each opcode whose case in [parser.instr] is empty, decoding
    returns a nil instruction without an error wherever the opcode stands,
    [NewInterpreter] accepts a module whose function body is that opcode,
    the body holding nil at its place, and calling the function panics on
    the nil instruction instead of returning an error. *)
Theorem C10_stub_opcodes_decode_to_nil :
  forall fl, Forall (stub_decodes fl) stub_opcodes.
Proof.
  intros fl. unfold stub_opcodes.
  repeat match goal with
         | |- Forall _ (_ :: _) => constructor
         | |- Forall _ [] => constructor
         end.
  all: stub_decodes.
Qed.
(* ================================================================== *)
(** * Further properties of the code *)

(** ** stack.go *)

(** [Push] then [Pop] gives back the value and the stack, [Top] sees the
    value pushed last, [Len] counts the pushes, and [Pop] on the empty
    stack hands out the zero value with [false] and leaves it empty. *)
Theorem stack_push_pop_laws {T} (zero : T) (s : stack T) (v : T) :
  stack_Pop zero (stack_Push s v) = (v, true, s) /\
  stack_Top zero (stack_Push s v) = Ok (v, true) /\
  stack_Len (stack_Push s v) = stack_Len s + 1 /\
  stack_isEmpty (stack_Push s v) = false /\
  stack_Pop zero (@nil T) = (zero, false, []) /\
  stack_Top zero (@nil T) = Ok (zero, false).
Proof.
  unfold stack_Push.
  split; [apply stack_Pop_push|].
  split; [apply stack_Top_push|].
  split; [unfold stack_Len; rewrite len_app; reflexivity|].
  split; [|split; reflexivity].
  unfold stack_isEmpty, stack_Len. rewrite len_app.
  apply Z.eqb_neq. unfold len. cbn [length]. lia.
Qed.

(** [Peek] counts its depth from the top: inside the stack it hands out
    that slot, on the empty stack the zero value with [false], and at a
    depth that is negative or not below the length of a non-empty stack it
    panics on the index. *)
Theorem stack_Peek_depth {T} (zero : T) (s : stack T) (depth : Z) :
  stack_Peek zero s depth =
  if stack_isEmpty s then Ok (zero, false)
  else if (0 <=? depth) && (depth <? stack_Len s)
       then Ok (nth (Z.to_nat depth) (rev s) zero, true)
       else Panic IndexOutOfRange.
Proof.
  unfold stack in s.
  unfold stack_Peek. destruct (stack_isEmpty s); [reflexivity|].
  unfold index, stack_Len, len.
  destruct (Z.leb_spec 0 depth) as [H0|H0];
    destruct (Z.ltb_spec depth (Z.of_nat (length s))) as [H1|H1]; cbn [andb].
  - destruct (Z.ltb_spec (Z.of_nat (length s) - 1 - depth) 0); [lia|].
    destruct (Z.leb_spec (Z.of_nat (length s)) (Z.of_nat (length s) - 1 - depth)); [lia|].
    cbn [orb].
    rewrite rev_nth by lia.
    replace (length s - S (Z.to_nat depth))%nat
      with (Z.to_nat (Z.of_nat (length s) - 1 - depth)) by lia.
    destruct (s !! Z.to_nat (Z.of_nat (length s) - 1 - depth)) as [x|] eqn:E.
    + cbn [rbind]. rewrite (nth_lookup_Some _ _ zero _ E). reflexivity.
    + apply lookup_ge_None in E. lia.
  - destruct (Z.ltb_spec (Z.of_nat (length s) - 1 - depth) 0); [reflexivity|lia].
  - destruct (Z.ltb_spec (Z.of_nat (length s) - 1 - depth) 0); [lia|].
    destruct (Z.leb_spec (Z.of_nat (length s)) (Z.of_nat (length s) - 1 - depth));
      [reflexivity|lia].
  - lia.
Qed.

(** [Set] followed by [Get] on the same slot reads the value back, keeps
    the length and leaves the other slots alone. *)
Theorem stack_Set_Get {T} (s : stack T) (sp idx : Z) (v : T) :
  0 <= sp + idx < stack_Len s ->
  exists s',
    stack_Set s sp idx v = Ok s' /\
    stack_Len s' = stack_Len s /\
    stack_Get s' sp idx = Ok (Some v) /\
    forall j, j <> idx -> stack_Get s' sp j = stack_Get s sp j.
Proof.
  unfold stack in s. unfold stack_Len, len. intros H.
  exists (<[Z.to_nat (sp + idx) := v]> s).
  assert (forall k, stack_Get (<[Z.to_nat (sp + idx) := v]> s) sp k =
                    if Z.eqb k idx then Ok (Some v) else stack_Get s sp k) as Hget.
  { intros k. unfold stack_Get, stack_Len, len, index. rewrite length_insert.
    destruct (Z.eqb_spec k idx) as [->|Hk].
    - destruct (Z.leb_spec (Z.of_nat (length s)) (sp + idx)); [lia|].
      destruct (Z.ltb_spec (sp + idx) 0); [lia|]. cbn [orb].
      rewrite list_lookup_insert_eq by lia. reflexivity.
    - destruct (Z.leb_spec (Z.of_nat (length s)) (sp + k)); [reflexivity|].
      destruct (Z.ltb_spec (sp + k) 0); [reflexivity|]. cbn [orb].
      rewrite list_lookup_insert_ne by lia. reflexivity. }
  split; [|split; [|split]].
  - unfold stack_Set, set_index.
    destruct (Z.ltb_spec (sp + idx) 0); [lia|].
    destruct (Z.leb_spec (Z.of_nat (length s)) (sp + idx)); [lia|]. reflexivity.
  - rewrite length_insert. reflexivity.
  - rewrite Hget, Z.eqb_refl. reflexivity.
  - intros j Hj. rewrite Hget. destruct (Z.eqb_spec j idx); [contradiction|reflexivity].
Qed.

Lemma stack_Set_Get_witness :
  0 <= 1 + 1 < stack_Len [10; 20; 30; 40] /\
  exists s',
    stack_Set [10; 20; 30; 40] 1 1 7 = Ok s' /\
    stack_Len s' = stack_Len [10; 20; 30; 40] /\
    stack_Get s' 1 1 = Ok (Some 7) /\
    forall j, j <> 1 -> stack_Get s' 1 j = stack_Get [10; 20; 30; 40] 1 j.
Proof.
  assert (0 <= 1 + 1 < stack_Len [10; 20; 30; 40]) as H by (vm_compute; split; congruence).
  split; [exact H|]. exact (stack_Set_Get [10; 20; 30; 40] 1 1 7 H).
Defined.

(** Outside the slice: [Set] panics on the index, [Get] hands out nil with
    [false] at or past the length and panics below the first slot. *)
Theorem stack_slot_bounds {T} (s : stack T) (sp idx : Z) (v : T) :
  (stack_Set s sp idx v = Panic IndexOutOfRange <-> ~ 0 <= sp + idx < stack_Len s) /\
  (stack_Get s sp idx = Ok None <-> stack_Len s <= sp + idx) /\
  (stack_Get s sp idx = Panic IndexOutOfRange <-> sp + idx < 0).
Proof.
  unfold stack in s.
  unfold stack_Set, stack_Get, set_index, index, stack_Len, len.
  destruct (Z.ltb_spec (sp + idx) 0) as [Hn|Hn];
    destruct (Z.leb_spec (Z.of_nat (length s)) (sp + idx)) as [Hl|Hl]; cbn [orb rbind].
  - lia.
  - repeat split; intros; try lia; try discriminate; reflexivity.
  - repeat split; intros; try lia; try discriminate; reflexivity.
  - destruct (s !! Z.to_nat (sp + idx)) as [x|] eqn:E.
    + cbn [rbind]. repeat split; intros; try lia; discriminate.
    + apply lookup_ge_None in E. lia.
Qed.

(* ================================================================== *)
(** ** instance.go: values and their accessors *)

Lemma le_encode_take (n m : nat) (z : Z) :
  take n (le_encode (n + m) z) = le_encode n z.
Proof.
  revert z. induction n as [|n IH]; intros z; [apply take_0|].
  cbn [Nat.add le_encode take]. f_equal. apply IH.
Qed.

Lemma read_prefix (n m : nat) (z : Z) :
  read_or_zero n (le_encode (n + m) z) = z mod 256 ^ Z.of_nat n.
Proof.
  unfold read_or_zero, binary_Read. rewrite le_encode_length.
  destruct (Nat.ltb_spec (n + m) n); [lia|].
  rewrite le_encode_take. apply le_decode_encode.
Qed.

(** An accessor reads back what the constructor of its own width wrote, cut
    to the width.  [I32] on a 64-bit value reads its low 32 bits; [I64] and
    [F64] on a 32-bit value find too few bytes, drop the error of the read
    and return 0. *)
Theorem Value_accessors_read_back (z : Z) :
  V_I32 (ValueFromI32 z) = int32 z /\
  V_I64 (ValueFromI64 z) = int64 z /\
  V_F32 (ValueFromF32 z) = uint32 z /\
  V_F64 (ValueFromF64 z) = uint64 z /\
  V_I32 (ValueFromI64 z) = int32 z /\
  V_I64 (ValueFromI32 z) = 0 /\
  V_F64 (ValueFromF32 z) = 0.
Proof.
  split; [apply V_I32_FromI32|]. split; [apply V_I64_FromI64|].
  split; [apply (read_written 4)|]. split; [apply (read_written 8)|].
  split; [|split; reflexivity].
  unfold V_I32, ValueFromI64, written. cbn [binary_Write data].
  rewrite (read_prefix 4 4). apply (wraps_wrapu 32). lia.
Qed.

(* ================================================================== *)
(** ** instr_numeric.go: integer arithmetic *)

Lemma wraps_sub_l w x y : 0 < w -> wraps w (wraps w x - y) = wraps w (x - y).
Proof.
  intros Hw. replace (wraps w x - y) with (wraps w x + - y) by lia.
  rewrite wraps_add_l by assumption. reflexivity.
Qed.

Lemma wraps_arith_i32 :
  wraps_arith MinInt32 (2 ^ 31) ValueFromI32 int32 i32Add i32Sub i32Mul.
Proof.
  intros a b Ha Hb. unfold MinInt32 in *. unfold i32Add, i32Sub, i32Mul.
  rewrite !(proj1 carries_i32 _ (int32_range _)).
  rewrite !(proj1 carries_i32 a Ha), !(proj1 carries_i32 b Hb).
  do 3 (split; [reflexivity|]).
  change (ValueFrom (any_int32 ?z) I32) with (ValueFromI32 z).
  unfold int32. rewrite (wraps_sub_l 32), (wraps_add_l 32) by lia.
  replace (a + b - b) with a by lia. replace (a - b + b) with a by lia.
  rewrite (wraps_small 32 ltac:(lia) a) by lia. split; reflexivity.
Qed.

Lemma wraps_arith_i64 :
  wraps_arith MinInt64 (2 ^ 63) ValueFromI64 int64 i64Add i64Sub i64Mul.
Proof.
  intros a b Ha Hb. unfold MinInt64 in *. unfold i64Add, i64Sub, i64Mul.
  rewrite !(proj1 carries_i64 _ (int64_range _)).
  rewrite !(proj1 carries_i64 a Ha), !(proj1 carries_i64 b Hb).
  do 3 (split; [reflexivity|]).
  change (ValueFrom (any_int64 ?z) I64) with (ValueFromI64 z).
  unfold int64. rewrite (wraps_sub_l 64), (wraps_add_l 64) by lia.
  replace (a + b - b) with a by lia. replace (a - b + b) with a by lia.
  rewrite (wraps_small 64 ltac:(lia) a) by lia. split; reflexivity.
Qed.

(** [add], [sub] and [mul] compute in the integers and wrap the result to
    the width, and subtracting what was added, or adding what was
    subtracted, gives the first operand back, overflow or not. *)
Theorem integer_add_sub_mul_wrap :
  wraps_arith MinInt32 (2 ^ 31) ValueFromI32 int32 i32Add i32Sub i32Mul /\
  wraps_arith MinInt64 (2 ^ 63) ValueFromI64 int64 i64Add i64Sub i64Mul /\
  i32Add (ValueFromI32 (2 ^ 31 - 1)) (ValueFromI32 1) = Ok (ValueFromI32 MinInt32) /\
  i64Mul (ValueFromI64 (2 ^ 32)) (ValueFromI64 (2 ^ 32)) = Ok (ValueFromI64 0).
Proof.
  split; [apply wraps_arith_i32|]. split; [apply wraps_arith_i64|].
  split; vm_compute; reflexivity.
Qed.

Lemma integer_add_sub_mul_wrap_witness :
  (MinInt32 <= 2 ^ 31 - 1 < 2 ^ 31) /\ (MinInt32 <= 5 < 2 ^ 31) /\
  i32Add (ValueFromI32 (2 ^ 31 - 1)) (ValueFromI32 5) =
    Ok (ValueFromI32 (int32 (2 ^ 31 - 1 + 5))) /\
  i32Sub (ValueFromI32 (int32 (2 ^ 31 - 1 + 5))) (ValueFromI32 5) =
    Ok (ValueFromI32 (2 ^ 31 - 1)).
Proof.
  assert (MinInt32 <= 2 ^ 31 - 1 < 2 ^ 31) as Ha by (vm_compute; split; congruence).
  assert (MinInt32 <= 5 < 2 ^ 31) as Hb by (vm_compute; split; congruence).
  split; [exact Ha|]. split; [exact Hb|].
  pose proof (proj1 integer_add_sub_mul_wrap (2 ^ 31 - 1) 5 Ha Hb) as H.
  split; [exact (proj1 H)|exact (proj1 (proj2 (proj2 (proj2 H))))].
Defined.

(** *** Rotations *)

Section Rotate.
Variable w : Z.
Hypothesis w_pos : 0 < w.

(** Rotation to the left and to the right on [w] bits, as [math/bits] and
    the two functions of the source compute them. *)
Let rotl (x s : Z) : Z := Z.lor (wrapu w (Z.shiftl x s)) (Z.shiftr x (w - s)).
Let rotr (x s : Z) : Z := Z.lor (Z.shiftr x s) (wrapu w (Z.shiftl x (w - s))).

Lemma testbit_high x n : 0 <= x < 2 ^ w -> w <= n -> Z.testbit x n = false.
Proof.
  intros Hx Hn. rewrite <- (Z.mod_small x (2 ^ w)) by lia.
  apply Z.mod_pow2_bits_high. lia.
Qed.

Lemma bits_bounded y :
  0 <= y -> (forall n, w <= n -> Z.testbit y n = false) -> 0 <= y < 2 ^ w.
Proof.
  intros Hy Hhigh. split; [assumption|].
  replace y with (y mod 2 ^ w); [apply Z.mod_pos_bound, Z.pow_pos_nonneg; lia|].
  apply Z.bits_inj'. intros n Hn. rewrite Z.testbit_mod_pow2 by lia.
  destruct (Z.ltb_spec n w); [reflexivity|]. symmetry. apply Hhigh. lia.
Qed.

Lemma testbit_rotl x s n :
  0 <= x < 2 ^ w -> 0 <= s < w -> 0 <= n ->
  Z.testbit (rotl x s) n =
  if n <? s then Z.testbit x (n + (w - s))
  else if n <? w then Z.testbit x (n - s) else false.
Proof.
  intros Hx Hs Hn. unfold rotl, wrapu.
  rewrite Z.lor_spec, Z.testbit_mod_pow2, Z.shiftl_spec, Z.shiftr_spec by lia.
  destruct (Z.ltb_spec n s).
  - rewrite (Z.testbit_neg_r x (n - s)) by lia. rewrite andb_false_r. reflexivity.
  - rewrite (testbit_high x (n + (w - s))) by (try assumption; lia).
    rewrite orb_false_r. destruct (n <? w); reflexivity.
Qed.

Lemma testbit_rotr x s n :
  0 <= x < 2 ^ w -> 0 <= s < w -> 0 <= n ->
  Z.testbit (rotr x s) n =
  if n <? w - s then Z.testbit x (n + s)
  else if n <? w then Z.testbit x (n - (w - s)) else false.
Proof.
  intros Hx Hs Hn. unfold rotr, wrapu.
  rewrite Z.lor_spec, Z.testbit_mod_pow2, Z.shiftl_spec, Z.shiftr_spec by lia.
  destruct (Z.ltb_spec n (w - s)).
  - rewrite (Z.testbit_neg_r x (n - (w - s))) by lia.
    rewrite andb_false_r, orb_false_r. reflexivity.
  - rewrite (testbit_high x (n + s)) by (try assumption; lia).
    destruct (n <? w); reflexivity.
Qed.

Lemma wrapu_nonneg z : 0 <= wrapu w z.
Proof. apply (wrapu_range w w_pos). Qed.

Lemma rotl_range x s : 0 <= x < 2 ^ w -> 0 <= s < w -> 0 <= rotl x s < 2 ^ w.
Proof.
  intros Hx Hs. apply bits_bounded.
  - apply Z.lor_nonneg. split; [apply wrapu_nonneg|apply Z.shiftr_nonneg; lia].
  - intros n Hn. rewrite testbit_rotl by lia.
    destruct (Z.ltb_spec n s); [lia|]. destruct (Z.ltb_spec n w); [lia|reflexivity].
Qed.

Lemma rotr_range x s : 0 <= x < 2 ^ w -> 0 <= s < w -> 0 <= rotr x s < 2 ^ w.
Proof.
  intros Hx Hs. apply bits_bounded.
  - apply Z.lor_nonneg. split; [apply Z.shiftr_nonneg; lia|apply wrapu_nonneg].
  - intros n Hn. rewrite testbit_rotr by lia.
    destruct (Z.ltb_spec n (w - s)); [lia|]. destruct (Z.ltb_spec n w); [lia|reflexivity].
Qed.

Lemma rotr_rotl x s : 0 <= x < 2 ^ w -> 0 <= s < w -> rotr (rotl x s) s = x.
Proof.
  intros Hx Hs. pose proof (rotl_range x s Hx Hs) as Hy.
  apply Z.bits_inj'. intros n Hn.
  rewrite testbit_rotr by lia.
  destruct (Z.ltb_spec n (w - s)).
  - rewrite testbit_rotl by lia.
    destruct (Z.ltb_spec (n + s) s); [lia|]. destruct (Z.ltb_spec (n + s) w); [|lia].
    f_equal. lia.
  - destruct (Z.ltb_spec n w).
    + rewrite testbit_rotl by lia.
      destruct (Z.ltb_spec (n - (w - s)) s); [|lia]. f_equal. lia.
    + symmetry. apply testbit_high; [assumption|lia].
Qed.

Lemma rotl_rotr x s : 0 <= x < 2 ^ w -> 0 <= s < w -> rotl (rotr x s) s = x.
Proof.
  intros Hx Hs. pose proof (rotr_range x s Hx Hs) as Hy.
  apply Z.bits_inj'. intros n Hn.
  rewrite testbit_rotl by lia.
  destruct (Z.ltb_spec n s).
  - rewrite testbit_rotr by lia.
    destruct (Z.ltb_spec (n + (w - s)) (w - s)); [lia|].
    destruct (Z.ltb_spec (n + (w - s)) w); [|lia]. f_equal. lia.
  - destruct (Z.ltb_spec n w).
    + rewrite testbit_rotr by lia.
      destruct (Z.ltb_spec (n - s) (w - s)); [|lia]. f_equal. lia.
    + symmetry. apply testbit_high; [assumption|lia].
Qed.
End Rotate.

Lemma rot_amount32 k : 0 <= Z.land (uint k) 31 < 32.
Proof.
  change 31 with (Z.ones 5). rewrite Z.land_ones by lia.
  apply Z.mod_pos_bound. lia.
Qed.

Lemma rot_amount64 k : 0 <= Z.land (uint k) 63 < 64.
Proof.
  change 63 with (Z.ones 6). rewrite Z.land_ones by lia.
  apply Z.mod_pos_bound. lia.
Qed.

Lemma ValueFromI32_uint32 z : ValueFromI32 (uint32 z) = ValueFromI32 z.
Proof.
  unfold ValueFromI32, written. cbn [binary_Write]. f_equal.
  apply le_encode_eqm. unfold uint32, wrapu. apply Z.mod_mod. lia.
Qed.

Lemma ValueFromI64_uint64 z : ValueFromI64 (uint64 z) = ValueFromI64 z.
Proof.
  unfold ValueFromI64, written. cbn [binary_Write]. f_equal.
  apply le_encode_eqm. unfold uint64, wrapu. apply Z.mod_mod. lia.
Qed.

Lemma uint32_V_I32_uint32 z t :
  0 <= z < 2 ^ 32 -> uint32 (V_I32 (ValueFrom (any_uint32 z) t)) = z.
Proof.
  intros Hz. rewrite V_I32_uint32. unfold uint32, int32.
  rewrite (wrapu_wraps 32) by lia. apply Z.mod_small. exact Hz.
Qed.

Lemma uint64_V_I64_uint64 z t :
  0 <= z < 2 ^ 64 -> uint64 (V_I64 (ValueFrom (any_uint64 z) t)) = z.
Proof.
  intros Hz. rewrite V_I64_uint64. unfold uint64, int64.
  rewrite (wrapu_wraps 64) by lia. apply Z.mod_small. exact Hz.
Qed.

Lemma rot_inverse_i32 : rot_inverse MinInt32 (2 ^ 31) ValueFromI32 i32RotL i32RotR.
Proof.
  intros a k Ha Hk. unfold MinInt32 in *.
  pose proof (wrapu_range 32 ltac:(lia) a) as Hx.
  pose proof (rot_amount32 (int k)) as Hs.
  unfold i32RotL, i32RotR, RotateLeft32, rotateRight32, shlu32.
  rewrite !(proj1 carries_i32 a Ha), !(proj1 carries_i32 k Hk).
  split; eexists; (split; [reflexivity|]).
  - rewrite uint32_V_I32_uint32 by (apply (rotl_range 32); [lia|exact Hx|exact Hs]).
    unfold uint32 at 1 3.
    rewrite (rotr_rotl 32) by (try exact Hx; try exact Hs; lia).
    f_equal. apply ValueFromI32_uint32.
  - rewrite uint32_V_I32_uint32 by (apply (rotr_range 32); [lia|exact Hx|exact Hs]).
    unfold uint32 at 1 3.
    rewrite (rotl_rotr 32) by (try exact Hx; try exact Hs; lia).
    f_equal. apply ValueFromI32_uint32.
Qed.

Lemma rot_inverse_i64 : rot_inverse MinInt64 (2 ^ 63) ValueFromI64 i64RotL i64RotR.
Proof.
  intros a k Ha Hk. unfold MinInt64 in *.
  pose proof (wrapu_range 64 ltac:(lia) a) as Hx.
  pose proof (rot_amount64 (int k)) as Hs.
  unfold i64RotL, i64RotR, RotateLeft64, rotateRight64, shlu64.
  rewrite !(proj1 carries_i64 a Ha), !(proj1 carries_i64 k Hk).
  split; eexists; (split; [reflexivity|]).
  - rewrite uint64_V_I64_uint64 by (apply (rotl_range 64); [lia|exact Hx|exact Hs]).
    unfold uint64 at 1 3.
    rewrite (rotr_rotl 64) by (try exact Hx; try exact Hs; lia).
    f_equal. apply ValueFromI64_uint64.
  - rewrite uint64_V_I64_uint64 by (apply (rotr_range 64); [lia|exact Hx|exact Hs]).
    unfold uint64 at 1 3.
    rewrite (rotl_rotr 64) by (try exact Hx; try exact Hs; lia).
    f_equal. apply ValueFromI64_uint64.
Qed.

(** As functions of a value and an amount, [rotl] and [rotr] undo each
    other: rotating to the left and then to the right by the same amount,
    or the other way round, gives the value back, for every value and
    every amount, on 32 and on 64 bits.  0x80000001 rotated left by 1 is
    3, and 1 rotated right by 33 is 0x80000000. *)
Theorem rotations_are_inverse :
  rot_inverse MinInt32 (2 ^ 31) ValueFromI32 i32RotL i32RotR /\
  rot_inverse MinInt64 (2 ^ 63) ValueFromI64 i64RotL i64RotR /\
  i32RotL (ValueFromI32 0x80000001) (ValueFromI32 1) = Ok (ValueFromI32 3) /\
  i32RotR (ValueFromI32 1) (ValueFromI32 33) = Ok (ValueFromI32 0x80000000).
Proof.
  split; [apply rot_inverse_i32|]. split; [apply rot_inverse_i64|].
  split; vm_compute; reflexivity.
Qed.

Lemma rotations_are_inverse_witness :
  (MinInt32 <= -5 < 2 ^ 31) /\ (MinInt32 <= 37 < 2 ^ 31) /\
  exists y,
    i32RotL (ValueFromI32 (-5)) (ValueFromI32 37) = Ok y /\
    i32RotR y (ValueFromI32 37) = Ok (ValueFromI32 (-5)).
Proof.
  assert (MinInt32 <= -5 < 2 ^ 31) as Ha by (vm_compute; split; congruence).
  assert (MinInt32 <= 37 < 2 ^ 31) as Hk by (vm_compute; split; congruence).
  split; [exact Ha|]. split; [exact Hk|].
  exact (proj1 (proj1 rotations_are_inverse (-5) 37 Ha Hk)).
Defined.

(** *** Sign extension *)

(** The shift pair [v << k >> k] on [n + k] bits reads the low [n] bits of
    [v] as a signed integer. *)
Lemma shift_pair_extends (n k v : Z) :
  0 < n -> 0 < k ->
  Z.shiftr (wraps (n + k) (Z.shiftl v k)) k = wraps n v.
Proof.
  intros Hn Hk.
  assert (0 < 2 ^ k) by (apply Z.pow_pos_nonneg; lia).
  assert (0 < 2 ^ n) by (apply Z.pow_pos_nonneg; lia).
  assert (wraps (n + k) (Z.shiftl v k) = wraps n v * 2 ^ k) as ->.
  { rewrite Z.shiftl_mul_pow2 by lia.
    rewrite <- (wraps_small (n + k) ltac:(lia) (wraps n v * 2 ^ k)).
    - apply wraps_eqm. rewrite Z.pow_add_r by lia.
      rewrite !Z.mul_mod_distr_r by lia. f_equal. symmetry. apply wraps_mod. lia.
    - pose proof (wraps_range n Hn v) as Hr.
      replace (n + k - 1) with (n - 1 + k) by lia. rewrite Z.pow_add_r by lia.
      nia. }
  rewrite Z.shiftr_div_pow2 by lia. apply Z.div_mul. lia.
Qed.

(** [extendN_s] returns the low N bits of its operand read as a signed
    N-bit integer: 0x80 extends to -128 and 0x17F to 127. *)
Theorem extend_reads_low_bits_signed :
  (forall a, MinInt32 <= a < 2 ^ 31 ->
     i32Extend8S (ValueFromI32 a) = ValueFromI32 (wraps 8 a) /\
     i32Extend16S (ValueFromI32 a) = ValueFromI32 (wraps 16 a)) /\
  (forall a, MinInt64 <= a < 2 ^ 63 ->
     i64Extend8S (ValueFromI64 a) = ValueFromI64 (wraps 8 a) /\
     i64Extend16S (ValueFromI64 a) = ValueFromI64 (wraps 16 a) /\
     i64Extend32S (ValueFromI64 a) = ValueFromI64 (wraps 32 a)) /\
  (forall v,
     i32Extend8S v = i32Extend8S (ValueFromI32 (V_I32 v)) /\
     i32Extend16S v = i32Extend16S (ValueFromI32 (V_I32 v)) /\
     i64Extend8S v = i64Extend8S (ValueFromI64 (V_I64 v)) /\
     i64Extend16S v = i64Extend16S (ValueFromI64 (V_I64 v)) /\
     i64Extend32S v = i64Extend32S (ValueFromI64 (V_I64 v))) /\
  i32Extend8S (ValueFromI32 0x80) = ValueFromI32 (-128) /\
  i32Extend8S (ValueFromI32 0x17F) = ValueFromI32 127.
Proof.
  unfold i32Extend8S, i32Extend16S, i64Extend8S, i64Extend16S, i64Extend32S.
  unfold extendS8_32, extendS16_32, extendS8_64, extendS16_64, extendS32_64.
  unfold shl32, shl64, int32, int64.
  split; [|split; [|split; [|split; vm_compute; reflexivity]]].
  - intros a Ha. rewrite !(proj1 carries_i32 a Ha).
    rewrite (shift_pair_extends 8 24), (shift_pair_extends 16 16) by lia.
    split; reflexivity.
  - intros a Ha. rewrite !(proj1 carries_i64 a Ha).
    rewrite (shift_pair_extends 8 56), (shift_pair_extends 16 48),
            (shift_pair_extends 32 32) by lia.
    repeat split.
  - intros v. rewrite !V_I32_mk, !V_I64_mk. repeat split.
Qed.

Lemma extend_reads_low_bits_signed_witness :
  (MinInt32 <= 0xABCD < 2 ^ 31) /\
  i32Extend8S (ValueFromI32 0xABCD) = ValueFromI32 (wraps 8 0xABCD) /\
  i32Extend16S (ValueFromI32 0xABCD) = ValueFromI32 (wraps 16 0xABCD).
Proof.
  assert (MinInt32 <= 0xABCD < 2 ^ 31) as Ha by (vm_compute; split; congruence).
  split; [exact Ha|]. exact (proj1 extend_reads_low_bits_signed 0xABCD Ha).
Defined.

(** *** Comparisons *)

Lemma uint_of w z :
  0 < w -> - 2 ^ (w - 1) <= z < 2 ^ (w - 1) ->
  wrapu w z = if z <? 0 then z + 2 ^ w else z.
Proof.
  intros Hw Hz. pose proof (pow2_split w Hw) as Hp.
  unfold wrapu. destruct (Z.ltb_spec z 0).
  - rewrite <- (Z.mod_add _ 1), Z.mul_1_l by lia. apply Z.mod_small. lia.
  - apply Z.mod_small. lia.
Qed.

Ltac cmp_cases a b :=
  destruct (Z.ltb_spec a 0); destruct (Z.ltb_spec b 0);
  destruct (Z.ltb_spec a b); destruct (Z.ltb_spec b a);
  destruct (Z.leb_spec a b); destruct (Z.leb_spec b a);
  destruct (Z.eqb_spec a b); try lia; cbn [xorb andb negb];
  repeat split;
  first [ reflexivity
        | apply Z.ltb_lt; lia | apply Z.ltb_ge; lia
        | apply Z.leb_le; lia | apply Z.leb_gt; lia ].

Lemma cmp_laws_i32 :
  cmp_laws MinInt32 (2 ^ 31) ValueFromI32
           i32LtS i32LtU i32GtS i32GtU i32LeS i32LeU i32GeS i32GeU i32Eq i32Ne.
Proof.
  intros a b Ha Hb flip. subst flip. unfold MinInt32 in *.
  unfold i32LtS, i32LtU, i32GtS, i32GtU, i32LeS, i32LeU, i32GeS, i32GeU, i32Eq, i32Ne.
  rewrite !(proj1 carries_i32 a Ha), !(proj1 carries_i32 b Hb).
  unfold uint32. rewrite !(uint_of 32 a), !(uint_of 32 b) by lia.
  rewrite !Z.gtb_ltb, !Z.geb_leb.
  cmp_cases a b.
Qed.

Lemma cmp_laws_i64 :
  cmp_laws MinInt64 (2 ^ 63) ValueFromI64
           i64LtS i64LtU i64GtS i64GtU i64LeS i64LeU i64GeS i64GeU i64Eq i64Ne.
Proof.
  intros a b Ha Hb flip. subst flip. unfold MinInt64 in *.
  unfold i64LtS, i64LtU, i64GtS, i64GtU, i64LeS, i64LeU, i64GeS, i64GeU, i64Eq, i64Ne.
  rewrite !(proj1 carries_i64 a Ha), !(proj1 carries_i64 b Hb).
  unfold uint64. rewrite !(uint_of 64 a), !(uint_of 64 b) by lia.
  rewrite !Z.gtb_ltb, !Z.geb_leb.
  cmp_cases a b.
Qed.

(** As functions of two operands, the signed comparisons compare the
    integers the operands hold, and an unsigned comparison gives the
    signed answer turned into its opposite when exactly one operand is
    negative: -1 is below 1 signed and above it unsigned. *)
Theorem comparison_laws :
  cmp_laws MinInt32 (2 ^ 31) ValueFromI32
           i32LtS i32LtU i32GtS i32GtU i32LeS i32LeU i32GeS i32GeU i32Eq i32Ne /\
  cmp_laws MinInt64 (2 ^ 63) ValueFromI64
           i64LtS i64LtU i64GtS i64GtU i64LeS i64LeU i64GeS i64GeU i64Eq i64Ne /\
  i32LtS (ValueFromI32 (-1)) (ValueFromI32 1) = true /\
  i32LtU (ValueFromI32 (-1)) (ValueFromI32 1) = false /\
  i64GtU (ValueFromI64 (-1)) (ValueFromI64 1) = true.
Proof.
  split; [apply cmp_laws_i32|]. split; [apply cmp_laws_i64|].
  repeat split; vm_compute; reflexivity.
Qed.

Lemma comparison_laws_witness :
  (MinInt32 <= -3 < 2 ^ 31) /\ (MinInt32 <= 4 < 2 ^ 31) /\
  i32LtS (ValueFromI32 (-3)) (ValueFromI32 4) = (-3 <? 4) /\
  i32LtU (ValueFromI32 (-3)) (ValueFromI32 4) = xorb (-3 <? 4) (xorb (-3 <? 0) (4 <? 0)).
Proof.
  assert (MinInt32 <= -3 < 2 ^ 31) as Ha by (vm_compute; split; congruence).
  assert (MinInt32 <= 4 < 2 ^ 31) as Hb by (vm_compute; split; congruence).
  split; [exact Ha|]. split; [exact Hb|].
  pose proof (proj1 comparison_laws (-3) 4 Ha Hb) as H.
  split; [exact (proj1 H)|exact (proj1 (proj2 (proj2 (proj2 (proj2 H)))))].
Defined.

(** *** Counting bits *)

Lemma even_half_mod (x : Z) (w : nat) :
  Z.odd x = false ->
  x mod 2 ^ Z.of_nat (S w) = 2 * ((x / 2) mod 2 ^ Z.of_nat w).
Proof.
  intros Hx.
  assert (x = 2 * (x / 2)) as E.
  { pose proof (Z.div_mod x 2 ltac:(lia)) as Hd. rewrite Zmod_odd, Hx in Hd. lia. }
  rewrite E at 1. rewrite Nat2Z.inj_succ, Z.pow_succ_r by lia.
  apply Z.mul_mod_distr_l; [|lia]. apply Z.pow_nonzero; lia.
Qed.

Lemma odd_mod_nonzero (x : Z) (w : nat) :
  Z.odd x = true -> x mod 2 ^ Z.of_nat (S w) <> 0.
Proof.
  intros Hx E. rewrite Nat2Z.inj_succ, Z.pow_succ_r in E by lia.
  assert (0 < 2 ^ Z.of_nat w) by (apply Z.pow_pos_nonneg; lia).
  apply Z.mod_divide in E; [|lia]. destruct E as [q E].
  rewrite E in Hx. replace (q * (2 * 2 ^ Z.of_nat w)) with (2 * (q * 2 ^ Z.of_nat w)) in Hx by lia.
  rewrite Z.odd_mul in Hx. discriminate.
Qed.

Lemma ntz_spec (w : nat) : forall x : Z,
  (x mod 2 ^ Z.of_nat w = 0 -> ntz w x = Z.of_nat w) /\
  (x mod 2 ^ Z.of_nat w <> 0 ->
   0 <= ntz w x < Z.of_nat w /\ x mod 2 ^ ntz w x = 0 /\ Z.testbit x (ntz w x) = true).
Proof.
  induction w as [|w IH]; intros x.
  - cbn [ntz]. change (2 ^ Z.of_nat 0) with 1. rewrite Z.mod_1_r.
    split; [reflexivity|]. intros H. contradiction.
  - cbn [ntz]. destruct (Z.odd x) eqn:Hodd.
    + split.
      * intros E. exfalso. exact (odd_mod_nonzero x w Hodd E).
      * intros _. split; [lia|]. split; [apply Z.mod_1_r|].
        rewrite Z.bit0_odd. exact Hodd.
    + rewrite (even_half_mod x w Hodd).
      destruct (IH (x / 2)) as [IHz IHnz].
      split.
      * intros E. rewrite IHz by lia. lia.
      * intros E. destruct IHnz as (Hr & Hm & Hb); [lia|].
        split; [lia|].
        assert (0 < 2 ^ ntz w (x / 2)) by (apply Z.pow_pos_nonneg; lia).
        split.
        -- replace (1 + ntz w (x / 2)) with (Z.succ (ntz w (x / 2))) by lia.
           rewrite Z.pow_succ_r by lia.
           assert (x = 2 * (x / 2)) as Ex.
           { pose proof (Z.div_mod x 2 ltac:(lia)) as Hd.
             rewrite Zmod_odd, Hodd in Hd. lia. }
           rewrite Ex at 1. rewrite Z.mul_mod_distr_l by lia. lia.
        -- rewrite <- Hb.
           assert (forall m, 0 <= m -> Z.testbit (x / 2) m = Z.testbit x (m + 1)) as Hhalf.
           { intros m Hm0. rewrite <- Z.div2_div, Z.div2_spec. apply Z.shiftr_spec. exact Hm0. }
           rewrite Hhalf by lia. f_equal. lia.
Qed.

Lemma ones_spec (w : nat) : forall x : Z,
  0 <= ones w x <= Z.of_nat w /\
  (x mod 2 ^ Z.of_nat w = 0 -> ones w x = 0) /\
  (x mod 2 ^ Z.of_nat w <> 0 -> 0 < ones w x).
Proof.
  induction w as [|w IH]; intros x.
  - cbn [ones]. change (2 ^ Z.of_nat 0) with 1. rewrite Z.mod_1_r.
    split; [simpl; lia|]. split; [reflexivity|]. intros H. contradiction.
  - cbn [ones]. destruct (IH (x / 2)) as (Hr & Hz & Hnz).
    destruct (Z.odd x) eqn:Hodd.
    + split; [lia|]. split; [|lia].
      intros E. exfalso. exact (odd_mod_nonzero x w Hodd E).
    + rewrite (even_half_mod x w Hodd). split; [lia|]. split; intros E.
      * rewrite Hz by lia. reflexivity.
      * assert (0 < ones w (x / 2)) by (apply Hnz; lia). lia.
Qed.

Lemma filter_map_length {A B} (f : B -> bool) (g : A -> B) (l : list A) :
  length (List.filter f (map g l)) = length (List.filter (fun a => f (g a)) l).
Proof.
  induction l as [|a l IH]; [reflexivity|].
  cbn [map List.filter]. destruct (f (g a)); cbn [length]; rewrite IH; reflexivity.
Qed.

Lemma ones_bit_count (w : nat) : forall x : Z, ones w x = bit_count w x.
Proof.
  induction w as [|w IH]; intros x; [reflexivity|].
  cbn [ones]. rewrite IH. unfold bit_count.
  assert (E : List.filter (fun i => Z.testbit x (Z.of_nat i)) (seq 1 w) =
              map S (List.filter (fun i => Z.testbit (x / 2) (Z.of_nat i)) (seq 0 w))).
  { assert (Hb : forall i : nat,
              Z.testbit x (Z.of_nat (S i)) = Z.testbit (x / 2) (Z.of_nat i)).
    { intros i. rewrite Nat2Z.inj_succ, Z.div2_bits by lia. reflexivity. }
    rewrite <- seq_shift. generalize (seq 0 w). intros l.
    induction l as [|i l IHl]; [reflexivity|].
    cbn [map List.filter]. rewrite Hb.
    destruct (Z.testbit (x / 2) (Z.of_nat i)); cbn [map]; rewrite IHl; reflexivity. }
  change (seq 0 (S w)) with (0%nat :: seq 1 w).
  cbn [List.filter]. rewrite E. change (Z.of_nat 0) with 0. rewrite Z.bit0_odd.
  destruct (Z.odd x); cbn [length]; rewrite length_map; lia.
Qed.

Lemma counts_bits_of (w : nat) (x : Z) :
  0 <= x < 2 ^ Z.of_nat w ->
  counts_bits (Z.of_nat w) x (Z.of_nat w - bits_Len x) (ntz w x) (ones w x).
Proof.
  intros Hx. unfold counts_bits, bits_Len.
  split; [rewrite Nat2Z.id; apply ones_bit_count|].
  destruct (ntz_spec w x) as [Hz Hnz]. destruct (ones_spec w x) as (Hr & Hoz & Honz).
  rewrite (Z.mod_small x) in * by lia.
  split; intros E.
  - subst x. cbn [Z.eqb]. split; [lia|]. split; [apply Hz|apply Hoz]; reflexivity.
  - destruct (Z.eqb_spec x 0); [contradiction|].
    assert (0 < x) as Hpos by lia.
    pose proof (Z.log2_spec x Hpos) as Hlog. pose proof (Z.log2_nonneg x) as Hl0.
    assert (Z.log2 x < Z.of_nat w) as Hlw by (apply Z.log2_lt_pow2; lia).
    split; [lia|].
    split.
    { replace (Z.of_nat w - 1 - (Z.of_nat w - (Z.log2 x + 1))) with (Z.log2 x) by lia.
      replace (Z.of_nat w - (Z.of_nat w - (Z.log2 x + 1))) with (Z.succ (Z.log2 x)) by lia.
      exact Hlog. }
    destruct (Hnz E) as (H1 & H2 & H3).
    split; [exact H1|]. split; [exact H2|]. split; [exact H3|].
    split; [apply Honz; exact E|lia].
Qed.

Lemma counts_bits_32 x :
  0 <= x < 2 ^ 32 ->
  counts_bits 32 x (32 - bits_Len x) (ntz 32 x) (ones 32 x) /\
  0 <= bits_Len x <= 32 /\ 0 <= ntz 32 x <= 32 /\ 0 <= ones 32 x <= 32.
Proof.
  intros Hx. pose proof (counts_bits_of 32 x Hx) as C.
  change (Z.of_nat 32) with 32 in C. split; [exact C|].
  destruct (ones_spec 32 x) as (Ho & _). change (Z.of_nat 32) with 32 in Ho.
  destruct C as [_ [C0 C1]]. destruct (Z.eq_dec x 0) as [E|E].
  - destruct (C0 E) as (H1 & H2 & H3). lia.
  - destruct (C1 E) as (H1 & _ & H2 & _). lia.
Qed.

Lemma counts_bits_64 x :
  0 <= x < 2 ^ 64 ->
  counts_bits 64 x (64 - bits_Len x) (ntz 64 x) (ones 64 x) /\
  0 <= bits_Len x <= 64 /\ 0 <= ntz 64 x <= 64 /\ 0 <= ones 64 x <= 64.
Proof.
  intros Hx. pose proof (counts_bits_of 64 x Hx) as C.
  change (Z.of_nat 64) with 64 in C. split; [exact C|].
  destruct (ones_spec 64 x) as (Ho & _). change (Z.of_nat 64) with 64 in Ho.
  destruct C as [_ [C0 C1]]. destruct (Z.eq_dec x 0) as [E|E].
  - destruct (C0 E) as (H1 & H2 & H3). lia.
  - destruct (C1 E) as (H1 & _ & H2 & _). lia.
Qed.

(** [clz], [ctz] and [popcnt]: on an operand of 0 they return the width,
    the width and 0.  On another operand [clz] is below the width and
    brackets the operand, read as unsigned, between two powers of two;
    [ctz] is below the width, the index of a set bit with only zero bits
    under it.  [popcnt] is the number of set bits of the operand, between
    1 and the width when the operand is not 0.  On 32 bits [clz] of
    1 is 31, [ctz] of 8 is 3 and [popcnt] of -1 is 32. *)
Theorem bit_counting :
  (forall a, MinInt32 <= a < 2 ^ 31 ->
     exists c t p,
       i32Clz (ValueFromI32 a) = ValueFromI32 c /\
       i32Ctz (ValueFromI32 a) = ValueFromI32 t /\
       i32Popcnt (ValueFromI32 a) = ValueFromI32 p /\
       counts_bits 32 (uint32 a) c t p) /\
  (forall a, MinInt64 <= a < 2 ^ 63 ->
     exists c t p,
       i64Clz (ValueFromI64 a) = ValueFromI64 c /\
       i64Ctz (ValueFromI64 a) = ValueFromI64 t /\
       i64Popcnt (ValueFromI64 a) = ValueFromI64 p /\
       counts_bits 64 (uint64 a) c t p) /\
  i32Clz (ValueFromI32 1) = ValueFromI32 31 /\
  i32Ctz (ValueFromI32 8) = ValueFromI32 3 /\
  i32Popcnt (ValueFromI32 (-1)) = ValueFromI32 32.
Proof.
  split; [|split; [|repeat split; vm_compute; reflexivity]].
  - intros a Ha.
    pose proof (wrapu_range 32 ltac:(lia) a) as Hx. fold (uint32 a) in Hx.
    destruct (counts_bits_32 (uint32 a) Hx) as (C & _).
    exists (32 - bits_Len (uint32 a)), (ntz 32 (uint32 a)), (ones 32 (uint32 a)).
    unfold i32Clz, i32Ctz, i32Popcnt, LeadingZeros32, TrailingZeros32, OnesCount32.
    rewrite !(proj1 carries_i32 a Ha).
    change (ValueFrom (any_int32 ?z) I32) with (ValueFromI32 z).
    rewrite !ValueFromI32_int32. do 3 (split; [reflexivity|]). exact C.
  - intros a Ha.
    pose proof (wrapu_range 64 ltac:(lia) a) as Hx. fold (uint64 a) in Hx.
    destruct (counts_bits_64 (uint64 a) Hx) as (C & _).
    exists (64 - bits_Len (uint64 a)), (ntz 64 (uint64 a)), (ones 64 (uint64 a)).
    unfold i64Clz, i64Ctz, i64Popcnt, LeadingZeros64, TrailingZeros64, OnesCount64.
    rewrite !(proj1 carries_i64 a Ha).
    change (ValueFrom (any_int64 ?z) I64) with (ValueFromI64 z).
    rewrite !ValueFromI64_int64. do 3 (split; [reflexivity|]). exact C.
Qed.

Lemma bit_counting_witness :
  (MinInt32 <= 40 < 2 ^ 31) /\
  exists c t p,
    i32Clz (ValueFromI32 40) = ValueFromI32 c /\
    i32Ctz (ValueFromI32 40) = ValueFromI32 t /\
    i32Popcnt (ValueFromI32 40) = ValueFromI32 p /\
    counts_bits 32 (uint32 40) c t p.
Proof.
  assert (MinInt32 <= 40 < 2 ^ 31) as Ha by (vm_compute; split; congruence).
  split; [exact Ha|]. exact (proj1 bit_counting 40 Ha).
Defined.

(* ================================================================== *)
(** ** The numeric, parametric and variable instructions on a machine *)

Lemma NextStep_on fs f vs s :
  NextStep (on_frame fs f vs s) = (Ok tt, on_frame fs (stepped 1 f) vs s).
Proof. unfold NextStep, on_frame. rewrite updFrame_push. reflexivity. Qed.

Lemma topFrame_on fs f vs s :
  topFrame (on_frame fs f vs s) = (Ok f, on_frame fs f vs s).
Proof. apply topFrame_push. Qed.

Lemma popValue_on fs f vs v s :
  popValue (on_frame fs f (vs ++ [v]) s) = (Ok v, on_frame fs f vs s).
Proof. apply popValue_push. Qed.

Lemma pushValue_on fs f vs v s :
  pushValue v (on_frame fs f vs s) = (Ok tt, on_frame fs f (vs ++ [v]) s).
Proof. reflexivity. Qed.

Lemma popValue_empty fs f s :
  popValue (on_frame fs f [] s) = (Ok zeroValue, on_frame fs f [] s).
Proof. reflexivity. Qed.

Ltac run_exec :=
  repeat first
    [ rewrite topFrame_on | rewrite popValue_on | rewrite pushValue_on
    | rewrite NextStep_on | rewrite popValue_empty
    | progress unfold bind at 1 ].

Lemma numericBool_cases b : numericBool b = ValueFromI32 (if b then 1 else 0).
Proof. destruct b; reflexivity. Qed.

(** A comparison and a test push 1 or 0, and a comparison applies its
    function to the operand on top of the stack first and to the one under
    it second: after [i32.const 1 i32.const 2] the instruction [i32.lt_s]
    pushes 0 and after [i32.const 2 i32.const 1] it pushes 1; in the same
    way [i32.const 5 i32.const 3 i32.sub] returns -2.  A function that
    compares its first parameter with its second answers in the order of
    the arguments, the call pushing them in reverse. *)
Theorem comparison_takes_top_first :
  (forall relFn fs f vs s a b,
     exec (opRel relFn) (on_frame fs f (vs ++ [b; a]) s) =
     (Ok tt, on_frame fs (stepped 1 f)
               (vs ++ [ValueFromI32 (if relFn a b then 1 else 0)]) s)) /\
  (forall testFn fs f vs s a,
     exec (opTest testFn) (on_frame fs f (vs ++ [a]) s) =
     (Ok tt, on_frame fs (stepped 1 f)
               (vs ++ [ValueFromI32 (if testFn a then 1 else 0)]) s)) /\
  (forall unOpFn fs f vs s a,
     exec (opUn unOpFn) (on_frame fs f (vs ++ [a]) s) =
     (Ok tt, on_frame fs (stepped 1 f) (vs ++ [unOpFn a]) s)) /\
  (forall fl,
     run_body fl x7f [x41; x01; x41; x02; x48] [] 4 = Ok [ValueFromI32 0] /\
     run_body fl x7f [x41; x02; x41; x01; x48] [] 4 = Ok [ValueFromI32 1] /\
     run_body fl x7f [x41; x05; x41; x03; x6b] [] 4 = Ok [ValueFromI32 (-2)] /\
     run_body fl x7f [x20; x00; x20; x01; x48] [ValueFromI32 1; ValueFromI32 2] 4 =
       Ok [ValueFromI32 1] /\
     run_body fl x7f [x20; x00; x20; x01; x6b] [ValueFromI32 5; ValueFromI32 3] 4 =
       Ok [ValueFromI32 2]).
Proof.
  split; [|split; [|split]].
  - intros. cbn [exec]. unfold opRel_exec.
    change (vs ++ [b; a]) with (vs ++ [b] ++ [a]). rewrite app_assoc.
    run_exec. rewrite numericBool_cases. reflexivity.
  - intros. cbn [exec]. unfold opTest_exec. run_exec.
    rewrite numericBool_cases. reflexivity.
  - intros. cbn [exec]. unfold opUn_exec. run_exec. reflexivity.
  - intros fl. repeat split; vm_compute; reflexivity.
Qed.

(** [select] pops the condition, then two operands, and pushes the one
    pushed first when the condition is not 0 and the one pushed second when
    it is; [drop] pops one operand, and on an empty operand stack it pops
    nothing and still moves on. *)
Theorem select_and_drop :
  (forall fs f vs s a b c,
     exec opSelect (on_frame fs f (vs ++ [a; b; c]) s) =
     (Ok tt, on_frame fs (stepped 1 f) (vs ++ [if V_I32 c =? 0 then b else a]) s)) /\
  (forall fs f vs s a,
     exec opDrop (on_frame fs f (vs ++ [a]) s) = (Ok tt, on_frame fs (stepped 1 f) vs s)) /\
  (forall fs f s,
     exec opDrop (on_frame fs f [] s) = (Ok tt, on_frame fs (stepped 1 f) [] s)) /\
  (forall fs f s,
     exec opSelect
       (on_frame fs f [ValueFromI32 10; ValueFromI32 20; ValueFromI32 0] s) =
     (Ok tt, on_frame fs (stepped 1 f) [ValueFromI32 20] s) /\
     exec opSelect
       (on_frame fs f [ValueFromI32 10; ValueFromI32 20; ValueFromI32 (-1)] s) =
     (Ok tt, on_frame fs (stepped 1 f) [ValueFromI32 10] s)).
Proof.
  assert (forall fs f vs s a b c,
     exec opSelect (on_frame fs f (vs ++ [a; b; c]) s) =
     (Ok tt, on_frame fs (stepped 1 f) (vs ++ [if V_I32 c =? 0 then b else a]) s)) as Hsel.
  { intros. cbn [exec]. unfold opSelect_exec.
    change (vs ++ [a; b; c]) with (vs ++ [a] ++ [b] ++ [c]). rewrite !app_assoc.
    run_exec. destruct (V_I32 c =? 0); run_exec; reflexivity. }
  split; [exact Hsel|]. split; [|split].
  - intros. cbn [exec]. unfold opDrop_exec. run_exec. reflexivity.
  - intros. cbn [exec]. unfold opDrop_exec. run_exec. reflexivity.
  - intros. split.
    + exact (Hsel fs f [] s (ValueFromI32 10) (ValueFromI32 20) (ValueFromI32 0)).
    + exact (Hsel fs f [] s (ValueFromI32 10) (ValueFromI32 20) (ValueFromI32 (-1))).
Qed.

Lemma getValueStack_on fs f vs s :
  getValueStack (on_frame fs f vs s) = (Ok vs, on_frame fs f vs s).
Proof. reflexivity. Qed.

Lemma putValueStack_on fs f vs vs' s :
  putValueStack vs' (on_frame fs f vs s) = (Ok tt, on_frame fs f vs' s).
Proof. reflexivity. Qed.

Lemma stack_Set_in {T} (s : list T) (sp idx : Z) (v : T) :
  0 <= sp + idx < len s ->
  stack_Set s sp idx v = Ok (<[Z.to_nat (sp + idx) := v]> s).
Proof.
  intros H. unfold stack_Set, set_index. unfold len in H.
  destruct (Z.ltb_spec (sp + idx) 0); [lia|].
  destruct (Z.leb_spec (Z.of_nat (length s)) (sp + idx)); [lia|]. reflexivity.
Qed.

Lemma stack_Get_in {T} (s : list T) (sp idx : Z) (v : T) :
  0 <= sp + idx -> s !! Z.to_nat (sp + idx) = Some v ->
  stack_Get s sp idx = Ok (Some v).
Proof.
  intros H0 Hl. pose proof (lookup_lt_Some _ _ _ Hl) as Hlt.
  unfold stack_Get, stack_Len, len, index.
  destruct (Z.leb_spec (Z.of_nat (length s)) (sp + idx)); [lia|].
  destruct (Z.ltb_spec (sp + idx) 0); [lia|]. cbn [orb]. rewrite Hl. reflexivity.
Qed.

(** [local.set] pops its operand into the slot [sp + idx] of the operand
    stack and [local.get] of the same index pushes the slot's value: after
    the two the value is in the slot and on top, the other slots as they
    were. *)
Theorem local_set_then_get fs f vs s v idx :
  0 <= sp f + idx < len vs ->
  exec_seq [opLocalSet idx; opLocalGet idx] (on_frame fs f (vs ++ [v]) s) =
  (Ok tt, on_frame fs (stepped 2 f) (<[Z.to_nat (sp f + idx) := v]> vs ++ [v]) s).
Proof.
  intros H. cbn [exec_seq exec]. unfold opLocalSet_exec, opLocalGet_exec.
  run_exec. rewrite getValueStack_on. run_exec. unfold lift at 1.
  rewrite (stack_Set_in vs (sp f) idx v H). run_exec.
  rewrite putValueStack_on. run_exec.
  rewrite getValueStack_on. run_exec. unfold lift at 1.
  change (sp (stepped 1 f)) with (sp f).
  rewrite (stack_Get_in _ (sp f) idx v) by
    (try lia; apply list_lookup_insert_eq; unfold len in H; lia).
  run_exec. reflexivity.
Qed.

Lemma local_set_then_get_witness :
  let f := {| pc := 3; sp := 1; insts := []; labels := []; f_mod := None |} in
  let vs := [ValueFromI32 10; ValueFromI32 20; ValueFromI32 30] in
  0 <= sp f + 1 < len vs /\
  exec_seq [opLocalSet 1; opLocalGet 1] (on_frame [] f (vs ++ [ValueFromI32 7]) zeroStore) =
  (Ok tt, on_frame [] (stepped 2 f)
            ([ValueFromI32 10; ValueFromI32 20; ValueFromI32 7] ++ [ValueFromI32 7])
            zeroStore).
Proof.
  intros f vs.
  assert (0 <= sp f + 1 < len vs) as H by (vm_compute; split; congruence).
  split; [exact H|].
  exact (local_set_then_get [] f vs zeroStore (ValueFromI32 7) 1 H).
Defined.

(** The slots of the locals are the operand stack from [sp] on: a call
    puts no more than its arguments there.  [local.get] at or past the top
    of the operand stack returns the error "local variable[idx] not
    found"; [local.set] there panics on the index after popping its
    operand; [local.tee] writes the slot without popping.  So in a function
    of one parameter [local.get 1] fails, and after [i32.const 9] it reads
    the 9. *)
Theorem local_slots_are_operand_slots :
  (forall fs f vs s idx,
     len vs <= sp f + idx ->
     exec (opLocalGet idx) (on_frame fs f vs s) =
     (Err (Errorf ("local variable[" +:+ pretty idx +:+ "] not found")),
      on_frame fs f vs s)) /\
  (forall fs f vs s v idx,
     len vs <= sp f + idx ->
     exec (opLocalSet idx) (on_frame fs f (vs ++ [v]) s) =
     (Panic IndexOutOfRange, on_frame fs f vs s)) /\
  (forall fs f vs s v idx,
     0 <= sp f + idx <= len vs ->
     exec (opLocalTee idx) (on_frame fs f (vs ++ [v]) s) =
     (Ok tt, on_frame fs (stepped 1 f) (<[Z.to_nat (sp f + idx) := v]> (vs ++ [v])) s)) /\
  (forall fl,
     run_body fl x7f [x20; x00] [ValueFromI32 7] 4 = Ok [ValueFromI32 7] /\
     run_body fl x7f [x20; x01] [ValueFromI32 7] 4 =
       Err (Errorf "local variable[1] not found") /\
     run_body fl x7f [x41; x09; x20; x01] [ValueFromI32 7] 4 = Ok [ValueFromI32 9]).
Proof.
  split; [|split; [|split]].
  - intros fs f vs s idx H. cbn [exec]. unfold opLocalGet_exec.
    run_exec. rewrite getValueStack_on. run_exec. unfold lift at 1.
    unfold stack_Get, stack_Len.
    destruct (Z.leb_spec (len vs) (sp f + idx)); [|lia]. reflexivity.
  - intros fs f vs s v idx H. cbn [exec]. unfold opLocalSet_exec.
    run_exec. rewrite getValueStack_on. run_exec. unfold lift at 1.
    unfold stack_Set, set_index. fold (len vs).
    destruct (Z.leb_spec (len vs) (sp f + idx)); [|lia].
    rewrite orb_true_r. reflexivity.
  - intros fs f vs s v idx H. cbn [exec]. unfold opLocalTee_exec.
    run_exec. rewrite getValueStack_on. run_exec. unfold lift at 1.
    rewrite stack_Top_push. run_exec. unfold lift at 1.
    rewrite stack_Set_in by (rewrite len_app; unfold len in *; cbn [length]; lia).
    run_exec. rewrite putValueStack_on. run_exec. reflexivity.
  - intros fl. repeat split; vm_compute; reflexivity.
Qed.

(* ================================================================== *)
(** ** instr_control.go: the scans for [end] *)

Lemma nextEndAddr_scan_sound (l : list (option instr)) : forall pc depth k,
  nextEndAddr_scan l pc depth = Ok k ->
  pc <= k < pc + len l /\ exists i, l !! Z.to_nat (k - pc) = Some i /\ is_end i = true.
Proof.
  induction l as [|i tl IH]; intros pc depth k H; [discriminate|].
  assert (len (i :: tl) = 1 + len tl) as El by (unfold len; cbn [length]; lia).
  assert (forall d, nextEndAddr_scan tl (pc + 1) d = Ok k ->
            pc <= k < pc + len (i :: tl) /\
            exists j, (i :: tl) !! Z.to_nat (k - pc) = Some j /\ is_end j = true) as Hrec.
  { intros d Hd. destruct (IH _ _ _ Hd) as (Hr & j & Hj & He).
    split; [unfold len in *; lia|]. exists j. split; [|exact He].
    replace (Z.to_nat (k - pc)) with (S (Z.to_nat (k - (pc + 1)))) by lia. exact Hj. }
  cbn [nextEndAddr_scan] in H.
  destruct i as [[]|]; try (eapply Hrec; exact H).
  destruct (Z.eqb_spec depth 0); [|eapply Hrec; exact H].
  inversion H; subst k. split; [unfold len in *; lia|].
  exists (Some opEnd). rewrite Z.sub_diag. split; reflexivity.
Qed.

Lemma nextElseOrEndAddr_scan_sound (l : list (option instr)) : forall pc depth k,
  nextElseOrEndAddr_scan l pc depth = Ok k ->
  pc <= k < pc + len l /\
  exists i, l !! Z.to_nat (k - pc) = Some i /\ (is_end i || is_else i = true).
Proof.
  induction l as [|i tl IH]; intros pc depth k H; [discriminate|].
  assert (forall d, nextElseOrEndAddr_scan tl (pc + 1) d = Ok k ->
            pc <= k < pc + len (i :: tl) /\
            exists j, (i :: tl) !! Z.to_nat (k - pc) = Some j /\
                      (is_end j || is_else j = true)) as Hrec.
  { intros d Hd. destruct (IH _ _ _ Hd) as (Hr & j & Hj & He).
    split; [unfold len in *; cbn [length]; lia|]. exists j. split; [|exact He].
    replace (Z.to_nat (k - pc)) with (S (Z.to_nat (k - (pc + 1)))) by lia. exact Hj. }
  cbn [nextElseOrEndAddr_scan] in H.
  destruct i as [[]|]; try (eapply Hrec; exact H).
  - destruct (Z.eqb_spec depth 0); [|eapply Hrec; exact H].
    inversion H; subst k. split; [unfold len; cbn [length]; lia|].
    exists (Some opElse). rewrite Z.sub_diag. split; reflexivity.
  - destruct (Z.eqb_spec depth 0); [|eapply Hrec; exact H].
    inversion H; subst k. split; [unfold len; cbn [length]; lia|].
    exists (Some opEnd). rewrite Z.sub_diag. split; reflexivity.
Qed.

(** What [nextEndAddr] returns is the index, at or after [pc], of an [end]
    of the instruction list, and what [nextElseOrEndAddr] returns is the
    index of an [end] or an [else]. *)
Theorem scans_find_an_end (pc k : Z) (insts : list (option instr)) :
  0 <= pc ->
  (nextEndAddr pc insts = Ok k ->
   pc <= k < len insts /\ index insts k = Ok (Some opEnd)) /\
  (nextElseOrEndAddr pc insts = Ok k ->
   pc <= k < len insts /\
   (index insts k = Ok (Some opEnd) \/ index insts k = Ok (Some opElse))).
Proof.
  intros Hpc.
  assert (forall i, insts !! Z.to_nat k = Some i -> 0 <= k -> index insts k = Ok i) as Hidx.
  { intros i Hi Hk. pose proof (lookup_lt_Some _ _ _ Hi). unfold index.
    destruct (Z.ltb_spec k 0); [lia|].
    destruct (Z.leb_spec (Z.of_nat (length insts)) k); [lia|]. cbn [orb].
    rewrite Hi. reflexivity. }
  assert (forall i, drop (Z.to_nat pc) insts !! Z.to_nat (k - pc) = Some i -> pc <= k ->
                    insts !! Z.to_nat k = Some i) as Hdrop.
  { intros i Hi Hk. rewrite lookup_drop in Hi.
    replace (Z.to_nat pc + Z.to_nat (k - pc))%nat with (Z.to_nat k) in Hi by lia. exact Hi. }
  split; intros H.
  - unfold nextEndAddr in H. destruct (Z.ltb_spec pc 0); [lia|].
    destruct (nextEndAddr_scan_sound _ _ _ _ H) as (Hr & i & Hi & He).
    apply Hdrop in Hi; [|lia]. pose proof (lookup_lt_Some _ _ _ Hi).
    split; [unfold len; lia|].
    destruct i as [[]|]; try discriminate. apply Hidx; [exact Hi|lia].
  - unfold nextElseOrEndAddr in H. destruct (Z.ltb_spec pc 0); [lia|].
    destruct (nextElseOrEndAddr_scan_sound _ _ _ _ H) as (Hr & i & Hi & He).
    apply Hdrop in Hi; [|lia]. pose proof (lookup_lt_Some _ _ _ Hi).
    split; [unfold len; lia|].
    destruct i as [[]|]; try discriminate.
    + right. apply Hidx; [exact Hi|lia].
    + left. apply Hidx; [exact Hi|lia].
Qed.

Lemma scans_find_an_end_witness :
  let code := [Some (opBlock empty_block); Some opNop; Some opEnd; Some opNop; Some opEnd] in
  0 <= 1 /\
  nextEndAddr 1 code = Ok 2 /\
  (1 <= 2 < len code /\ index code 2 = Ok (Some opEnd)).
Proof.
  intros code.
  assert (0 <= 1) as H0 by lia.
  assert (nextEndAddr 1 code = Ok 2) as H by reflexivity.
  split; [exact H0|]. split; [exact H|].
  exact (proj1 (scans_find_an_end 1 2 code H0) H).
Defined.

Lemma nextEndAddr_scan_flat (mid post : list (option instr)) : forall pc,
  Forall (fun i => is_block i = false /\ is_end i = false) mid ->
  nextEndAddr_scan (mid ++ Some opEnd :: post) pc 0 = Ok (pc + len mid).
Proof.
  induction mid as [|i mid IH]; intros pc Hmid.
  - cbn [app nextEndAddr_scan Z.eqb]. f_equal. unfold len. cbn [length]. lia.
  - inversion Hmid as [|? ? [Hb He] Hrest]; subst.
    assert (nextEndAddr_scan ((i :: mid) ++ Some opEnd :: post) pc 0 =
            nextEndAddr_scan (mid ++ Some opEnd :: post) (pc + 1) 0) as ->.
    { cbn [app nextEndAddr_scan]. destruct i as [[]|]; try reflexivity; discriminate. }
    rewrite IH by exact Hrest. f_equal. unfold len. cbn [length]. lia.
Qed.

Lemma nextEndAddr_flat (pre mid post : list (option instr)) :
  Forall (fun i => is_block i = false /\ is_end i = false) mid ->
  nextEndAddr (len pre) (pre ++ mid ++ Some opEnd :: post) = Ok (len pre + len mid).
Proof.
  intros Hmid. unfold nextEndAddr, len.
  destruct (Z.ltb_spec (Z.of_nat (length pre)) 0); [lia|].
  rewrite Nat2Z.id, drop_app_length. apply nextEndAddr_scan_flat, Hmid.
Qed.



(* ================================================================== *)
(** ** instr_control.go: [block], [end] and the branches *)

Lemma stack_isEmpty_push {T} (s : stack T) (x : T) : stack_isEmpty (s ++ [x]) = false.
Proof.
  unfold stack_isEmpty, stack_Len. rewrite len_app.
  apply Z.eqb_neq. unfold len. cbn [length]. lia.
Qed.

Lemma step_at fs f vs s pre i post :
  insts f = pre ++ i :: post -> pc f = len pre ->
  step (on_frame fs f vs s) = exec_interface i (on_frame fs f vs s).
Proof.
  intros Hi Hpc. unfold step. unfold bind at 1. rewrite topFrame_on.
  unfold bind, lift. rewrite Hi, Hpc, index_middle. reflexivity.
Qed.

Lemma popFrame_on fs f vs s :
  popFrame (on_frame fs f vs s) =
  (Ok tt, {| frameStack := fs; valueStack := vs; store_ := s |}).
Proof.
  unfold popFrame, on_frame. cbn [frameStack valueStack store_].
  rewrite stack_Pop_push. reflexivity.
Qed.

Lemma updFrame_on g fs f vs s :
  updFrame g (on_frame fs f vs s) = (Ok tt, on_frame fs (g f) vs s).
Proof. apply updFrame_push. Qed.

Lemma Execute_S n fs f vs s :
  Execute (S n) (on_frame fs f vs s) =
  match step (on_frame fs f vs s) with
  | (Ok _, st') => Execute n st'
  | r => r
  end.
Proof. cbn [Execute on_frame frameStack]. rewrite stack_isEmpty_push. reflexivity. Qed.

(** [end] with a label on the frame's label stack pops it and sets the pc
    to the label's endPc, with none it pops the frame; neither way does it
    touch the operand stack. *)
Lemma opEnd_exec_spec fs f vs s :
  exec opEnd (on_frame fs f vs s) =
  match stack_Pop zeroLabel (labels f) with
  | (l, true, ls) => (Ok tt, on_frame fs (set_pc (endPc l) (set_labels ls f)) vs s)
  | (_, false, _) => (Ok tt, {| frameStack := fs; valueStack := vs; store_ := s |})
  end.
Proof.
  cbn [exec]. unfold opEnd_exec, popLabel. run_exec.
  destruct (stack_Pop zeroLabel (labels f)) as [[l ok] ls].
  rewrite updFrame_on. unfold ret. destruct ok; cbn [negb].
  - rewrite updFrame_on. reflexivity.
  - rewrite popFrame_on. reflexivity.
Qed.

(** [block] pushes a label whose endPc is the index of the next [end] that
    no [block] precedes, and moves on. *)
Lemma opBlock_exec_spec b fs f vs s pre mid post :
  insts f = pre ++ Some (opBlock b) :: mid ++ Some opEnd :: post ->
  pc f = len pre ->
  Forall (fun i => is_block i = false /\ is_end i = false) mid ->
  exec (opBlock b) (on_frame fs f vs s) =
  (Ok tt,
   on_frame fs
     (stepped 1 (set_labels (labels f ++ [{| l_kind := LabelKindBlock; startPc := len pre;
                                              endPc := len pre + 1 + len mid |}]) f))
     vs s).
Proof.
  intros Hi Hpc Hmid. cbn [exec]. unfold opBlock_exec. run_exec. unfold lift at 1.
  rewrite Hi, Hpc.
  replace (pre ++ Some (opBlock b) :: mid ++ Some opEnd :: post)
    with ((pre ++ [Some (opBlock b)]) ++ mid ++ Some opEnd :: post)
    by (rewrite <- app_assoc; reflexivity).
  replace (len pre + 1) with (len (pre ++ [Some (opBlock b)]))
    by (rewrite len_app; reflexivity).
  rewrite (nextEndAddr_flat _ mid post Hmid).
  run_exec. unfold pushLabel. rewrite updFrame_on. run_exec.
  rewrite len_app. reflexivity.
Qed.

(** An [end] that closes a block leaves the pc where it is, on that [end]:
    the loop of [Execute] runs it a second time, and with no label left it
    ends the function.  So a function that starts with an empty block
    returns after three turns, whatever follows the block: the operand
    stack and the store are as they were. *)
Theorem code_after_a_block_never_runs :
  (forall fs f vs s pre post l ls,
     insts f = pre ++ Some opEnd :: post -> pc f = len pre ->
     labels f = ls ++ [l] -> endPc l = len pre ->
     step (on_frame fs f vs s) = (Ok tt, on_frame fs (set_labels ls f) vs s)) /\
  (forall fs f vs s pre post,
     insts f = pre ++ Some opEnd :: post -> pc f = len pre -> labels f = [] ->
     step (on_frame fs f vs s) =
     (Ok tt, {| frameStack := fs; valueStack := vs; store_ := s |})) /\
  (forall b rest sp0 md vs s,
     Execute 3
       (on_frame []
          {| pc := 0; sp := sp0; insts := Some (opBlock b) :: Some opEnd :: rest;
             labels := []; f_mod := md |} vs s) =
     (Ok tt, {| frameStack := []; valueStack := vs; store_ := s |})).
Proof.
  assert (forall fs f vs s pre post l ls,
     insts f = pre ++ Some opEnd :: post -> pc f = len pre ->
     labels f = ls ++ [l] -> endPc l = len pre ->
     step (on_frame fs f vs s) = (Ok tt, on_frame fs (set_labels ls f) vs s)) as Hlabel.
  { intros fs f vs s pre post l ls Hi Hpc Hl He.
    rewrite (step_at _ _ _ _ _ _ _ Hi Hpc). cbn [exec_interface].
    rewrite opEnd_exec_spec, Hl, stack_Pop_push, He, <- Hpc.
    destruct f; reflexivity. }
  assert (forall fs f vs s pre post,
     insts f = pre ++ Some opEnd :: post -> pc f = len pre -> labels f = [] ->
     step (on_frame fs f vs s) =
     (Ok tt, {| frameStack := fs; valueStack := vs; store_ := s |})) as Hnone.
  { intros fs f vs s pre post Hi Hpc Hl.
    rewrite (step_at _ _ _ _ _ _ _ Hi Hpc). cbn [exec_interface].
    rewrite opEnd_exec_spec, Hl. reflexivity. }
  split; [exact Hlabel|]. split; [exact Hnone|].
  intros b rest sp0 md vs s.
  set (lbl := {| l_kind := LabelKindBlock; startPc := 0; endPc := 1 |}).
  set (code := Some (opBlock b) :: Some opEnd :: rest).
  set (f0 := {| pc := 0; sp := sp0; insts := code; labels := []; f_mod := md |}).
  set (f1 := {| pc := 1; sp := sp0; insts := code; labels := [lbl]; f_mod := md |}).
  set (f2 := {| pc := 1; sp := sp0; insts := code; labels := []; f_mod := md |}).
  assert (step (on_frame [] f0 vs s) = (Ok tt, on_frame [] f1 vs s)) as S0.
  { rewrite (step_at [] f0 vs s [] (Some (opBlock b)) (Some opEnd :: rest))
      by reflexivity.
    cbn [exec_interface].
    rewrite (opBlock_exec_spec b [] f0 vs s [] [] rest) by (reflexivity || constructor).
    reflexivity. }
  assert (step (on_frame [] f1 vs s) = (Ok tt, on_frame [] f2 vs s)) as S1.
  { exact (Hlabel [] f1 vs s [Some (opBlock b)] rest lbl [] eq_refl eq_refl eq_refl eq_refl). }
  assert (step (on_frame [] f2 vs s) =
          (Ok tt, {| frameStack := []; valueStack := vs; store_ := s |})) as S2.
  { exact (Hnone [] f2 vs s [Some (opBlock b)] rest eq_refl eq_refl eq_refl). }
  rewrite Execute_S, S0, Execute_S, S1, Execute_S, S2. reflexivity.
Qed.

Lemma stack_Peek_outside {T} (zero : T) (s : stack T) (depth : Z) :
  s <> [] -> ~ 0 <= depth < len s -> stack_Peek zero s depth = Panic IndexOutOfRange.
Proof.
  intros Hne Hout. unfold stack_Peek, stack_isEmpty, stack_Len.
  destruct (Z.eqb_spec (len s) 0) as [E|E].
  { destruct s; [contradiction|]. unfold len in E. cbn [length] in E. lia. }
  unfold index. fold (len s).
  destruct (Z.ltb_spec (len s - 1 - depth) 0); [reflexivity|].
  destruct (Z.leb_spec (len s) (len s - 1 - depth)); [reflexivity|]. lia.
Qed.

(** [br] outside the label stack: with no label on the frame's label stack
    it returns the error "no label found level: L" and leaves the pc at 0;
    with labels, at a level that is negative or not below their number, it
    panics on the index. *)
Theorem br_outside_the_label_stack :
  (forall fs f vs s L,
     labels f = [] ->
     exec (opBr L) (on_frame fs f vs s) =
     (Err (Errorf ("no label found level: " +:+ pretty (int L))),
      on_frame fs (set_pc 0 f) vs s)) /\
  (forall fs f vs s L,
     labels f <> [] -> ~ 0 <= int L < len (labels f) ->
     exec (opBr L) (on_frame fs f vs s) = (Panic IndexOutOfRange, on_frame fs f vs s)) /\
  (let lbl := {| l_kind := LabelKindBlock; startPc := 0; endPc := 5 |} in
   exec (opBr 0) (test_machine [] 3 [] [] zeroStore) =
     (Err (Errorf "no label found level: 0"), test_machine [] 0 [] [] zeroStore) /\
   exec (opBr 1) (test_machine [] 3 [lbl] [] zeroStore) =
     (Panic IndexOutOfRange, test_machine [] 3 [lbl] [] zeroStore)).
Proof.
  split; [|split].
  - intros fs f vs s L Hl. cbn [exec]. unfold opBr_exec, branch. run_exec.
    unfold br. rewrite Hl.
    change (stack_Peek zeroLabel [] (int L)) with (@Ok (label * bool) (zeroLabel, false)).
    cbn [rbind negb]. rewrite updFrame_on. reflexivity.
  - intros fs f vs s L Hne Hout. cbn [exec]. unfold opBr_exec, branch. run_exec.
    unfold br. rewrite (stack_Peek_outside zeroLabel _ _ Hne Hout). reflexivity.
  - intros lbl. split; vm_compute; reflexivity.
Qed.

(** [br_table] reads its index as a signed integer: an index inside the
    table selects its entry, one at or past the length the default, and a
    negative one panics on the table before any branch is taken. *)
Theorem br_table_selects :
  (forall arr d fs f vs s v,
     len arr <= int (V_I32 v) ->
     exec (opBrTable arr d) (on_frame fs f (vs ++ [v]) s) = branch d (on_frame fs f vs s)) /\
  (forall arr d fs f vs s v level,
     0 <= int (V_I32 v) -> arr !! Z.to_nat (int (V_I32 v)) = Some level ->
     exec (opBrTable arr d) (on_frame fs f (vs ++ [v]) s) =
     branch level (on_frame fs f vs s)) /\
  (forall arr d fs f vs s v,
     int (V_I32 v) < 0 ->
     exec (opBrTable arr d) (on_frame fs f (vs ++ [v]) s) =
     (Panic IndexOutOfRange, on_frame fs f vs s)) /\
  (let outer := {| l_kind := LabelKindBlock; startPc := 0; endPc := 12 |} in
   let inner := {| l_kind := LabelKindLoop; startPc := 2; endPc := 9 |} in
   exec (opBrTable [0; 1] 1) (test_machine [] 5 [outer; inner] [ValueFromI32 0] zeroStore) =
     (Ok tt, test_machine [] 2 [outer; inner] [] zeroStore) /\
   exec (opBrTable [0; 1] 1) (test_machine [] 5 [outer; inner] [ValueFromI32 7] zeroStore) =
     (Ok tt, test_machine [] 12 [outer; inner] [] zeroStore) /\
   exec (opBrTable [0; 1] 1) (test_machine [] 5 [outer; inner] [ValueFromI32 (-1)] zeroStore) =
     (Panic IndexOutOfRange, test_machine [] 5 [outer; inner] [] zeroStore)).
Proof.
  split; [|split; [|split]].
  - intros arr d fs f vs s v H. cbn [exec]. unfold opBrTable_exec. run_exec.
    destruct (Z.ltb_spec (int (V_I32 v)) (len arr)); [lia|]. reflexivity.
  - intros arr d fs f vs s v level H0 Hl. cbn [exec]. unfold opBrTable_exec. run_exec.
    pose proof (lookup_lt_Some _ _ _ Hl) as Hlt.
    destruct (Z.ltb_spec (int (V_I32 v)) (len arr)); [|unfold len in *; lia].
    unfold lift, index.
    destruct (Z.ltb_spec (int (V_I32 v)) 0); [lia|].
    destruct (Z.leb_spec (Z.of_nat (length arr)) (int (V_I32 v))); [lia|].
    cbn [orb]. rewrite Hl. reflexivity.
  - intros arr d fs f vs s v H. cbn [exec]. unfold opBrTable_exec. run_exec.
    destruct (Z.ltb_spec (int (V_I32 v)) (len arr)); [|unfold len in *; lia].
    unfold lift, index.
    destruct (Z.ltb_spec (int (V_I32 v)) 0); [|lia]. reflexivity.
  - intros outer inner. repeat split; vm_compute; reflexivity.
Qed.

(* ================================================================== *)
(** * Memory instances *)

Lemma int_small z : - 2 ^ 63 <= z < 2 ^ 63 -> int z = z.
Proof. intros H. unfold int, int64. apply (wraps_small 64); [lia|exact H]. Qed.

Lemma copy_slice_zeros (k : nat) (old : list byte) (i : nat) :
  (i < k)%nat ->
  copy_slice (replicate k x00) old !! i = Some (default x00 (old !! i)).
Proof.
  intros Hi. unfold copy_slice. rewrite length_replicate.
  destruct (Nat.lt_ge_cases i (length old)) as [Hlt|Hge].
  - rewrite lookup_app_l by (rewrite length_take; lia).
    rewrite lookup_take_lt by lia.
    destruct (lookup_lt_is_Some_2 old i Hlt) as [b Hb]. rewrite Hb. reflexivity.
  - rewrite lookup_app_r by (rewrite length_take; lia).
    rewrite length_take, Nat.min_r by lia.
    rewrite lookup_drop.
    rewrite (lookup_ge_None_2 old i) by lia. cbn [default].
    apply lookup_replicate_2. lia.
Qed.

Lemma copy_slice_length {A} (dst src : list A) :
  length (copy_slice dst src) = length dst.
Proof. unfold copy_slice. rewrite length_app, length_take, length_drop. lia. Qed.

(** [memInst.grow] on a memory shorter than 2^31 bytes, for a page count
    [n] of 32 bits.  With a maximum that is not negative and below the new
    page count it returns an error whose text gives the new page count as
    the maximum and the maximum as the grow size.  Otherwise a negative new
    page count panics in [make], and any other gives a memory of that many
    pages holding the old bytes, cut to the new size when [n] is negative,
    and zeros behind them. *)
Theorem grow_contract (m : memInst) (n : Z) :
  let mx := Max (mt_limits (m_memType m)) in
  let toPages := len (m_data m) / PAGE_SIZE + n in
  - 2 ^ 31 <= mx < 2 ^ 31 -> - 2 ^ 31 <= n < 2 ^ 31 -> len (m_data m) < 2 ^ 31 ->
  (0 <= mx < toPages ->
   memInst_grow m n =
   Err (Errorf ("memory page is overflow. max is " +:+ pretty toPages +:+
                ", grow size is " +:+ pretty mx))) /\
  (~ 0 <= mx < toPages -> toPages < 0 -> memInst_grow m n = Panic MakeLenOutOfRange) /\
  (~ 0 <= mx < toPages -> 0 <= toPages ->
   exists d, memInst_grow m n = Ok {| m_memType := m_memType m; m_data := d |} /\
             len d = toPages * PAGE_SIZE /\
             forall i, (i < length d)%nat -> d !! i = Some (default x00 (m_data m !! i))).
Proof.
  intros mx toPages Hmx Hn Hlen.
  assert (H0 : 0 <= len (m_data m)) by (unfold len; lia).
  assert (Hq : 0 <= len (m_data m) / PAGE_SIZE < 2 ^ 31).
  { unfold PAGE_SIZE. split; [apply Z.div_pos; lia|].
    apply Z.div_lt_upper_bound; lia. }
  assert (Hp : memInst_pages m + n = toPages).
  { unfold memInst_pages, memInst_size, toPages.
    rewrite Z.quot_div_nonneg by (unfold PAGE_SIZE; lia).
    rewrite int_small by lia. reflexivity. }
  unfold memInst_grow. rewrite Hp. fold mx. rewrite (int_small mx) by lia.
  split; [|split].
  - intros [Ha Hb].
    destruct (Z.leb_spec 0 mx); [|lia]. destruct (Z.ltb_spec mx toPages); [|lia].
    reflexivity.
  - intros Hno Hneg.
    assert ((0 <=? mx) && (mx <? toPages) = false) as ->.
    { destruct (Z.leb_spec 0 mx); destruct (Z.ltb_spec mx toPages); try reflexivity. lia. }
    unfold make_bytes. destruct (Z.ltb_spec (toPages * PAGE_SIZE) 0); [reflexivity|].
    unfold PAGE_SIZE in *. lia.
  - intros Hno Hpos.
    assert ((0 <=? mx) && (mx <? toPages) = false) as ->.
    { destruct (Z.leb_spec 0 mx); destruct (Z.ltb_spec mx toPages); try reflexivity. lia. }
    unfold make_bytes. destruct (Z.ltb_spec (toPages * PAGE_SIZE) 0).
    { unfold PAGE_SIZE in *. lia. }
    cbn [rbind]. eexists. split; [reflexivity|]. split.
    + unfold len. rewrite copy_slice_length, length_replicate.
      apply Z2Nat.id. unfold PAGE_SIZE in *. lia.
    + intros i Hi. rewrite copy_slice_length, length_replicate in Hi.
      apply copy_slice_zeros. exact Hi.
Qed.

Lemma grow_contract_witness :
  memInst_grow (mem_of 1 [x01; x02]) 2 =
    Err (Errorf "memory page is overflow. max is 2, grow size is 1") /\
  memInst_grow (mem_of (-1) [x01; x02]) (-1) = Panic MakeLenOutOfRange /\
  exists d, memInst_grow (mem_of (-1) [x01; x02]) 0 =
              Ok {| m_memType := m_memType (mem_of (-1) [x01; x02]); m_data := d |} /\
            len d = 0 * PAGE_SIZE.
Proof.
  split; [|split].
  - apply (proj1 (grow_contract (mem_of 1 [x01; x02]) 2
                    ltac:(vm_compute; split; [discriminate|reflexivity])
                    ltac:(lia) ltac:(vm_compute; reflexivity))).
    vm_compute. split; [discriminate|reflexivity].
  - apply (proj1 (proj2 (grow_contract (mem_of (-1) [x01; x02]) (-1)
                    ltac:(vm_compute; split; [discriminate|reflexivity])
                    ltac:(lia) ltac:(vm_compute; reflexivity)))).
    + vm_compute. intros [H _]. apply H. reflexivity.
    + vm_compute. reflexivity.
  - destruct (proj2 (proj2 (grow_contract (mem_of (-1) [x01; x02]) 0
                    ltac:(vm_compute; split; [discriminate|reflexivity])
                    ltac:(lia) ltac:(vm_compute; reflexivity)))) as [d [H1 [H2 _]]].
    + vm_compute. intros [H _]. apply H. reflexivity.
    + vm_compute. discriminate.
    + exists d. split; [exact H1|exact H2].
Defined.

Lemma mem_load_wraps (n : nat) (m : memInst) (addr : Z) :
  len (m_data m) < addr -> 0 <= addr < 2 ^ 31 -> (n <= 8)%nat ->
  2 ^ 31 <= addr + Z.of_nat n ->
  mem_load n m addr = Panic SliceBoundsOutOfRange.
Proof.
  intros Hlen Haddr Hn Hend. unfold mem_load, mem_oob, int32.
  assert (0 <= len (m_data m)) by (unfold len; lia).
  rewrite (wraps_small 32 ltac:(lia) (len (m_data m))) by lia.
  destruct (Z.ltb_spec addr 0); [lia|]. cbn [orb].
  assert (Hw : wraps 32 (addr + Z.of_nat n) = addr + Z.of_nat n - 2 ^ 32).
  { unfold wraps. change (32 - 1) with 31.
    replace (addr + Z.of_nat n + 2 ^ 31) with (addr + Z.of_nat n - 2 ^ 31 + 1 * 2 ^ 32) by lia.
    rewrite Z.mod_add by lia. rewrite Z.mod_small by lia. lia. }
  rewrite Hw.
  destruct (Z.ltb_spec (len (m_data m)) (addr + Z.of_nat n - 2 ^ 32)); [lia|].
  unfold slice_from. fold (len (m_data m)).
  destruct (Z.ltb_spec addr 0); [lia|].
  destruct (Z.ltb_spec (len (m_data m)) addr); [reflexivity|]. lia.
Qed.

(** The load accessors [load8], [load16], [load32] and [load64] on a
    memory shorter than 2^31 bytes ignore their alignment argument.  An
    access that lies inside the memory returns the bytes at the address
    read as a little-endian unsigned integer; a negative address or an
    access that ends behind the memory returns the out-of-bounds error;
    and an address behind the memory, so close to 2^31 that the end of the
    access overflows 32 bits, passes the bounds test and panics on the
    slice. *)
Theorem loads_read_little_endian :
  Forall (fun '(n, ld) =>
    forall (m : memInst) (addr align : Z),
      len (m_data m) < 2 ^ 31 -> - 2 ^ 31 <= addr < 2 ^ 31 ->
      (0 <= addr -> addr + Z.of_nat n <= len (m_data m) ->
       ld m addr align = Ok (le_decode (take n (drop (Z.to_nat addr) (m_data m))))) /\
      (addr < 0 \/ (len (m_data m) < addr + Z.of_nat n < 2 ^ 31) ->
       ld m addr align = Err errOutOfBounds) /\
      (len (m_data m) < addr -> 2 ^ 31 <= addr + Z.of_nat n ->
       ld m addr align = Panic SliceBoundsOutOfRange))
    load_fns /\
  Error errOutOfBounds = "out of bounds memory access" /\
  (let m := mem_of (-1) [x78; x56; x34; x12; xef; xcd; xab; x89] in
   load8 m 1 0 = Ok 0x56 /\ load16 m 1 0 = Ok 0x3456 /\ load32 m 0 0 = Ok 0x12345678 /\
   load32 m 4 3 = Ok 0x89abcdef /\ load64 m 0 0 = Ok 0x89abcdef12345678 /\
   load32 m 5 0 = Err errOutOfBounds /\ load8 m (-1) 0 = Err errOutOfBounds /\
   load32 m 2147483645 0 = Panic SliceBoundsOutOfRange).
Proof.
  split; [|split; [reflexivity|]].
  - assert (G : forall n (m : memInst) (addr : Z), (n <= 8)%nat ->
      len (m_data m) < 2 ^ 31 -> - 2 ^ 31 <= addr < 2 ^ 31 ->
      (0 <= addr -> addr + Z.of_nat n <= len (m_data m) ->
       mem_load n m addr = Ok (le_decode (take n (drop (Z.to_nat addr) (m_data m))))) /\
      (addr < 0 \/ (len (m_data m) < addr + Z.of_nat n < 2 ^ 31) ->
       mem_load n m addr = Err errOutOfBounds) /\
      (len (m_data m) < addr -> 2 ^ 31 <= addr + Z.of_nat n ->
       mem_load n m addr = Panic SliceBoundsOutOfRange)).
    { intros n m addr Hn Hlen Haddr. split; [|split].
      - intros H0 Hend. rewrite mem_load_in_range by lia.
        destruct (Z.ltb_spec (len (m_data m)) (addr + Z.of_nat n)); [lia|reflexivity].
      - intros [Hneg|Hend].
        + unfold mem_load, mem_oob. destruct (Z.ltb_spec addr 0); [reflexivity|lia].
        + destruct (Z.lt_ge_cases addr 0) as [Hneg|Hpos].
          * unfold mem_load, mem_oob. destruct (Z.ltb_spec addr 0); [reflexivity|lia].
          * rewrite mem_load_in_range by lia.
            destruct (Z.ltb_spec (len (m_data m)) (addr + Z.of_nat n)); [reflexivity|lia].
      - intros Hbehind Hend. apply mem_load_wraps; lia. }
    unfold load_fns.
    repeat (apply List.Forall_cons; [intros m addr align; apply (G _ m addr); lia|]).
    apply List.Forall_nil.
  - intros m. repeat split; vm_compute; reflexivity.
Qed.

Lemma defaultMem_on fs f vs s md a mem :
  f_mod f = Some md -> defaultMemAddr md = Ok a -> index (mems s) a = Ok mem ->
  defaultMem f (on_frame fs f vs s) = (Ok (a, mem), on_frame fs f vs s).
Proof.
  intros Hmod Haddr Hmem.
  unfold defaultMem, frameMod, bind, lift, get, ret. rewrite Hmod.
  unfold on_frame. cbn [store_]. rewrite Haddr, Hmem. reflexivity.
Qed.

Lemma V_I32_small z : - 2 ^ 31 <= z < 2 ^ 31 -> V_I32 (ValueFromI32 z) = z.
Proof. apply (proj1 carries_i32). Qed.

(** [memory.copy] pops the length, the source and the destination and
    copies inside the default memory of the store, as Go's [copy] does:
    from the old bytes, so that overlapping ranges come out right, and no
    more bytes than lie between the destination and the end of the memory.
    A copy that would run past the end is cut short without an error; a
    destination or a source range outside the memory panics on the slice. *)
Theorem memory_copy_moves_bytes :
  (forall fs f vs s md a mem dst src n,
     f_mod f = Some md -> defaultMemAddr md = Ok a -> index (mems s) a = Ok mem ->
     len (m_data mem) < 2 ^ 31 ->
     0 <= dst <= len (m_data mem) -> 0 <= src -> 0 <= n -> src + n <= len (m_data mem) ->
     let k := Z.to_nat (Z.min n (len (m_data mem) - dst)) in
     exec opMemoryCopy
       (on_frame fs f (vs ++ [ValueFromI32 dst; ValueFromI32 src; ValueFromI32 n]) s) =
     (Ok tt,
      on_frame fs (stepped 1 f) vs
        (with_mem_data a
           (take (Z.to_nat dst) (m_data mem) ++
            take k (drop (Z.to_nat src) (m_data mem)) ++
            drop (Z.to_nat dst + k) (m_data mem)) s))) /\
  (forall fs f vs s md a mem dst src n,
     f_mod f = Some md -> defaultMemAddr md = Ok a -> index (mems s) a = Ok mem ->
     len (m_data mem) < dst < 2 ^ 31 ->
     exec opMemoryCopy
       (on_frame fs f (vs ++ [ValueFromI32 dst; ValueFromI32 src; ValueFromI32 n]) s) =
     (Panic SliceBoundsOutOfRange, on_frame fs f vs s)) /\
  (let code := [Some opMemoryCopy; Some opEnd] in
   let s := test_store (mem_of (-1) [x01; x02; x03; x04; x05; x06; x07; x08])
                       (test_global I32 var_ (ValueFromI32 0)) in
   let run (dst src n : Z) :=
     let '(r, st) := exec opMemoryCopy
        (test_machine code 0 [] [ValueFromI32 dst; ValueFromI32 src; ValueFromI32 n] s) in
     (r, top_pc st, map m_data (mems (store_ st))) in
   run 2 0 4 = (Ok tt, Some 1, [[x01; x02; x01; x02; x03; x04; x07; x08]]) /\
   run 0 2 4 = (Ok tt, Some 1, [[x03; x04; x05; x06; x05; x06; x07; x08]]) /\
   run 6 0 4 = (Ok tt, Some 1, [[x01; x02; x03; x04; x05; x06; x01; x02]]) /\
   run 8 0 4 = (Ok tt, Some 1, [[x01; x02; x03; x04; x05; x06; x07; x08]]) /\
   run 0 6 4 = (Panic SliceBoundsOutOfRange, Some 0,
                [[x01; x02; x03; x04; x05; x06; x07; x08]]) /\
   run 9 0 0 = (Panic SliceBoundsOutOfRange, Some 0,
                [[x01; x02; x03; x04; x05; x06; x07; x08]])).
Proof.
  split; [|split].
  - intros fs f vs s md a mem dst src n Hmod Haddr Hmem Hlen Hdst Hsrc Hn Hend k.
    assert (H0 : 0 <= len (m_data mem)) by (unfold len; lia).
    cbn [exec]. unfold opMemoryCopy_exec.
    replace (vs ++ [ValueFromI32 dst; ValueFromI32 src; ValueFromI32 n])
      with (((vs ++ [ValueFromI32 dst]) ++ [ValueFromI32 src]) ++ [ValueFromI32 n])
      by (rewrite <- !app_assoc; reflexivity).
    run_exec. rewrite (defaultMem_on _ _ _ _ _ _ _ Hmod Haddr Hmem).
    rewrite !V_I32_small by lia.
    unfold int32. rewrite (wraps_small 32) by lia.
    unfold slice_from, slice_range. fold (len (m_data mem)).
    destruct (Z.ltb_spec dst 0); [lia|].
    destruct (Z.ltb_spec (len (m_data mem)) dst); [lia|].
    destruct (Z.ltb_spec (src + n) 0); [lia|].
    destruct (Z.ltb_spec (len (m_data mem)) (src + n)); [lia|].
    destruct (Z.ltb_spec src 0); [lia|].
    destruct (Z.ltb_spec (src + n) src); [lia|].
    cbn [orb]. unfold lift. run_exec.
    unfold write_mem_array, on_frame. cbn [frameStack valueStack store_].
    fold (with_mem_data a
            (take (Z.to_nat dst) (m_data mem) ++
             copy_slice (drop (Z.to_nat dst) (m_data mem))
               (take (Z.to_nat (src + n - src)) (drop (Z.to_nat src) (m_data mem)))) s).
    fold (on_frame fs f vs
            (with_mem_data a
               (take (Z.to_nat dst) (m_data mem) ++
                copy_slice (drop (Z.to_nat dst) (m_data mem))
                  (take (Z.to_nat (src + n - src)) (drop (Z.to_nat src) (m_data mem)))) s)).
    rewrite NextStep_on. do 3 f_equal. f_equal.
    unfold copy_slice. replace (src + n - src) with n by lia.
    rewrite length_drop, length_take, length_drop.
    rewrite take_take.
    assert (Hk : Nat.min (length (m_data mem) - Z.to_nat dst) (Z.to_nat n) = k).
    { unfold k, len in *. lia. }
    rewrite Hk. f_equal. rewrite drop_drop.
    destruct (Z.le_gt_cases n (len (m_data mem) - dst)).
    + f_equal. unfold k, len in *. lia.
    + rewrite !drop_ge by (unfold k, len in *; lia). reflexivity.
  - intros fs f vs s md a mem dst src n Hmod Haddr Hmem Hdst.
    cbn [exec]. unfold opMemoryCopy_exec.
    replace (vs ++ [ValueFromI32 dst; ValueFromI32 src; ValueFromI32 n])
      with (((vs ++ [ValueFromI32 dst]) ++ [ValueFromI32 src]) ++ [ValueFromI32 n])
      by (rewrite <- !app_assoc; reflexivity).
    run_exec. rewrite (defaultMem_on _ _ _ _ _ _ _ Hmod Haddr Hmem).
    assert (H0 : 0 <= len (m_data mem)) by (unfold len; lia).
    rewrite (V_I32_small dst) by lia.
    unfold slice_from. fold (len (m_data mem)).
    destruct (Z.ltb_spec dst 0); [lia|].
    destruct (Z.ltb_spec (len (m_data mem)) dst); [|lia].
    reflexivity.
  - intros code s run. unfold run. repeat split; vm_compute; reflexivity.
Qed.

(* ================================================================== *)
(** * The reader and the decoder *)

Lemma forward_ret {A} (a : A) : forward (ret a : P A).
Proof. intros r H. cbn. repeat split; try apply H; try lia. discriminate. Qed.

Lemma forward_fail {A} e : forward (fail e : P A).
Proof. intros r H. cbn. repeat split; try apply H; try lia. discriminate. Qed.

Lemma forward_lift {A} (x : result A) : x <> OutOfFuel -> forward (lift x : P A).
Proof. intros Hx r H. cbn. repeat split; try apply H; try lia. exact Hx. Qed.

Lemma forward_bind {A B} (m : P A) (k : A -> P B) :
  forward m -> (forall a, forward (k a)) -> forward (bind m k).
Proof.
  intros Hm Hk r Hr. unfold bind. specialize (Hm r Hr).
  destruct (m r) as [x r1]. cbn [fst snd] in Hm.
  destruct Hm as (Hb & Hp & Hin & Hx).
  destruct x as [a|e|p|]; cbn [fst snd]; try (repeat split; try apply Hin; try assumption; discriminate).
  - specialize (Hk a r1 Hin). destruct (k a r1) as [y r2]. cbn [fst snd] in *.
    destruct Hk as (Hb2 & Hp2 & Hin2 & Hy).
    repeat split; try apply Hin2; try congruence; try lia.
  - contradiction.
Qed.

Lemma eats_bind_l {A B} (m : P A) (k : A -> P B) :
  eats m -> (forall a, forward (k a)) -> eats (bind m k).
Proof.
  intros [Hm He] Hk. split; [apply forward_bind; assumption|].
  intros r b Hr. unfold bind. specialize (Hm r Hr). specialize (He r).
  destruct (m r) as [x r1]. cbn [fst snd] in *.
  destruct Hm as (Hb & Hp & Hin & Hx).
  destruct x as [a|e|p|]; cbn [fst snd]; try discriminate.
  specialize (Hk a r1 Hin). specialize (He a Hr eq_refl).
  destruct (k a r1) as [y r2]. cbn [fst snd] in *.
  intros _. lia.
Qed.

Lemma forward_attempt {A} (m : P A) : forward m -> forward (attempt m).
Proof.
  intros Hm r Hr. unfold attempt. specialize (Hm r Hr).
  destruct (m r) as [x r1]. cbn [fst snd] in *.
  destruct Hm as (Hb & Hp & Hin & Hx).
  destruct x; cbn [fst snd]; try contradiction;
    repeat split; try apply Hin; try assumption; try discriminate.
Qed.

Lemma eats_forward {A} (m : P A) : eats m -> forward m.
Proof. intros [H _]. exact H. Qed.

Lemma eats_eatU8 : eats eatU8.
Proof.
  split.
  - intros r [H0 H1]. rewrite (eatU8_spec r H0).
    destruct (drop (Z.to_nat (pos r)) (bytes r)) as [|b tl] eqn:E; cbn [fst snd bytes pos].
    + unfold in_bounds. repeat split; try lia. discriminate.
    + assert (length (drop (Z.to_nat (pos r)) (bytes r)) <> 0)%nat by (rewrite E; discriminate).
      rewrite length_drop in H. unfold in_bounds, len in *. cbn [bytes pos].
      repeat split; try lia. discriminate.
  - intros r a [H0 H1]. rewrite (eatU8_spec r H0).
    destruct (drop (Z.to_nat (pos r)) (bytes r)); cbn [fst snd pos]; [discriminate|lia].
Qed.

Lemma eatU64_loop_eats fuel : forall v shift r,
  in_bounds r -> (Z.to_nat (len (bytes r) - pos r) < fuel)%nat ->
  (bytes (snd (eatU64_loop fuel v shift r)) = bytes r /\
   pos r <= pos (snd (eatU64_loop fuel v shift r)) /\
   in_bounds (snd (eatU64_loop fuel v shift r)) /\
   fst (eatU64_loop fuel v shift r) <> OutOfFuel) /\
  (forall a, fst (eatU64_loop fuel v shift r) = Ok a ->
             pos r < pos (snd (eatU64_loop fuel v shift r))).
Proof.
  induction fuel as [|fuel IH]; intros v shift r Hr Hfuel; [lia|].
  cbn [eatU64_loop]. unfold bind.
  destruct eats_eatU8 as [Hf He]. specialize (Hf r Hr). specialize (He r).
  destruct (eatU8 r) as [x r1]. cbn [fst snd] in *.
  destruct Hf as (Hb & Hp & Hin & Hx).
  destruct x as [a|e|p|]; cbn [fst snd];
    try (split; [repeat split; try apply Hin; try assumption; discriminate|discriminate]).
  - specialize (He a Hr eq_refl).
    destruct (Z.shiftr (Z.land a 128) 7 =? 0).
    + cbn [ret fst snd]. split; [repeat split; try apply Hin; try assumption; discriminate|].
      intros _ _. exact He.
    + destruct (IH (Z.lor v (shlu64 (Z.land (uint64 a) 127) shift)) (shift + 7) r1 Hin)
        as [(Hb2 & Hp2 & Hin2 & Hy) He2].
      { rewrite Hb. unfold in_bounds in *. rewrite Hb in Hin. lia. }
      split; [repeat split; try apply Hin2; try congruence; try lia|].
      intros b _. lia.
Qed.

Lemma eatI64_loop_eats fuel : forall v shift r,
  in_bounds r -> (Z.to_nat (len (bytes r) - pos r) < fuel)%nat ->
  (bytes (snd (eatI64_loop fuel v shift r)) = bytes r /\
   pos r <= pos (snd (eatI64_loop fuel v shift r)) /\
   in_bounds (snd (eatI64_loop fuel v shift r)) /\
   fst (eatI64_loop fuel v shift r) <> OutOfFuel) /\
  (forall a, fst (eatI64_loop fuel v shift r) = Ok a ->
             pos r < pos (snd (eatI64_loop fuel v shift r))).
Proof.
  induction fuel as [|fuel IH]; intros v shift r Hr Hfuel; [lia|].
  cbn [eatI64_loop]. unfold bind.
  destruct eats_eatU8 as [Hf He]. specialize (Hf r Hr). specialize (He r).
  destruct (eatU8 r) as [x r1]. cbn [fst snd] in *.
  destruct Hf as (Hb & Hp & Hin & Hx).
  destruct x as [a|e|p|]; cbn [fst snd];
    try (split; [repeat split; try apply Hin; try assumption; discriminate|discriminate]).
  - specialize (He a Hr eq_refl).
    destruct (Z.shiftr (Z.land a 128) 7 =? 0).
    + destruct (negb (Z.shiftr (Z.land a 64) 3 =? 0)); cbn [ret fst snd];
        (split; [repeat split; try apply Hin; try assumption; discriminate|]);
        intros _ _; exact He.
    + destruct (IH (Z.lor v (shl64 (Z.land (int64 a) 127) shift)) (shift + 7) r1 Hin)
        as [(Hb2 & Hp2 & Hin2 & Hy) He2].
      { rewrite Hb. unfold in_bounds in *. rewrite Hb in Hin. lia. }
      split; [repeat split; try apply Hin2; try congruence; try lia|].
      intros b _. lia.
Qed.

Lemma eats_eatU64 : eats eatU64.
Proof.
  split.
  - intros r Hr. apply (eatU64_loop_eats (S (length (bytes r))) 0 0 r Hr).
    unfold in_bounds, len in *. lia.
  - intros r a Hr. apply (eatU64_loop_eats (S (length (bytes r))) 0 0 r Hr).
    unfold in_bounds, len in *. lia.
Qed.

Lemma eats_eatI64 : eats eatI64.
Proof.
  split.
  - intros r Hr. apply (eatI64_loop_eats (S (length (bytes r))) 0 0 r Hr).
    unfold in_bounds, len in *. lia.
  - intros r a Hr. apply (eatI64_loop_eats (S (length (bytes r))) 0 0 r Hr).
    unfold in_bounds, len in *. lia.
Qed.

Lemma eats_eatU32 : eats eatU32.
Proof. apply eats_bind_l; [apply eats_eatU64|intros; apply forward_ret]. Qed.

Lemma eats_eatI32 : eats eatI32.
Proof. apply eats_bind_l; [apply eats_eatI64|intros; apply forward_ret]. Qed.

Lemma yields_ret {A} (Q : A -> Prop) (a : A) : Q a -> yields Q (ret a).
Proof. intros H r a' r' E. inversion E; subst. exact H. Qed.

Lemma yields_fail {A} (Q : A -> Prop) e : yields Q (fail e).
Proof. intros r a' r' E. inversion E. Qed.

Lemma yields_bind {A B} (Q : B -> Prop) (m : P A) (k : A -> P B) :
  (forall a, yields Q (k a)) -> yields Q (bind m k).
Proof.
  intros Hk r b r' E. unfold bind in E. destruct (m r) as [x r1].
  destruct x; try discriminate. exact (Hk _ _ _ _ E).
Qed.

Lemma forward_eatBlock : forward eatBlock.
Proof.
  apply forward_bind; [apply eats_forward, eats_eatU8|].
  intros bt. destruct (bt =? 64); apply forward_ret.
Qed.

Lemma forward_memoryArgs : forward memoryArgs.
Proof.
  apply forward_bind; [apply eats_forward, eats_eatI32|]. intros a.
  apply forward_bind; [apply eats_forward, eats_eatI32|]. intros b. apply forward_ret.
Qed.

Ltac fwd :=
  repeat first
    [ apply forward_ret | apply forward_fail
    | apply forward_eatBlock | apply forward_memoryArgs
    | apply forward_attempt
    | apply eats_forward; first [apply eats_eatU8 | apply eats_eatU32 | apply eats_eatI32
                                | apply eats_eatU64 | apply eats_eatI64]
    | apply forward_bind; [|intros ?]
    | match goal with
      | |- forward (let '(_, _) := ?p in _) => destruct p
      | |- forward (if ?c then _ else _) => destruct c
      end ].

Ltac yld :=
  repeat first
    [ apply yields_ret; unfold flags_end; cbn [fst snd]; split; intros; first [discriminate|reflexivity]
    | apply yields_fail
    | apply yields_bind; intros ?
    | match goal with
      | |- yields _ (let '(_, _) := ?p in _) => destruct p
      | |- yields _ (if ?c then _ else _) => destruct c
      end ].

Section Decoder.
Variable fl : floatOps.

Lemma eats_parse_instr : eats (parse_instr fl).
Proof.
unfold parse_instr. apply eats_bind_l; [apply eats_eatU8|].
intros op. destruct (byte_of_Z op);
  unfold plain, stub, parse_load, parse_store; fwd.
Qed.

Lemma parse_instr_flags_end : yields flags_end (parse_instr fl).
Proof.
unfold parse_instr. apply yields_bind.
intros op. destruct (byte_of_Z op);
  unfold plain, stub, parse_load, parse_store; yld.
Qed.

End Decoder.

Section Expressions.
Variable fl : floatOps.

Lemma expr_loop_spec fuel : forall e r,
in_bounds r -> (Z.to_nat (len (bytes r) - pos r) < fuel)%nat ->
(bytes (snd (expr_loop fl fuel e r)) = bytes r /\
 pos r <= pos (snd (expr_loop fl fuel e r)) /\
 in_bounds (snd (expr_loop fl fuel e r)) /\
 fst (expr_loop fl fuel e r) <> OutOfFuel) /\
(forall e', fst (expr_loop fl fuel e r) = Ok e' ->
   pos r < pos (snd (expr_loop fl fuel e r)) /\
   exists e0, e' = e ++ e0 ++ [Some opEnd] /\ Forall (fun i => i <> Some opEnd) e0).
Proof.
induction fuel as [|fuel IH]; intros e r Hr Hfuel; [lia|].
cbn [expr_loop]. unfold bind.
destruct (eats_parse_instr fl) as [Hf He]. specialize (Hf r Hr). specialize (He r).
pose proof (parse_instr_flags_end fl r) as Hflag.
destruct (parse_instr fl r) as [x r1]. cbn [fst snd] in *.
destruct Hf as (Hb & Hp & Hin & Hx).
destruct x as [[i isEnd]|err|p|]; cbn [fst snd];
  try (split; [repeat split; try apply Hin; try assumption; discriminate|discriminate]).
1: specialize (He _ Hr eq_refl); specialize (Hflag _ _ eq_refl);
   unfold flags_end in Hflag; cbn [fst snd] in Hflag; destruct isEnd.
- cbn [ret fst snd]. split; [repeat split; try apply Hin; try assumption; discriminate|].
  intros e' E. inversion E; subst e'. split; [exact He|].
  exists []. split; [|constructor].
  rewrite (proj1 Hflag eq_refl). reflexivity.
- destruct (IH (e ++ [i]) r1 Hin) as [(Hb2 & Hp2 & Hin2 & Hy) He2].
  { rewrite Hb. unfold in_bounds in *. rewrite Hb in Hin. lia. }
  split; [repeat split; try apply Hin2; try congruence; try lia|].
  intros e' E. destruct (He2 e' E) as [Hlt [e0 [He0 Hall]]].
  split; [lia|]. exists (i :: e0). split.
  + rewrite He0, <- app_assoc. reflexivity.
  + constructor; [|exact Hall]. intros Hi. apply Hflag in Hi. discriminate.
- exfalso. apply Hx. reflexivity.
Qed.

Lemma eats_parse_expr : eats (parse_expr fl).
Proof.
split.
- intros r Hr. apply (expr_loop_spec (S (length (bytes r))) [] r Hr).
  unfold in_bounds, len in *. lia.
- intros r a Hr E. apply (expr_loop_spec (S (length (bytes r))) [] r Hr) with (e' := a).
  + unfold in_bounds, len in *. lia.
  + exact E.
Qed.

Lemma parse_expr_ends_once r :
in_bounds r -> forall e, fst (parse_expr fl r) = Ok e -> ends_once e.
Proof.
intros Hr e E.
destruct (expr_loop_spec (S (length (bytes r))) [] r Hr) as [_ H].
{ unfold in_bounds, len in *. lia. }
destruct (H e E) as [_ [e0 [He0 Hall]]]. exists e0. split; assumption.
Qed.

End Expressions.

(** The reader never goes back.  Each of the readers, [parser.instr] and
    [parser.expr] keeps the bytes, leaves the position at or behind where
    it was and inside the bytes, returns within its fuel, and has taken at
    least one byte when it returns a result.  A failed read is not undone:
    [eatU64] on two bytes that both ask for more fails with the position
    at the end. *)
Theorem reader_never_goes_back :
  Forall eats [eatU8; eatU64; eatI64; eatU32; eatI32] /\
  (forall fl, eats (parse_instr fl) /\ eats (parse_expr fl) /\ forward memoryArgs) /\
  eatU64 {| bytes := [x80; x80]; pos := 0 |} = (Err EOF, {| bytes := [x80; x80]; pos := 2 |}) /\
  eatU32 {| bytes := [x80; x01; x7f]; pos := 0 |} =
    (Ok 128, {| bytes := [x80; x01; x7f]; pos := 2 |}) /\
  eatU8 {| bytes := [x80]; pos := 1 |} = (Err EOF, {| bytes := [x80]; pos := 1 |}).
Proof.
  split; [|split].
  - repeat (apply List.Forall_cons;
            [first [apply eats_eatU8 | apply eats_eatU64 | apply eats_eatI64
                   | apply eats_eatU32 | apply eats_eatI32]|]).
    apply List.Forall_nil.
  - intros fl. split; [apply eats_parse_instr|]. split; [apply eats_parse_expr|].
    apply forward_memoryArgs.
  - repeat split; vm_compute; reflexivity.
Qed.

(** [parser.expr] ends at the first [end] opcode, whatever blocks were
    opened before it: an expression it returns holds exactly one [end], its
    last instruction.  So the body of a function stops at the [end] of its
    first block: of [block end i32.const 7 end] the decoder keeps
    [block end], the bytes behind are read as section headers, and the
    function, declared with an i32 result, returns the zero value it pops
    from the empty stack. *)
Theorem expr_ends_at_first_end :
  (forall fl r e, in_bounds r -> fst (parse_expr fl r) = Ok e -> ends_once e) /\
  (forall fl r, in_bounds r -> fst (parse_expr fl r) <> OutOfFuel) /\
  (forall fl,
     parse_expr fl {| bytes := [x02; x40; x0b; x41; x07; x0b]; pos := 0 |} =
       (Ok [Some (opBlock empty_block); Some opEnd],
        {| bytes := [x02; x40; x0b; x41; x07; x0b]; pos := 3 |}) /\
     rbind (fst (parse fl (newParser (module_with_body 0 x7f [x02; x40; x0b; x41; x07]))))
           (fun m => Ok (map body (m_funcs m))) =
       Ok [[Some (opBlock empty_block); Some opEnd]] /\
     run_body fl x7f [x02; x40; x0b; x41; x07] [] 10 = Ok [zeroValue] /\
     run_body fl x7f [x41; x07] [] 10 = Ok [ValueFromI32 7]).
Proof.
  split; [|split].
  - intros fl r e Hr E. exact (parse_expr_ends_once fl r Hr e E).
  - intros fl r Hr. apply (eats_parse_expr fl). exact Hr.
  - intros fl. repeat split; vm_compute; reflexivity.
Qed.

Lemma expr_ends_at_first_end_witness :
  ends_once [Some opNop; Some (opConst (ValueFromI32 7)); Some opEnd].
Proof.
  apply (proj1 expr_ends_at_first_end firstFloatOps
           {| bytes := [x01; x41; x07; x0b; x0b]; pos := 0 |}).
  - unfold in_bounds. vm_compute. split; discriminate.
  - vm_compute. reflexivity.
Defined.

Lemma wrapu_wrapu_le (a b z : Z) : 0 <= a <= b -> wrapu a (wrapu b z) = wrapu a z.
Proof.
  intros H. unfold wrapu.
  replace (2 ^ b) with (2 ^ a * 2 ^ (b - a)) by (rewrite <- Z.pow_add_r by lia; f_equal; lia).
  assert (0 < 2 ^ a) by (apply Z.pow_pos_nonneg; lia).
  assert (0 < 2 ^ (b - a)) by (apply Z.pow_pos_nonneg; lia).
  rewrite Z.rem_mul_r by lia.
  rewrite (Z.mul_comm (2 ^ a) ((z / 2 ^ a) mod 2 ^ (b - a))), Z.mod_add by lia.
  apply Z.mod_mod. lia.
Qed.

Lemma wraps_wraps_le (a b z : Z) : 0 < a <= b -> wraps a (wraps b z) = wraps a z.
Proof.
  intros H. apply wraps_eqm.
  change (wrapu a (wraps b z) = wrapu a z).
  rewrite <- (wrapu_wrapu_le a b (wraps b z)) by lia.
  rewrite (wrapu_wraps b) by lia. apply wrapu_wrapu_le. lia.
Qed.

Lemma leb_decodes_cut (eat : P Z) spec (wrap wrap' : Z -> Z) :
  leb_decodes eat spec wrap -> (forall z, wrap' (wrap z) = wrap' z) ->
  leb_decodes (let* v := eat in ret (wrap' v)) spec wrap'.
Proof.
  intros H Hw r Hpos rest. destruct (H r Hpos) as [H1 H2]. fold rest in H1, H2.
  unfold bind.
  destruct (spec rest) as [[v n]|].
  - rewrite H1 in *. cbn [ret fst] in *. rewrite Hw. split; [reflexivity|].
    split; [discriminate|]. intros HF. apply H2 in HF. discriminate.
  - destruct (eat r) as [x r1]. cbn [fst] in *. subst x. cbn [fst].
    split; [reflexivity|]. split; [intros _; apply H2; reflexivity|reflexivity].
Qed.

(** [eatU32] and [eatI32] decode as [eatU64] and [eatI64] do, an encoding
    of any length, and keep the low 32 bits of the result: the five bytes
    that encode 2^32 give 0, eleven bytes are accepted, and the unsigned
    encoding of 2^32 - 1 read by [eatI32] gives -1. *)
Theorem leb32_readers_cut_to_32_bits :
  leb_decodes eatU32 uleb uint32 /\
  leb_decodes eatI32 sleb int32 /\
  eatU32 {| bytes := [x80; x80; x80; x80; x10]; pos := 0 |} =
    (Ok 0, {| bytes := [x80; x80; x80; x80; x10]; pos := 5 |}) /\
  eatI32 {| bytes := [xff; xff; xff; xff; x0f]; pos := 0 |} =
    (Ok (-1), {| bytes := [xff; xff; xff; xff; x0f]; pos := 5 |}) /\
  fst (eatU32 {| bytes := [x81; x80; x80; x80; x80; x80; x80; x80; x80; x80; x01];
                 pos := 0 |}) = Ok 1.
Proof.
  split; [|split].
  - apply (leb_decodes_cut eatU64 uleb uint64 uint32 eatU64_decodes).
    intros z. apply (wrapu_wrapu_le 32 64). lia.
  - apply (leb_decodes_cut eatI64 sleb int64 int32 eatI64_decodes).
    intros z. apply (wraps_wraps_le 32 64). lia.
  - repeat split; vm_compute; reflexivity.
Qed.

Lemma leb32_readers_cut_to_32_bits_witness :
  0 <= pos {| bytes := [x00; x80; x80; x80; x80; x20; x7f]; pos := 1 |} /\
  eatU32 {| bytes := [x00; x80; x80; x80; x80; x20; x7f]; pos := 1 |} =
    (Ok 0, {| bytes := [x00; x80; x80; x80; x80; x20; x7f]; pos := 6 |}) /\
  fst (eatI32 {| bytes := [x80; x80]; pos := 0 |}) = Err EOF.
Proof.
  split; [simpl; lia|]. split.
  - exact (proj1 (proj1 leb32_readers_cut_to_32_bits
                    {| bytes := [x00; x80; x80; x80; x80; x20; x7f]; pos := 1 |}
                    ltac:(simpl; lia))).
  - exact (proj1 (proj1 (proj2 leb32_readers_cut_to_32_bits)
                    {| bytes := [x80; x80]; pos := 0 |} ltac:(simpl; lia))).
Defined.

(* ------------------------------------------------------------------ *)
(** ** [eatBytes] and the header *)

Lemma eatBytes_in r n :
  in_bounds r -> 0 <= n < 2 ^ 32 -> pos r + n <= len (bytes r) ->
  eatBytes n r =
  (Ok (take (Z.to_nat n) (drop (Z.to_nat (pos r)) (bytes r))),
   {| bytes := bytes r; pos := pos r + n |}).
Proof.
  intros [H0 H1] Hn Hend. unfold eatBytes, bind, get, lift, set_pos, ret, fail.
  rewrite (int_small n) by lia.
  destruct (Z.ltb_spec (len (bytes r)) (pos r + n)); [lia|].
  unfold slice_range. fold (len (bytes r)).
  destruct (Z.ltb_spec (pos r + n) 0); [lia|].
  destruct (Z.ltb_spec (len (bytes r)) (pos r + n)); [lia|].
  destruct (Z.ltb_spec (pos r) 0); [lia|].
  destruct (Z.ltb_spec (pos r + n) (pos r)); [lia|].
  cbn [orb]. replace (pos r + n - pos r) with n by lia. reflexivity.
Qed.

Lemma eatBytes_short r n :
  0 <= n < 2 ^ 32 -> len (bytes r) < pos r + n -> eatBytes n r = (Err EOF, r).
Proof.
  intros Hn Hend. unfold eatBytes, bind, get, fail.
  rewrite (int_small n) by lia.
  destruct (Z.ltb_spec (len (bytes r)) (pos r + n)); [reflexivity|lia].
Qed.

(** [eatBytes] on a reader inside its bytes, for a length of 32 bits:
    with that many bytes left it returns them and moves behind them, with
    fewer it returns EOF and leaves the reader where it was.  Two reads in
    a row return what one read of both lengths returns. *)
Theorem eatBytes_contract (r : leb128Reader) (n : Z) :
  in_bounds r -> 0 <= n < 2 ^ 32 ->
  (pos r + n <= len (bytes r) ->
   eatBytes n r =
   (Ok (take (Z.to_nat n) (drop (Z.to_nat (pos r)) (bytes r))),
    {| bytes := bytes r; pos := pos r + n |})) /\
  (len (bytes r) < pos r + n -> eatBytes n r = (Err EOF, r)) /\
  (forall a b, 0 <= a -> 0 <= b -> a + b = n -> pos r + n <= len (bytes r) ->
     (let* x := eatBytes a in let* y := eatBytes b in ret (x ++ y)) r = eatBytes n r).
Proof.
  intros Hr Hn. split; [|split].
  - apply eatBytes_in; assumption.
  - apply eatBytes_short; assumption.
  - intros a b Ha Hb Hab Hend. unfold bind at 1.
    rewrite (eatBytes_in r a) by (try assumption; lia).
    unfold bind at 1.
    rewrite (eatBytes_in {| bytes := bytes r; pos := pos r + a |} b)
      by (unfold in_bounds in *; cbn [bytes pos]; lia).
    rewrite (eatBytes_in r n) by (try assumption; lia).
    cbn [bytes pos ret].
    replace (pos r + a + b) with (pos r + n) by lia. f_equal. f_equal.
    subst n. rewrite (Z2Nat.inj_add a b) by lia.
    rewrite <- (take_drop (Z.to_nat a) (take (Z.to_nat a + Z.to_nat b) _)).
    rewrite take_take, Nat.min_l by lia. f_equal.
    rewrite <- take_drop_commute, drop_drop.
    replace (Z.to_nat (pos r + a)) with (Z.to_nat (pos r) + Z.to_nat a)%nat
      by (destruct Hr; lia).
    reflexivity.
Qed.

Lemma eatBytes_contract_witness :
  eatBytes 2 {| bytes := [x01; x02; x03; x04]; pos := 1 |} =
    (Ok [x02; x03], {| bytes := [x01; x02; x03; x04]; pos := 3 |}) /\
  eatBytes 4 {| bytes := [x01; x02; x03; x04]; pos := 1 |} =
    (Err EOF, {| bytes := [x01; x02; x03; x04]; pos := 1 |}).
Proof.
  split.
  - apply (proj1 (eatBytes_contract {| bytes := [x01; x02; x03; x04]; pos := 1 |} 2
                    ltac:(unfold in_bounds; vm_compute; split; discriminate) ltac:(lia))).
    vm_compute. discriminate.
  - apply (proj1 (proj2 (eatBytes_contract {| bytes := [x01; x02; x03; x04]; pos := 1 |} 4
                    ltac:(unfold in_bounds; vm_compute; split; discriminate) ltac:(lia)))).
    vm_compute. reflexivity.
Defined.

Lemma le_encode_decode (bs : list byte) : le_encode (length bs) (le_decode bs) = bs.
Proof.
  induction bs as [|b tl IH]; [reflexivity|].
  cbn [length le_encode le_decode]. pose proof (byte_to_Z_range b) as Hb. f_equal.
  - rewrite <- (byte_of_to_Z b) at 2. unfold byte_of_Z.
    rewrite (Z.mul_comm 256), Z.mod_add by lia. reflexivity.
  - rewrite (Z.mul_comm 256), Z.div_add by lia.
    rewrite Z.div_small by lia. exact IH.
Qed.

Lemma le_word_decode b0 b1 b2 b3 (r : leb128Reader) :
  le_word [b0; b1; b2; b3] r = (Ok (le_decode [b0; b1; b2; b3]), r).
Proof.
  pose proof (byte_to_Z_range b0). pose proof (byte_to_Z_range b1).
  pose proof (byte_to_Z_range b2). pose proof (byte_to_Z_range b3).
  unfold le_word, bind, lift, index. cbn [length lookup list_lookup Z.to_nat].
  cbn -[Z.lor shlu32 uint32 byte_to_Z le_decode]. unfold ret. f_equal. f_equal.
  unfold shlu32, uint32, wrapu. rewrite !Z.shiftl_mul_pow2 by lia.
  rewrite !(Z.mod_small (byte_to_Z _) (2 ^ 32)) by lia.
  rewrite !Z.mod_small by lia.
  rewrite (lor_above _ _ 8) by lia. rewrite (lor_above _ _ 16) by lia.
  rewrite (lor_above _ _ 24) by lia. cbn [le_decode]. lia.
Qed.

Lemma le_decode_inj4 (a b : list byte) :
  length a = 4%nat -> length b = 4%nat -> le_decode a = le_decode b -> a = b.
Proof.
  intros Ha Hb E. rewrite <- (le_encode_decode a), <- (le_encode_decode b), Ha, Hb, E.
  reflexivity.
Qed.

Lemma header_on fl b0 b1 b2 b3 b4 b5 b6 b7 rest :
  let bs := b0 :: b1 :: b2 :: b3 :: b4 :: b5 :: b6 :: b7 :: rest in
  parse fl (newParser bs) =
  if negb (le_decode [b0; b1; b2; b3] =? WASM_MAGIC) || negb (le_decode [b4; b5; b6; b7] =? 1)
  then (Err errInvalidWASMBinary, {| bytes := bs; pos := 8 |})
  else parse_loop fl (S (length bs)) zeroModule {| bytes := bs; pos := 8 |}.
Proof.
  intros bs. unfold parse, header, newParser. unfold bind at 1. unfold bind at 1.
  assert (Hlen : 8 <= len bs) by (unfold len, bs; cbn [length]; lia).
  rewrite (eatBytes_in {| bytes := bs; pos := 0 |} 4)
    by (unfold in_bounds; cbn [bytes pos]; lia).
  cbn [bytes pos]. change (Z.to_nat 4) with 4%nat. change (Z.to_nat 0) with 0%nat.
  unfold bs at 1. cbn [take drop]. unfold bind at 1. rewrite le_word_decode.
  unfold bind at 1.
  rewrite (eatBytes_in {| bytes := bs; pos := 0 + 4 |} 4)
    by (unfold in_bounds; cbn [bytes pos]; lia).
  cbn [bytes pos]. change (Z.to_nat 4) with 4%nat.
  change (Z.to_nat (0 + 4)) with 4%nat.
  unfold bs at 1. cbn [take drop]. unfold bind at 1. rewrite le_word_decode.
  cbn [ret]. change (0 + 4 + 4) with 8.
  destruct (negb (le_decode [b0; b1; b2; b3] =? WASM_MAGIC) ||
            negb (le_decode [b4; b5; b6; b7] =? 1)); reflexivity.
Qed.

(** [parse] accepts one header and no other.  On fewer than eight bytes
    it returns EOF; on eight bytes or more that do not start with the
    magic [\0asm] and the version 1 it returns the error "invalid wasm
    binary magic", for a wrong version as for a wrong magic; and the
    header alone is a module without sections. *)
Theorem header_is_checked_exactly (fl : floatOps) (bs : list byte) :
  ((length bs < 8)%nat -> fst (parse fl (newParser bs)) = Err EOF) /\
  ((8 <= length bs)%nat -> take 8 bs <> wasm_header ->
   parse fl (newParser bs) = (Err errInvalidWASMBinary, {| bytes := bs; pos := 8 |})) /\
  parse fl (newParser wasm_header) = (Ok zeroModule, {| bytes := wasm_header; pos := 8 |}) /\
  Error errInvalidWASMBinary = "invalid wasm binary magic" /\
  fst (parse fl (newParser [x00; x61; x73; x6d; x02; x00; x00; x00])) =
    Err errInvalidWASMBinary.
Proof.
  split; [|split; [|split; [|split]]].
  - intros Hlen. unfold parse, header, newParser. unfold bind at 1. unfold bind at 1.
    destruct (Nat.lt_ge_cases (length bs) 4) as [H4|H4].
    + rewrite eatBytes_short by (unfold len; cbn [bytes pos]; lia). reflexivity.
    + rewrite (eatBytes_in {| bytes := bs; pos := 0 |} 4)
        by (unfold in_bounds, len; cbn [bytes pos]; lia).
      cbn [bytes pos]. change (Z.to_nat 4) with 4%nat. change (Z.to_nat 0) with 0%nat.
      destruct bs as [|b0 [|b1 [|b2 [|b3 tl]]]]; cbn [length] in H4; try lia.
      cbn [take drop]. unfold bind at 1. rewrite le_word_decode. unfold bind at 1.
      rewrite eatBytes_short by (unfold len in *; cbn [bytes pos length] in *; lia).
      reflexivity.
  - intros Hlen Hne.
    destruct bs as [|b0 [|b1 [|b2 [|b3 [|b4 [|b5 [|b6 [|b7 rest]]]]]]]];
      cbn [length] in Hlen; try lia.
    rewrite header_on.
    destruct (Z.eqb_spec (le_decode [b0; b1; b2; b3]) WASM_MAGIC) as [E1|E1];
      [|reflexivity].
    destruct (Z.eqb_spec (le_decode [b4; b5; b6; b7]) 1) as [E2|E2]; [|reflexivity].
    exfalso. apply Hne. cbn [take]. unfold wasm_header.
    assert (H1 : [b0; b1; b2; b3] = [x00; x61; x73; x6d])
      by (apply le_decode_inj4; [reflexivity|reflexivity|rewrite E1; reflexivity]).
    assert (H2 : [b4; b5; b6; b7] = [x01; x00; x00; x00])
      by (apply le_decode_inj4; [reflexivity|reflexivity|rewrite E2; reflexivity]).
    inversion H1; inversion H2; subst. reflexivity.
  - vm_compute. reflexivity.
  - reflexivity.
  - vm_compute. reflexivity.
Qed.

Lemma header_is_checked_exactly_witness :
  fst (parse firstFloatOps (newParser [x00; x61; x73])) = Err EOF /\
  parse firstFloatOps (newParser [x00; x61; x73; x6d; x01; x00; x00; x01; x0b]) =
    (Err errInvalidWASMBinary,
     {| bytes := [x00; x61; x73; x6d; x01; x00; x00; x01; x0b]; pos := 8 |}).
Proof.
  split.
  - apply (proj1 (header_is_checked_exactly firstFloatOps [x00; x61; x73])).
    cbn [length]. lia.
  - apply (proj1 (proj2 (header_is_checked_exactly firstFloatOps
                           [x00; x61; x73; x6d; x01; x00; x00; x01; x0b]))).
    + cbn [length]. lia.
    + vm_compute. discriminate.
Defined.

(* ================================================================== *)
(** * Exports and calls *)

Lemma find_export_none es name :
  Forall (fun e => ei_name e <> name) es -> find_export es name = Ok (-1).
Proof.
  induction 1 as [|e tl Hne _ IH]; [reflexivity|].
  cbn [find_export]. destruct (String.eqb_spec (ei_name e) name); [contradiction|exact IH].
Qed.

Lemma find_export_first pre e post name :
  Forall (fun e => ei_name e <> name) pre -> ei_name e = name ->
  find_export (pre ++ e :: post) name =
  if negb (type_eqb (ev_kind (ei_value e)) exportImportKindFunc)
  then Err (Errorf (name +:+ " not a func"))
  else Ok (int (ev_idx (ei_value e))).
Proof.
  intros Hpre He. induction Hpre as [|x tl Hne _ IH]; cbn [app find_export].
  - rewrite He, String.eqb_refl. reflexivity.
  - destruct (String.eqb_spec (ei_name x) name); [contradiction|exact IH].
Qed.

(** [GetFunc] looks the name up among the exports, and the first export of
    that name decides: without one the error is "can't find NAME func";
    when it is not a function the error is "NAME not a func", also when a
    function of that name follows; and when it is a function whose index
    is not below the number of the module's functions, the call panics on
    the index. *)
Theorem GetFunc_export_lookup :
  (forall i name,
     Forall (fun e => ei_name e <> name) (exports (i_mod i)) ->
     GetFunc i name = Err (Errorf ("can't find " +:+ name +:+ " func"))) /\
  (forall i name pre e post,
     exports (i_mod i) = pre ++ e :: post ->
     Forall (fun e => ei_name e <> name) pre -> ei_name e = name ->
     ev_kind (ei_value e) <> exportImportKindFunc ->
     GetFunc i name = Err (Errorf (name +:+ " not a func"))) /\
  (forall i name pre e post,
     exports (i_mod i) = pre ++ e :: post ->
     Forall (fun e => ei_name e <> name) pre -> ei_name e = name ->
     ev_kind (ei_value e) = exportImportKindFunc ->
     len (funcAddrs (i_mod i)) <= ev_idx (ei_value e) < 2 ^ 32 ->
     GetFunc i name = Panic IndexOutOfRange) /\
  (let ex k := {| ei_name := "m"; ei_value := {| ev_kind := k; ev_idx := 0 |} |} in
   let i := {| i_frameStack := []; i_valueStack := []; i_store := zeroStore;
               i_mod := {| signatures := []; funcAddrs := []; tableAddrs := [];
                           memAddrs := []; globalAddrs := []; elemAddrs := [];
                           dataAddrs := [];
                           exports := [ex exportImportKindMem; ex exportImportKindFunc] |} |} in
   GetFunc i "m" = Err (Errorf "m not a func") /\
   GetFunc i "f" = Err (Errorf "can't find f func")) /\
  (forall fl, call_export fl nop_module "g" [] 1 = Err (Errorf "can't find g func")).
Proof.
  split; [|split; [|split; [|split]]].
  - intros i name H. unfold GetFunc. rewrite (find_export_none _ _ H). reflexivity.
  - intros i name pre e post Hex Hpre He Hk. unfold GetFunc.
    rewrite Hex, (find_export_first _ _ _ _ Hpre He).
    unfold type_eqb. destruct (Byte.eqb (ev_kind (ei_value e)) exportImportKindFunc) eqn:E;
      [apply Byte.byte_dec_bl in E; contradiction|reflexivity].
  - intros i name pre e post Hex Hpre He Hk Hidx. unfold GetFunc.
    rewrite Hex, (find_export_first _ _ _ _ Hpre He), Hk.
    assert (0 <= len (funcAddrs (i_mod i))) by (unfold len; lia).
    cbn [negb type_eqb rbind]. change (type_eqb exportImportKindFunc exportImportKindFunc) with true.
    cbn [negb rbind]. rewrite int_small by lia.
    destruct (Z.ltb_spec (ev_idx (ei_value e)) 0); [lia|].
    unfold index. fold (len (funcAddrs (i_mod i))).
    destruct (Z.leb_spec (len (funcAddrs (i_mod i))) (ev_idx (ei_value e))); [|lia].
    rewrite orb_true_r. reflexivity.
  - intros ex i. split; vm_compute; reflexivity.
  - intros fl. vm_compute. reflexivity.
Qed.

Lemma GetFunc_export_lookup_witness :
  GetFunc zeroInterpreter "f" = Err (Errorf "can't find f func").
Proof.
  apply (proj1 GetFunc_export_lookup zeroInterpreter "f"). constructor.
Defined.

Lemma fold_push {T} (l : list T) : forall vs, fold_left stack_Push l vs = vs ++ l.
Proof.
  induction l as [|x tl IH]; intros vs; cbn [fold_left].
  - rewrite app_nil_r. reflexivity.
  - rewrite IH. unfold stack_Push. rewrite <- app_assoc. reflexivity.
Qed.

Lemma Execute_done fuel vs s :
  Execute fuel {| frameStack := []; valueStack := vs; store_ := s |} =
  (Ok tt, {| frameStack := []; valueStack := vs; store_ := s |}).
Proof. destruct fuel; reflexivity. Qed.

(** A call pushes its arguments last one first and leaves them on the
    operand stack.  So local [k] of the function is the argument [k]
    places from the last, and after the call the operand stack of the
    interpreter has grown by the arguments: a function of two parameters
    whose body is [local.get 0] returns its second argument, and a second
    call finds the arguments of the first still there. *)
Theorem arguments_arrive_reversed_and_stay :
  (forall fuel fn args i k v,
     i_frameStack i = [] ->
     body (code (fi_internalFunc fn)) = [Some (opLocalGet k); Some opEnd] ->
     length (results (fi_funcType fn)) = 1%nat ->
     0 <= k -> rev args !! Z.to_nat k = Some v ->
     invoke (S (S fuel)) fn args i =
     (Ok [v], {| i_frameStack := []; i_valueStack := i_valueStack i ++ rev args;
                 i_store := i_store i; i_mod := i_mod i |})) /\
  (forall fl,
     run_body fl x7f [x20; x00] [ValueFromI32 7; ValueFromI32 2] 4 = Ok [ValueFromI32 2] /\
     run_body fl x7f [x20; x01] [ValueFromI32 7; ValueFromI32 2] 4 = Ok [ValueFromI32 7] /\
     rbind (NewInterpreter fl (module_with_body 2 x7f [x20; x00])) (fun i =>
     rbind (GetFunc i "f") (fun fn =>
       let '(r1, i1) := invoke 4 fn [ValueFromI32 7; ValueFromI32 2] i in
       let '(r2, i2) := invoke 4 fn [ValueFromI32 8; ValueFromI32 3] i1 in
       Ok (r1, r2, i_valueStack i2))) =
     Ok (Ok [ValueFromI32 2], Ok [ValueFromI32 3],
         [ValueFromI32 2; ValueFromI32 7; ValueFromI32 3; ValueFromI32 8])).
Proof.
  split.
  - intros fuel fn args i k v Hfs Hbody Hres Hk Hv.
    unfold invoke. rewrite Hfs, Hbody, Hres, fold_push.
    set (fr := {| pc := 0; sp := stack_Len (i_valueStack i);
                  insts := [Some (opLocalGet k); Some opEnd];
                  labels := []; f_mod := Some (i_mod i) |}).
    change (stack_Push [] fr) with ([] ++ [fr]).
    fold (on_frame [] fr (i_valueStack i ++ rev args) (i_store i)).
    pose proof (lookup_lt_Some _ _ _ Hv) as Hlt.
    assert (Hget : exec (opLocalGet k) (on_frame [] fr (i_valueStack i ++ rev args) (i_store i)) =
                   (Ok tt, on_frame [] (stepped 1 fr) ((i_valueStack i ++ rev args) ++ [v])
                                    (i_store i))).
    { cbn [exec]. unfold opLocalGet_exec. run_exec. rewrite getValueStack_on. run_exec.
      unfold lift at 1. unfold stack_Get, stack_Len. cbn [sp fr].
      unfold stack_Len. rewrite len_app.
      destruct (Z.leb_spec (len (i_valueStack i) + len (rev args)) (len (i_valueStack i) + k));
        [unfold len in *; lia|].
      unfold index. rewrite length_app.
      destruct (Z.ltb_spec (len (i_valueStack i) + k) 0); [unfold len in *; lia|].
      destruct (Z.leb_spec (Z.of_nat (length (i_valueStack i) + length (rev args)))
                           (len (i_valueStack i) + k)); [unfold len in *; lia|].
      cbn [orb].
      replace (Z.to_nat (len (i_valueStack i) + k))
        with (length (i_valueStack i) + Z.to_nat k)%nat by (unfold len; lia).
      rewrite lookup_app_r by lia.
      replace (length (i_valueStack i) + Z.to_nat k - length (i_valueStack i))%nat
        with (Z.to_nat k) by lia.
      rewrite Hv. cbn [rbind]. run_exec. reflexivity. }
    rewrite Execute_S.
    rewrite (step_at [] fr _ _ [] (Some (opLocalGet k)) [Some opEnd] eq_refl eq_refl).
    cbn [exec_interface]. rewrite Hget.
    rewrite Execute_S.
    rewrite (step_at [] (stepped 1 fr) _ _ [Some (opLocalGet k)] (Some opEnd) [] eq_refl eq_refl).
    cbn [exec_interface]. rewrite opEnd_exec_spec.
    cbn [stepped set_pc labels fr].
    change (stack_Pop zeroLabel []) with (zeroLabel, false, @nil label).
    cbv beta iota. rewrite Execute_done. cbn [valueStack frameStack store_ pop_results].
    rewrite stack_Pop_push. reflexivity.
  - intros fl. repeat split; vm_compute; reflexivity.
Qed.

Lemma arguments_arrive_reversed_and_stay_witness :
  let fn := {| fi_funcType := {| params := [I32; I32]; results := [I32] |};
               fi_kind := internalFunc;
               fi_internalFunc :=
                 {| code := {| typeIdx := 0; f_locals := [];
                               body := [Some (opLocalGet 0); Some opEnd] |} |} |} in
  invoke 2 fn [ValueFromI32 7; ValueFromI32 2] zeroInterpreter =
  (Ok [ValueFromI32 2],
   {| i_frameStack := []; i_valueStack := [ValueFromI32 2; ValueFromI32 7];
      i_store := zeroStore; i_mod := zeroModuleInst |}).
Proof.
  intros fn.
  exact (proj1 arguments_arrive_reversed_and_stay 0%nat fn [ValueFromI32 7; ValueFromI32 2]
           zeroInterpreter 0 (ValueFromI32 2) eq_refl eq_refl eq_refl ltac:(lia) eq_refl).
Defined.

(* ================================================================== *)
(** * Sections *)


